(** * personal-crm: the REST API over the PostgreSQL schema

    A shallow embedding of [schema.sql], of the Express handlers of the API
    server, of the API client of the tool server and of the seed script,
    with the properties of the interaction-logging and
    engagement-derivation core.

    Conventions of the model.
    - A [TIMESTAMP] is a [Z]: microseconds since 2000-01-01 00:00, the way
      PostgreSQL stores it.  The session time zone is UTC, so a day is
      always 24 hours and [timestamp] and [timestamptz] coincide.
    - [NOW()] and [CURRENT_TIMESTAMP] are the start time of the current
      transaction; every handler takes it as the argument [now].
    - A table is the list of its rows in insertion order; a [SELECT] without
      [ORDER BY] returns rows in that order, and [ORDER BY] is a stable sort
      of it (PostgreSQL leaves the order of ties open).
    - A [SERIAL] column draws from a sequence.  Sequences are not
      transactional: [ROLLBACK] restores the tables, not the sequences.
    - A string is the sequence of its characters, each a code point below
      256 (Latin-1); the length limits of [VARCHAR(n)] count them.  Text
      with other characters is outside the model.  The database receives a
      string in UTF-8, where a character from 128 on is a sequence of bytes
      from 128 on, none of them a digit, a sign or white space to it.
    - The database is PostgreSQL 16 or later. *)

From Stdlib Require Import ZArith QArith Lia Bool Ascii String List.
From Stdlib Require Import Sorted Permutation.
From stdpp Require Import base strings gmap pretty.

Local Open Scope string_scope.
Local Open Scope Z_scope.

(** ** JavaScript values and built-ins used by the handlers *)

Module Js.

(** The values a parsed JSON body can hold at the keys the server reads,
    and [undefined] for an absent key.  A number [Num z] is an integer that
    a double holds exactly, below 10^21 in absolute value (from there on
    JavaScript prints numbers with an exponent). *)
Inductive value :=
| Undefined
| Null
| Bool (b : bool)
| Num (z : Z)
| Str (s : string).

(** ToBoolean *)
Definition truthy (v : value) : bool :=
  match v with
  | Undefined | Null => false
  | Bool b => b
  | Num z => negb (z =? 0)
  | Str s => negb (String.eqb s "")
  end.

(** [a || b] *)
Definition or (a b : value) : value := if truthy a then a else b.

(** A property read [obj.key]: [undefined] when the key is absent. *)
Definition get (obj : gmap string value) (key : string) : value :=
  match obj !! key with
  | Some v => v
  | None => Undefined
  end.

(** The double nearest to the natural number [m] (ties to even), as an
    integer; the caller maps results from 2^1024 on to Infinity. *)
Definition round_to_double (m : Z) : Z :=
  let bits := Z.log2 m + 1 in
  if bits <=? 53 then m
  else
    let k := bits - 53 in
    let q := Z.shiftr m k in
    let r := Z.land m (Z.ones k) in
    let half := Z.shiftl 1 (k - 1) in
    let q' := if (half <? r) || ((r =? half) && Z.odd q) then q + 1 else q in
    Z.shiftl q' k.

(** The decimal digits [Number.prototype.toString] prints for the double
    [z], as an integer: [z] itself up to 2^53, and from there on the
    multiple of a power of ten with the fewest significant digits that
    still rounds to [z], the nearest one when there are two. *)
Fixpoint shortest_round_trip (exponent : nat) (z : Z) : Z :=
  let p := 10 ^ Z.of_nat exponent in
  let below := (z / p) * p in
  let above := below + p in
  let below_ok := round_to_double below =? z in
  let above_ok := round_to_double above =? z in
  let pick :=
    if below_ok && above_ok
    then Some (if z - below <=? above - z then below else above)
    else if below_ok then Some below
    else if above_ok then Some above
    else None in
  match pick, exponent with
  | Some v, _ => v
  | None, S e => shortest_round_trip e z
  | None, O => z
  end.

Definition text_value (z : Z) : Z :=
  if Z.abs z <=? 2 ^ 53 then z
  else Z.sgn z * shortest_round_trip 20 (Z.abs z).

(** ToString, as used by template literals and by the database driver. *)
Definition to_string (v : value) : string :=
  match v with
  | Undefined => "undefined"
  | Null => "null"
  | Bool true => "true"
  | Bool false => "false"
  | Num z => pretty (text_value z)
  | Str s => s
  end.

(** The result of [parseInt]: an integer-valued double, NaN or an
    infinity. *)
Inductive number :=
| NaN
| Fin (z : Z)
| Inf (negative : bool).

Definition number_truthy (n : number) : bool :=
  match n with
  | NaN => false
  | Fin z => negb (z =? 0)
  | Inf _ => true
  end.

(** StrWhiteSpaceChar, among the characters below 256: TAB, LF, VT, FF,
    CR, SP and NBSP (U+00A0). *)
Definition is_space (c : ascii) : bool :=
  let n := Z.of_nat (nat_of_ascii c) in
  ((9 <=? n) && (n <=? 13)) || (n =? 32) || (n =? 160).

Fixpoint skip_space (s : string) : string :=
  match s with
  | String c s' => if is_space c then skip_space s' else s
  | EmptyString => s
  end.

Definition digit_value (c : ascii) : option Z :=
  let n := Z.of_nat (nat_of_ascii c) in
  if (48 <=? n) && (n <=? 57) then Some (n - 48)
  else if (97 <=? n) && (n <=? 122) then Some (n - 87)
  else if (65 <=? n) && (n <=? 90) then Some (n - 55)
  else None.

(** The value of the longest prefix of [s] made of digits of [radix],
    [None] when that prefix is empty. *)
Fixpoint digits (radix : Z) (s : string) (acc : option Z) : option Z :=
  match s with
  | String c s' =>
      match digit_value c with
      | Some d =>
          if d <? radix
          then digits radix s' (Some (radix * default 0 acc + d))
          else acc
      | None => acc
      end
  | EmptyString => acc
  end.

(** [parseInt(s)] with no radix argument. *)
Definition parseInt (s : string) : number :=
  let s1 := skip_space s in
  let '(negative, s2) :=
    match s1 with
    | String "-" t => (true, t)
    | String "+" t => (false, t)
    | _ => (false, s1)
    end in
  let '(radix, s3) :=
    match s2 with
    | String "0" (String "x" t) => (16, t)
    | String "0" (String "X" t) => (16, t)
    | _ => (10, s2)
    end in
  match digits radix s3 None with
  | None => NaN
  | Some m =>
      let d := round_to_double m in
      if Z.shiftl 1 1024 <=? d then Inf negative
      else Fin (if negative then - d else d)
  end.

End Js.

(** ** PostgreSQL: value ranges and input conversion *)

Module Pg.

Definition INT4_MIN : Z := -2147483648.
Definition INT4_MAX : Z := 2147483647.
Definition INT8_MAX : Z := 9223372036854775807.

Definition USECS_PER_DAY : Z := 86400000000.
(** The first and the first invalid timestamp: Julian day 0 and the year
    294277, counted from 2000-01-01. *)
Definition MIN_TIMESTAMP : Z := -211813488000000000.
Definition END_TIMESTAMP : Z := 9223371331200000000.

Definition in_int4 (z : Z) : bool := (INT4_MIN <=? z) && (z <=? INT4_MAX).

Definition valid_timestamp (t : Z) : bool :=
  (MIN_TIMESTAMP <=? t) && (t <? END_TIMESTAMP).

(** C [isspace] *)
Definition is_space (c : ascii) : bool :=
  let n := Z.of_nat (nat_of_ascii c) in
  ((9 <=? n) && (n <=? 13)) || (n =? 32).

Fixpoint skip_space (s : string) : string :=
  match s with
  | String c s' => if is_space c then skip_space s' else s
  | EmptyString => s
  end.

Definition is_digit (c : ascii) : bool :=
  let n := Z.of_nat (nat_of_ascii c) in (48 <=? n) && (n <=? 57).

(** The value of [c] as a digit of [base], for the bases 16, 8 and 2. *)
Definition digit_of (base : Z) (c : ascii) : option Z :=
  let n := Z.of_nat (nat_of_ascii c) in
  let v :=
    if (48 <=? n) && (n <=? 57) then Some (n - 48)
    else if (97 <=? n) && (n <=? 102) then Some (n - 87)
    else if (65 <=? n) && (n <=? 70) then Some (n - 55)
    else None in
  match v with
  | Some d => if d <? base then Some d else None
  | None => None
  end.

(** Decimal digits, then optional white space, then the end of input.  An
    underscore may stand between two digits. *)
Fixpoint digits_then_end (s : string) (acc : option Z) : option Z :=
  match s with
  | String c s' =>
      if is_digit c
      then digits_then_end s' (Some (10 * default 0 acc + (Z.of_nat (nat_of_ascii c) - 48)))
      else if Ascii.eqb c "_"
      then match acc, s' with
           | Some _, String c' _ => if is_digit c' then digits_then_end s' acc else None
           | _, _ => None
           end
      else match skip_space s with
           | EmptyString => acc
           | _ => None
           end
  | EmptyString => acc
  end.

(** The same for the digits of [base] after a prefix [0x], [0o] or [0b],
    where an underscore may also come first. *)
Fixpoint based_digits_then_end (base : Z) (s : string) (acc : option Z) : option Z :=
  match s with
  | String c s' =>
      match digit_of base c with
      | Some d => based_digits_then_end base s' (Some (base * default 0 acc + d))
      | None =>
          if Ascii.eqb c "_"
          then match s' with
               | String c' _ =>
                   match digit_of base c' with
                   | Some _ => based_digits_then_end base s' acc
                   | None => None
                   end
               | EmptyString => None
               end
          else match skip_space s with
               | EmptyString => acc
               | _ => None
               end
      end
  | EmptyString => acc
  end.

(** The input function of [INTEGER] ([pg_strtoint32_safe]): optional white
    space, an optional sign, then decimal digits or a prefix [0x], [0o] or
    [0b] with digits of its base, then optional white space.  [None] is
    the error "invalid input syntax" or "out of range". *)
Definition int4in (s : string) : option Z :=
  let s1 := skip_space s in
  let '(negative, s2) :=
    match s1 with
    | String "-" t => (true, t)
    | String "+" t => (false, t)
    | _ => (false, s1)
    end in
  let magnitude :=
    match s2 with
    | String "0" (String "x" t) | String "0" (String "X" t) =>
        based_digits_then_end 16 t None
    | String "0" (String "o" t) | String "0" (String "O" t) =>
        based_digits_then_end 8 t None
    | String "0" (String "b" t) | String "0" (String "B" t) =>
        based_digits_then_end 2 t None
    | String c _ => if is_digit c then digits_then_end s2 None else None
    | EmptyString => None
    end in
  match magnitude with
  | Some m =>
      let z := if negative then - m else m in
      if in_int4 z then Some z else None
  | None => None
  end.

End Pg.

(** ** The schema: rows, tables, sequences *)

Module Contact.
Record t := mk {
  id : Z;
  name : string;
  phone_number : option string;
  email : option string;
  relationship_type : option string;
  last_interaction_date : option Z;
  created_at : option Z;
  updated_at : option Z
}.
End Contact.

Module InteractionType.
Record t := mk {
  id : Z;
  type_name : string;
  description : option string
}.
End InteractionType.

Module Interaction.
Record t := mk {
  id : Z;
  contact_id : Z;
  interaction_type_id : Z;
  direction : option string;
  timestamp : Z;
  duration_seconds : option Z;
  subject : option string;
  notes : option string;
  created_at : option Z
}.
End Interaction.

(** The database: the three tables the API reads and writes and their
    [SERIAL] sequences (the last value each has handed out).  The table
    [relationship_goals] is created by the schema and used by no handler. *)
Record db := mk_db {
  contacts : list Contact.t;
  interaction_types : list InteractionType.t;
  interactions : list Interaction.t;
  contacts_id_seq : Z;
  interaction_types_id_seq : Z;
  interactions_id_seq : Z
}.

(** The database before [schema.sql] has run. *)
Definition empty_db : db := mk_db [] [] [] 0 0 0.

(** A statement or a block of statements: it ends in an error message or
    in a value, and leaves a database state either way. *)
Definition tx (A : Type) : Type := db -> db * (string + A).

Definition ret {A} (a : A) : tx A := fun d => (d, inr a).
Definition throw {A} (msg : string) : tx A := fun d => (d, inl msg).
Definition bind {A B} (m : tx A) (k : A -> tx B) : tx B :=
  fun d =>
    match m d with
    | (d1, inl msg) => (d1, inl msg)
    | (d1, inr a) => k a d1
    end.

Notation "'let*' x ':=' m 'in' k" := (bind m (fun x => k))
  (at level 10, x name, m at level 100, k at level 200).

(** [ROLLBACK]: the tables as they were at [BEGIN]; sequences keep the
    values they reached. *)
Definition rollback (at_begin current : db) : db :=
  mk_db (contacts at_begin) (interaction_types at_begin) (interactions at_begin)
        (contacts_id_seq current) (interaction_types_id_seq current)
        (interactions_id_seq current).

(** [BEGIN; ...; COMMIT] with the handler's [catch] that rolls back. *)
Definition transaction {A} (m : tx A) : tx A :=
  fun d =>
    match m d with
    | (d1, inl msg) => (rollback d d1, inl msg)
    | (d1, inr a) => (d1, inr a)
    end.

Definition check {A} (r : string + A) : tx A := fun d => (d, r).

(** *** Parameters and column types *)

(** What node-postgres sends for a JavaScript parameter: NULL for [null]
    and [undefined], the text of the value otherwise. *)
Definition prepareValue (v : Js.value) : option string :=
  match v with
  | Js.Undefined | Js.Null => None
  | _ => Some (Js.to_string v)
  end.

Fixpoint all_spaces (s : string) : bool :=
  match s with
  | String c s' => Ascii.eqb c " " && all_spaces s'
  | EmptyString => true
  end.

(** Storing into [VARCHAR(n)]: a longer text is an error unless only
    spaces exceed the limit, which are cut off. *)
Definition varchar (n : nat) (v : option string) : string + option string :=
  match v with
  | None => inr None
  | Some s =>
      if (String.length s <=? n)%nat then inr (Some s)
      else if all_spaces (substring n (String.length s - n) s)
      then inr (Some (substring 0 n s))
      else inl ("value too long for type character varying(" ++ pretty (Z.of_nat n) ++ ")")
  end.

(** Storing a text parameter into [INTEGER]. *)
Definition integer (v : option string) : string + option Z :=
  match v with
  | None => inr None
  | Some s =>
      match Pg.int4in s with
      | Some z => inr (Some z)
      | None => inl "invalid input syntax for type integer"
      end
  end.

Definition not_null {A} (column : string) (v : option A) : string + A :=
  match v with
  | Some a => inr a
  | None => inl ("null value in column " ++ column ++ " violates not-null constraint")
  end.

Definition serial (id : Z) : string + Z :=
  if Pg.in_int4 id then inr id else inl "integer out of range".

Definition option_eqb (a : option string) (b : string) : bool :=
  match a with
  | Some s => String.eqb s b
  | None => false
  end.

(** *** The statements of the server *)

(** [SELECT id FROM contacts WHERE name = $1] *)
Definition select_contact_id_by_name (name : option string) : tx (list Z) :=
  fun d =>
    (d, inr (map Contact.id
               (List.filter (fun c => option_eqb name (Contact.name c)) (contacts d)))).

Definition nextval_contacts : tx Z :=
  fun d =>
    let id := contacts_id_seq d + 1 in
    (mk_db (contacts d) (interaction_types d) (interactions d)
           id (interaction_types_id_seq d) (interactions_id_seq d), inr id).

Definition nextval_interactions : tx Z :=
  fun d =>
    let id := interactions_id_seq d + 1 in
    (mk_db (contacts d) (interaction_types d) (interactions d)
           (contacts_id_seq d) (interaction_types_id_seq d) id, inr id).

Definition nextval_interaction_types : tx Z :=
  fun d =>
    let id := interaction_types_id_seq d + 1 in
    (mk_db (contacts d) (interaction_types d) (interactions d)
           (contacts_id_seq d) id (interactions_id_seq d), inr id).

Definition mem (z : Z) (l : list Z) : bool := existsb (Z.eqb z) l.

Definition add_contact (row : Contact.t) : tx unit :=
  fun d =>
    if mem (Contact.id row) (map Contact.id (contacts d))
    then (d, inl "duplicate key value violates unique constraint contacts_pkey")
    else (mk_db (contacts d ++ [row]) (interaction_types d) (interactions d)
                (contacts_id_seq d) (interaction_types_id_seq d)
                (interactions_id_seq d), inr tt).

(** [INSERT INTO contacts (name, relationship_type, phone_number, email)
    VALUES ($1, $2, $3, $4) RETURNING id]; the server's statement gives
    the first two columns only. *)
Definition insert_contact (now : Z) (name relationship_type phone_number email : option string)
  : tx Z :=
  let* id := nextval_contacts in
  let* id := check (serial id) in
  let* name := check (varchar 255 name) in
  let* name := check (not_null "name" name) in
  let* phone_number := check (varchar 20 phone_number) in
  let* email := check (varchar 255 email) in
  let* relationship_type := check (varchar 50 relationship_type) in
  let* _ := add_contact (Contact.mk id name phone_number email relationship_type
                                    None (Some now) (Some now)) in
  ret id.

(** [SELECT id FROM interaction_types WHERE type_name = $1] *)
Definition select_type_id_by_name (type_name : option string) : tx (list Z) :=
  fun d =>
    (d, inr (map InteractionType.id
               (List.filter (fun t => option_eqb type_name (InteractionType.type_name t))
                       (interaction_types d)))).

Definition add_interaction (row : Interaction.t) : tx unit :=
  fun d =>
    if mem (Interaction.id row) (map Interaction.id (interactions d))
    then (d, inl "duplicate key value violates unique constraint interactions_pkey")
    else if negb (mem (Interaction.contact_id row) (map Contact.id (contacts d)))
    then (d, inl "insert on table interactions violates foreign key constraint interactions_contact_id_fkey")
    else if negb (mem (Interaction.interaction_type_id row)
                      (map InteractionType.id (interaction_types d)))
    then (d, inl "insert on table interactions violates foreign key constraint interactions_interaction_type_id_fkey")
    else (mk_db (contacts d) (interaction_types d) (interactions d ++ [row])
                (contacts_id_seq d) (interaction_types_id_seq d)
                (interactions_id_seq d), inr tt).

(** [INSERT INTO interactions (contact_id, interaction_type_id, direction,
    timestamp, duration_seconds, subject) VALUES ($1, $2, $3, $4, $5, $6)
    RETURNING *], with [$4] already a timestamp; the server writes [NOW()]
    in its place. *)
Definition insert_interaction (now : Z) (contact_id interaction_type_id : Z)
    (direction : option string) (timestamp : Z)
    (duration_seconds subject : option string) : tx Interaction.t :=
  let* id := nextval_interactions in
  let* id := check (serial id) in
  let* direction := check (varchar 20 direction) in
  let* duration_seconds := check (integer duration_seconds) in
  let* subject := check (varchar 255 subject) in
  let row := Interaction.mk id contact_id interaction_type_id direction timestamp
                            duration_seconds subject None (Some now) in
  let* _ := add_interaction row in
  ret row.

Definition set_last_interaction_date (now contact_id : Z) (c : Contact.t) : Contact.t :=
  if Contact.id c =? contact_id
  then Contact.mk (Contact.id c) (Contact.name c) (Contact.phone_number c)
                  (Contact.email c) (Contact.relationship_type c)
                  (Some now) (Contact.created_at c) (Some now)
  else c.

(** [UPDATE contacts SET last_interaction_date = NOW(), updated_at = NOW()
    WHERE id = $1] *)
Definition touch_contact (now : Z) (contact_id : Z) : tx unit :=
  fun d =>
    (mk_db (map (set_last_interaction_date now contact_id) (contacts d))
           (interaction_types d) (interactions d)
           (contacts_id_seq d) (interaction_types_id_seq d)
           (interactions_id_seq d), inr tt).

(** ** The API server *)

(** What a handler sends: [res.status(s).json(body)] or
    [res.status(s).json({ error })]. *)
Inductive response (A : Type) :=
| Success (status : Z) (body : A)
| Failure (status : Z) (error : string).
Arguments Success {A} status body.
Arguments Failure {A} status error.

(** The error classes of the specification, as the server answers them. *)
Definition NotFound {A} : response A := Failure 404 "Contact not found".

Definition UnknownInteractionType {A} (interaction_type : Js.value) : response A :=
  Failure 500
    ("Unknown interaction type: " ++ Js.to_string interaction_type
     ++ ". Valid types: phone_call, sms, email, imessage, facetime_audio, facetime_video, calendar_meeting").

(** The outer [try]/[catch] of every handler: an error that reaches it is
    answered with status 500 and the error's message. *)
Definition reply {A} (status : Z) (r : string + A) : response A :=
  match r with
  | inr a => Success status a
  | inl msg => Failure 500 msg
  end.

Definition respond {A} (status : Z) (r : db * (string + A)) : db * response A :=
  (fst r, reply status (snd r)).

(** *** POST /api/interactions *)

(** "Get or create contact" *)
Definition get_or_create_contact (now : Z) (contact_name : Js.value) : tx Z :=
  let* existing := select_contact_id_by_name (prepareValue contact_name) in
  match existing with
  | id :: _ => ret id
  | [] => insert_contact now (prepareValue contact_name) (Some "unknown") None None
  end.

(** "Look up interaction type" *)
Definition look_up_interaction_type (interaction_type : Js.value) : tx Z :=
  let* typeResult := select_type_id_by_name (prepareValue interaction_type) in
  match typeResult with
  | [] =>
      throw ("Unknown interaction type: " ++ Js.to_string interaction_type
             ++ ". Valid types: phone_call, sms, email, imessage, facetime_audio, facetime_video, calendar_meeting")
  | typeId :: _ => ret typeId
  end.

Definition post_interactions (now : Z) (body : gmap string Js.value) (d : db)
  : db * response Interaction.t :=
  let contact_name := Js.get body "contact_name" in
  let interaction_type := Js.get body "interaction_type" in
  let direction := Js.get body "direction" in
  let duration_seconds := Js.get body "duration_seconds" in
  let subject := Js.get body "subject" in
  if negb (Js.truthy contact_name) || negb (Js.truthy interaction_type)
  then (d, Failure 400 "contact_name and interaction_type are required")
  else
    respond 201
      (transaction
         (let* contactId := get_or_create_contact now contact_name in
          let* typeId := look_up_interaction_type interaction_type in
          let* interaction :=
            insert_interaction now contactId typeId
              (prepareValue (Js.or direction Js.Null)) now
              (prepareValue (Js.or duration_seconds Js.Null))
              (prepareValue (Js.or subject Js.Null)) in
          let* _ := touch_contact now contactId in
          ret interaction) d).

(** *** Ordering *)

Section Sort.
Context {A : Type} (leb : A -> A -> bool).

Fixpoint insert_sorted (x : A) (l : list A) : list A :=
  match l with
  | [] => [x]
  | y :: l' => if leb x y then x :: l else y :: insert_sorted x l'
  end.

(** A stable sort: among rows that compare equal the earlier one of the
    input stays first. *)
Definition order_by (l : list A) : list A :=
  fold_right insert_sorted [] l.
End Sort.

(** [ORDER BY t DESC NULLS LAST] *)
Definition desc_nulls_last (a b : option Z) : bool :=
  match a, b with
  | Some x, Some y => y <=? x
  | Some _, None => true
  | None, Some _ => false
  | None, None => true
  end.

(** [ORDER BY t ASC NULLS FIRST] *)
Definition asc_nulls_first (a b : option Z) : bool :=
  match a, b with
  | Some x, Some y => x <=? y
  | None, _ => true
  | Some _, None => false
  end.

(** *** GET /api/contacts *)

Record contact_row := mk_contact_row {
  cr_id : Z;
  cr_name : string;
  cr_phone_number : option string;
  cr_email : option string;
  cr_relationship_type : option string;
  cr_last_interaction_date : option Z
}.

Definition contact_columns (c : Contact.t) : contact_row :=
  mk_contact_row (Contact.id c) (Contact.name c) (Contact.phone_number c)
                 (Contact.email c) (Contact.relationship_type c)
                 (Contact.last_interaction_date c).

Definition get_contacts (d : db) : response (list contact_row) :=
  Success 200
    (order_by (fun a b => desc_nulls_last (cr_last_interaction_date a)
                                          (cr_last_interaction_date b))
              (map contact_columns (contacts d))).

(** *** GET /api/contacts/overdue/:days *)

Record overdue_row := mk_overdue_row {
  od_contact : contact_row;
  days_since_contact : option Z
}.

(** [INTERVAL '1 day' * $1] with [$1] the text of a JavaScript number,
    read back as the same double: the number of days of the product, which
    must fit 32 bits. *)
Definition interval_days (days : Js.number) : string + Z :=
  match days with
  | Js.Fin z => if Pg.in_int4 z then inr z else inl "interval out of range"
  | _ => inl "interval out of range"
  end.

(** [t - i] for an interval [i] of whole days. *)
Definition timestamp_minus_days (t days : Z) : string + Z :=
  let r := t - days * Pg.USECS_PER_DAY in
  if Pg.valid_timestamp r then inr r else inl "timestamp out of range".

(** [EXTRACT(DAY FROM a - b)]: the difference of two timestamps is an
    interval of days and a rest below a day, both of the sign of the
    difference. *)
Definition extract_day_between (a b : Z) : Z := Z.quot (a - b) Pg.USECS_PER_DAY.

(** [last_interaction_date IS NULL OR last_interaction_date < cutoff] *)
Definition overdue (cutoff : Z) (c : Contact.t) : bool :=
  match Contact.last_interaction_date c with
  | None => true
  | Some t => t <? cutoff
  end.

Definition overdue_columns (now : Z) (c : Contact.t) : overdue_row :=
  mk_overdue_row (contact_columns c)
    (option_map (fun t => extract_day_between now t) (Contact.last_interaction_date c)).

Definition od_last (r : overdue_row) : option Z :=
  cr_last_interaction_date (od_contact r).

Definition get_contacts_overdue (now : Z) (days_param : string) (d : db)
  : response (list overdue_row) :=
  let days := Js.parseInt days_param in
  reply 200
    match interval_days days with
    | inl msg => inl msg
    | inr n =>
        match timestamp_minus_days now n with
        | inl msg => inl msg
        | inr cutoff =>
            inr (order_by (fun a b => asc_nulls_first (od_last a) (od_last b))
                   (map (overdue_columns now)
                        (List.filter (overdue cutoff) (contacts d))))
        end
    end.

(** *** GET /api/contacts/:id *)

Record interaction_row := mk_interaction_row {
  ir_id : Z;
  ir_timestamp : Z;
  ir_direction : option string;
  ir_duration_seconds : option Z;
  ir_subject : option string;
  ir_notes : option string;
  ir_type_name : string
}.

Record contact_details := mk_contact_details {
  cd_contact : Contact.t;
  cd_interactions : list interaction_row
}.

(** [interactions i JOIN interaction_types it ON i.interaction_type_id = it.id] *)
Definition types_of (d : db) (i : Interaction.t) : list InteractionType.t :=
  List.filter (fun it => Interaction.interaction_type_id i =? InteractionType.id it)
              (interaction_types d).

(** [interactions i JOIN contacts c ON i.contact_id = c.id] *)
Definition contacts_of (d : db) (i : Interaction.t) : list Contact.t :=
  List.filter (fun c => Interaction.contact_id i =? Contact.id c) (contacts d).

Definition interaction_columns (i : Interaction.t) (it : InteractionType.t)
  : interaction_row :=
  mk_interaction_row (Interaction.id i) (Interaction.timestamp i)
    (Interaction.direction i) (Interaction.duration_seconds i)
    (Interaction.subject i) (Interaction.notes i) (InteractionType.type_name it).

Definition get_contact (id_param : string) (d : db) : response contact_details :=
  match Pg.int4in id_param with
  | None => Failure 500 "invalid input syntax for type integer"
  | Some contactId =>
      match List.filter (fun c => Contact.id c =? contactId) (contacts d) with
      | [] => NotFound
      | contact :: _ =>
          Success 200
            (mk_contact_details contact
               (order_by (fun a b => ir_timestamp b <=? ir_timestamp a)
                  (flat_map (fun i => map (interaction_columns i) (types_of d i))
                     (List.filter (fun i => Interaction.contact_id i =? contactId)
                                  (interactions d)))))
      end
  end.

(** *** GET /api/interactions/recent/:limit *)

Record recent_row := mk_recent_row {
  rr_id : Z;
  rr_timestamp : Z;
  rr_direction : option string;
  rr_duration_seconds : option Z;
  rr_subject : option string;
  rr_contact_name : string;
  rr_type_name : string
}.

Definition recent_columns (i : Interaction.t) (c : Contact.t) (it : InteractionType.t)
  : recent_row :=
  mk_recent_row (Interaction.id i) (Interaction.timestamp i)
    (Interaction.direction i) (Interaction.duration_seconds i)
    (Interaction.subject i) (Contact.name c) (InteractionType.type_name it).

(** The rows of the two joins, before ordering. *)
Definition recent_join (d : db) : list recent_row :=
  flat_map (fun i =>
              flat_map (fun c => map (recent_columns i c) (types_of d i))
                       (contacts_of d i))
           (interactions d).

(** [LIMIT $1] with [$1] the text of a JavaScript number, read as
    [BIGINT]. *)
Definition limit_count (limit : Js.number) : string + Z :=
  match limit with
  | Js.Fin z =>
      let v := Js.text_value z in
      if (v <=? Pg.INT8_MAX) && (- Pg.INT8_MAX - 1 <=? v)
      then if v <? 0 then inl "LIMIT must not be negative" else inr v
      else inl "value is out of range for type bigint"
  | _ => inl "invalid input syntax for type bigint"
  end.

Definition get_interactions_recent (limit_param : string) (d : db)
  : response (list recent_row) :=
  let limit :=
    let n := Js.parseInt limit_param in
    if Js.number_truthy n then n else Js.Fin 10 in
  reply 200
    match limit_count limit with
    | inl msg => inl msg
    | inr n =>
        inr (firstn (Z.to_nat n)
               (order_by (fun a b => rr_timestamp b <=? rr_timestamp a)
                         (recent_join d)))
    end.

(** *** GET /api/contacts/:id/stats

    The select list of this query is kept as syntax: PostgreSQL analyses a
    query before it runs it, and the analysis of aggregate calls decides
    what this handler answers. *)

Module Sql.

(** The columns of [contacts c LEFT JOIN interactions i] the query names. *)
Inductive column := c_name | i_id | i_direction | i_timestamp.

Inductive aggregate := COUNT | MAX | MIN | AVG.

Inductive expr :=
| Col (c : column)
| Int (z : Z)
| Text (s : string)
| Agg (f : aggregate) (arg : expr)
| CaseWhenEq (a b : expr) (result : expr)  (* CASE WHEN a = b THEN result END *)
| ExtractDay (e : expr)                     (* EXTRACT(DAY FROM e) *)
| Minus (a b : expr)
| Divide (a b : expr)
| NullIf (a b : expr)
| Round (e : expr).

Inductive val :=
| VNull
| VInt (z : Z)
| VText (s : string)
| VTimestamp (t : Z)
| VInterval (usecs : Z)
| VNumeric (q : Q).

Fixpoint has_aggregate (e : expr) : bool :=
  match e with
  | Col _ | Int _ | Text _ => false
  | Agg _ _ => true
  | CaseWhenEq a b r => has_aggregate a || has_aggregate b || has_aggregate r
  | ExtractDay a | Round a => has_aggregate a
  | Minus a b | Divide a b | NullIf a b => has_aggregate a || has_aggregate b
  end.

(** An aggregate call whose argument holds an aggregate call. *)
Fixpoint nested_aggregate (e : expr) : bool :=
  match e with
  | Col _ | Int _ | Text _ => false
  | Agg _ a => has_aggregate a
  | CaseWhenEq a b r => nested_aggregate a || nested_aggregate b || nested_aggregate r
  | ExtractDay a | Round a => nested_aggregate a
  | Minus a b | Divide a b | NullIf a b => nested_aggregate a || nested_aggregate b
  end.

Definition column_eqb (a b : column) : bool :=
  match a, b with
  | c_name, c_name | i_id, i_id | i_direction, i_direction
  | i_timestamp, i_timestamp => true
  | _, _ => false
  end.

(** A column outside every aggregate call that [GROUP BY] does not list. *)
Fixpoint ungrouped_column (group_by : list column) (e : expr) : bool :=
  match e with
  | Col c => negb (existsb (column_eqb c) group_by)
  | Int _ | Text _ | Agg _ _ => false
  | CaseWhenEq a b r =>
      ungrouped_column group_by a || ungrouped_column group_by b
      || ungrouped_column group_by r
  | ExtractDay a | Round a => ungrouped_column group_by a
  | Minus a b | Divide a b | NullIf a b =>
      ungrouped_column group_by a || ungrouped_column group_by b
  end.

(** The analysis of a grouped select list. *)
Definition analyse (group_by : list column) (select : list (string * expr))
  : string + unit :=
  if existsb (fun item => nested_aggregate (snd item)) select
  then inl "aggregate function calls cannot be nested"
  else if existsb (fun item => ungrouped_column group_by (snd item)) select
  then inl "column must appear in the GROUP BY clause or be used in an aggregate function"
  else inr tt.

(** **** Evaluation *)

Definition val_eqb (a b : val) : bool :=
  match a, b with
  | VInt x, VInt y => x =? y
  | VText x, VText y => String.eqb x y
  | VTimestamp x, VTimestamp y => x =? y
  | VInterval x, VInterval y => x =? y
  | VNumeric x, VNumeric y => Qeq_bool x y
  | VInt x, VNumeric y | VNumeric y, VInt x => Qeq_bool (inject_Z x) y
  | _, _ => false
  end.

Definition to_numeric (v : val) : option Q :=
  match v with
  | VInt z => Some (inject_Z z)
  | VNumeric q => Some q
  | _ => None
  end.

(** [ROUND] of a numeric: to the nearest integer, halves away from zero. *)
Definition round_half_away (q : Q) : Z :=
  let n := Qnum q in
  let d := Z.pos (Qden q) in
  Z.sgn n * ((2 * Z.abs n + d) / (2 * d)).

Definition minus (a b : val) : string + val :=
  match a, b with
  | VNull, _ | _, VNull => inr VNull
  | VTimestamp x, VTimestamp y => inr (VInterval (x - y))
  | VInt x, VInt y => inr (VInt (x - y))
  | _, _ =>
      match to_numeric a, to_numeric b with
      | Some x, Some y => inr (VNumeric (Qred (x - y)))
      | _, _ => inl "operator does not exist"
      end
  end.

Definition divide (a b : val) : string + val :=
  match a, b with
  | VNull, _ | _, VNull => inr VNull
  | VInt x, VInt y =>
      if y =? 0 then inl "division by zero" else inr (VInt (Z.quot x y))
  | _, _ =>
      match to_numeric a, to_numeric b with
      | Some x, Some y =>
          if Qeq_bool y 0 then inl "division by zero"
          else inr (VNumeric (Qred (x / y)))
      | _, _ => inl "operator does not exist"
      end
  end.

Definition extract_day (a : val) : string + val :=
  match a with
  | VNull => inr VNull
  | VInterval usecs => inr (VNumeric (inject_Z (Z.quot usecs Pg.USECS_PER_DAY)))
  | _ => inl "function extract does not exist"
  end.

Definition round (a : val) : string + val :=
  match a with
  | VNull => inr VNull
  | VInt z => inr (VInt z)
  | VNumeric q => inr (VNumeric (inject_Z (round_half_away q)))
  | _ => inl "function round does not exist"
  end.

Definition lift2 (f : val -> val -> string + val) (a b : string + val)
  : string + val :=
  match a, b with
  | inl msg, _ => inl msg
  | _, inl msg => inl msg
  | inr x, inr y => f x y
  end.

Definition lift1 (f : val -> string + val) (a : string + val) : string + val :=
  match a with
  | inl msg => inl msg
  | inr x => f x
  end.

(** An expression over the values of the columns, with aggregate calls
    handed to [agg]. *)
Fixpoint eval (agg : aggregate -> expr -> string + val) (col : column -> val)
    (e : expr) : string + val :=
  match e with
  | Col c => inr (col c)
  | Int z => inr (VInt z)
  | Text s => inr (VText s)
  | Agg f a => agg f a
  | CaseWhenEq a b r =>
      lift2 (fun x y => if val_eqb x y then eval agg col r else inr VNull)
            (eval agg col a) (eval agg col b)
  | ExtractDay a => lift1 extract_day (eval agg col a)
  | Minus a b => lift2 minus (eval agg col a) (eval agg col b)
  | Divide a b => lift2 divide (eval agg col a) (eval agg col b)
  | NullIf a b =>
      lift2 (fun x y => inr (if val_eqb x y then VNull else x))
            (eval agg col a) (eval agg col b)
  | Round a => lift1 round (eval agg col a)
  end.

End Sql.

(** A row of [contacts c LEFT JOIN interactions i ON c.id = i.contact_id]. *)
Definition joined : Type := Contact.t * option Interaction.t.

Definition column_value (r : joined) (c : Sql.column) : Sql.val :=
  match c, snd r with
  | Sql.c_name, _ => Sql.VText (Contact.name (fst r))
  | _, None => Sql.VNull
  | Sql.i_id, Some i => Sql.VInt (Interaction.id i)
  | Sql.i_direction, Some i =>
      match Interaction.direction i with
      | Some s => Sql.VText s
      | None => Sql.VNull
      end
  | Sql.i_timestamp, Some i => Sql.VTimestamp (Interaction.timestamp i)
  end.

Definition is_null (v : Sql.val) : bool :=
  match v with
  | Sql.VNull => true
  | _ => false
  end.

(** The order [MAX] and [MIN] use, on the kinds of value they meet here. *)
Definition val_leb (a b : Sql.val) : bool :=
  match a, b with
  | Sql.VInt x, Sql.VInt y => x <=? y
  | Sql.VTimestamp x, Sql.VTimestamp y => x <=? y
  | Sql.VInterval x, Sql.VInterval y => x <=? y
  | Sql.VNumeric x, Sql.VNumeric y => Qle_bool x y
  | _, _ => true
  end.

Definition sum_numeric (vs : list Sql.val) : option Q :=
  fold_right (fun v acc =>
                match Sql.to_numeric v, acc with
                | Some q, Some s => Some (Qred (q + s))
                | _, _ => None
                end) (Some 0%Q) vs.

(** An aggregate over the values of its argument on the rows of a group;
    nulls do not count. *)
Definition aggregate_values (f : Sql.aggregate) (vs : list Sql.val) : string + Sql.val :=
  let present := List.filter (fun v => negb (is_null v)) vs in
  match f, present with
  | Sql.COUNT, _ => inr (Sql.VInt (Z.of_nat (length present)))
  | _, [] => inr Sql.VNull
  | Sql.MAX, v :: rest =>
      inr (fold_left (fun m x => if val_leb m x then x else m) rest v)
  | Sql.MIN, v :: rest =>
      inr (fold_left (fun m x => if val_leb x m then x else m) rest v)
  | Sql.AVG, _ =>
      match sum_numeric present with
      | Some s => inr (Sql.VNumeric (Qred (s / inject_Z (Z.of_nat (length present)))))
      | None => inl "function avg does not exist"
      end
  end.

Fixpoint sequence {A} (l : list (string + A)) : string + list A :=
  match l with
  | [] => inr []
  | inl msg :: _ => inl msg
  | inr a :: rest =>
      match sequence rest with
      | inl msg => inl msg
      | inr l' => inr (a :: l')
      end
  end.

(** An expression without aggregate calls on one row. *)
Definition eval_row (e : Sql.expr) (r : joined) : string + Sql.val :=
  Sql.eval (fun _ _ => inl "aggregate function calls cannot be nested")
           (column_value r) e.

(** A select-list expression on a group of rows. *)
Definition eval_group (rows : list joined) (e : Sql.expr) : string + Sql.val :=
  Sql.eval (fun f arg =>
              match sequence (map (eval_row arg) rows) with
              | inl msg => inl msg
              | inr vs => aggregate_values f vs
              end)
           (fun c => match rows with
                     | r :: _ => column_value r c
                     | [] => Sql.VNull
                     end)
           e.

Definition stats_select : list (string * Sql.expr) :=
  [ ("name", Sql.Col Sql.c_name);
    ("total_interactions", Sql.Agg Sql.COUNT (Sql.Col Sql.i_id));
    ("outgoing_count",
      Sql.Agg Sql.COUNT
        (Sql.CaseWhenEq (Sql.Col Sql.i_direction) (Sql.Text "outgoing") (Sql.Int 1)));
    ("incoming_count",
      Sql.Agg Sql.COUNT
        (Sql.CaseWhenEq (Sql.Col Sql.i_direction) (Sql.Text "incoming") (Sql.Int 1)));
    ("last_interaction", Sql.Agg Sql.MAX (Sql.Col Sql.i_timestamp));
    ("first_interaction", Sql.Agg Sql.MIN (Sql.Col Sql.i_timestamp));
    ("avg_days_between_interactions",
      Sql.Round
        (Sql.Agg Sql.AVG
           (Sql.Divide
              (Sql.ExtractDay
                 (Sql.Minus (Sql.Agg Sql.MAX (Sql.Col Sql.i_timestamp))
                            (Sql.Agg Sql.MIN (Sql.Col Sql.i_timestamp))))
              (Sql.NullIf (Sql.Minus (Sql.Agg Sql.COUNT (Sql.Col Sql.i_id)) (Sql.Int 1))
                          (Sql.Int 0))))) ].

(** [FROM contacts c LEFT JOIN interactions i ON c.id = i.contact_id
    WHERE c.id = $1] *)
Definition stats_from (contactId : Z) (d : db) : list joined :=
  flat_map (fun c =>
              match List.filter (fun i => Contact.id c =? Interaction.contact_id i)
                                (interactions d) with
              | [] => [(c, None)]
              | matches => map (fun i => (c, Some i)) matches
              end)
           (List.filter (fun c => Contact.id c =? contactId) (contacts d)).

(** [GROUP BY c.name]: one group for each name, in the order the names
    first come up. *)
Definition group_by_name (rows : list joined) : list (list joined) :=
  map (fun n => List.filter (fun r => String.eqb (Contact.name (fst r)) n) rows)
      (rev (nodup string_dec (rev (map (fun r => Contact.name (fst r)) rows)))).

(** The rows a grouped select list yields, one for each group. *)
Definition run_grouped (select : list (string * Sql.expr)) (rows : list joined)
  : string + list (list (string * Sql.val)) :=
  sequence
    (map (fun group =>
            sequence
              (map (fun item =>
                      match eval_group group (snd item) with
                      | inl msg => inl msg
                      | inr v => inr (fst item, v)
                      end) select))
         (group_by_name rows)).

(** The query is analysed when it is prepared, its parameter is converted
    when it is bound, and then it runs. *)
Definition get_contact_stats (id_param : string) (d : db)
  : response (list (string * Sql.val)) :=
  match Sql.analyse [Sql.c_name] stats_select with
  | inl msg => Failure 500 msg
  | inr _ =>
      match Pg.int4in id_param with
      | None => Failure 500 "invalid input syntax for type integer"
      | Some contactId =>
          match run_grouped stats_select (stats_from contactId d) with
          | inl msg => Failure 500 msg
          | inr [] => NotFound
          | inr (row :: _) => Success 200 row
          end
      end
  end.

(** ** schema.sql *)

Definition seeded_types : list (string * string) :=
  [ ("phone_call", "Voice call");
    ("facetime_audio", "FaceTime audio call");
    ("facetime_video", "FaceTime video call");
    ("sms", "Text message");
    ("imessage", "iMessage");
    ("email", "Email");
    ("calendar_meeting", "Calendar meeting") ].

Definition add_interaction_type (row : InteractionType.t) : tx unit :=
  fun d =>
    if mem (InteractionType.id row) (map InteractionType.id (interaction_types d))
    then (d, inl "duplicate key value violates unique constraint interaction_types_pkey")
    else (mk_db (contacts d) (interaction_types d ++ [row]) (interactions d)
                (contacts_id_seq d) (interaction_types_id_seq d)
                (interactions_id_seq d), inr tt).

(** One row of [INSERT INTO interaction_types (type_name, description)
    VALUES ... ON CONFLICT (type_name) DO NOTHING]: the default of [id] is
    drawn before the conflict is looked for. *)
Definition insert_type_on_conflict_do_nothing (row : string * string) : tx unit :=
  let* id := nextval_interaction_types in
  let* id := check (serial id) in
  let* type_name := check (varchar 50 (Some (fst row))) in
  let* type_name := check (not_null "type_name" type_name) in
  fun d =>
    if existsb (fun t => String.eqb (InteractionType.type_name t) type_name)
               (interaction_types d)
    then (d, inr tt)
    else add_interaction_type (InteractionType.mk id type_name (Some (snd row))) d.

Fixpoint for_each {A} (f : A -> tx unit) (l : list A) : tx unit :=
  match l with
  | [] => ret tt
  | a :: rest => let* _ := f a in for_each f rest
  end.

(** The whole script.  [CREATE TABLE IF NOT EXISTS] and [CREATE INDEX IF
    NOT EXISTS] leave existing tables as they are; the [INSERT] is one
    statement, so a row that fails undoes the rows before it. *)
Definition schema_sql : tx unit :=
  transaction (for_each insert_type_on_conflict_do_nothing seeded_types).

(** [n] runs of the script, with the outcome of each. *)
Fixpoint run_schema (n : nat) (d : db) : db * list (string + unit) :=
  match n with
  | O => (d, [])
  | S n' =>
      let '(d1, r) := schema_sql d in
      let '(d2, rs) := run_schema n' d1 in
      (d2, r :: rs)
  end.

(** ** The seed script: the derived column recomputed *)

Definition max_timestamp (l : list Interaction.t) : option Z :=
  fold_right (fun i m =>
                match m with
                | Some t => Some (Z.max (Interaction.timestamp i) t)
                | None => Some (Interaction.timestamp i)
                end) None l.

Definition interactions_of (contact_id : Z) (d : db) : list Interaction.t :=
  List.filter (fun i => Interaction.contact_id i =? contact_id) (interactions d).

(** [UPDATE contacts c SET last_interaction_date = (SELECT MAX(timestamp)
    FROM interactions WHERE contact_id = c.id), updated_at = NOW()] *)
Definition recompute_last_interaction_date (now : Z) : tx unit :=
  fun d =>
    (mk_db (map (fun c =>
                   Contact.mk (Contact.id c) (Contact.name c)
                     (Contact.phone_number c) (Contact.email c)
                     (Contact.relationship_type c)
                     (max_timestamp (interactions_of (Contact.id c) d))
                     (Contact.created_at c) (Some now))
                (contacts d))
           (interaction_types d) (interactions d)
           (contacts_id_seq d) (interaction_types_id_seq d)
           (interactions_id_seq d), inr tt).

(** ** Operations in sequence *)

(** One [POST /api/interactions] request: the time its transaction starts
    and its body. *)
Definition request : Type := Z * gmap string Js.value.

Fixpoint record_all (reqs : list request) (d : db) : db :=
  match reqs with
  | [] => d
  | (now, body) :: rest => record_all rest (fst (post_interactions now body d))
  end.

(** ** Properties of a database state *)

(** The derived column of every contact is the latest occurrence time
    among the contact's interactions, null when it has none. *)
Definition last_interaction_derived (d : db) : Prop :=
  forall c, In c (contacts d) ->
    Contact.last_interaction_date c = max_timestamp (interactions_of (Contact.id c) d).

(** No interaction occurred after [now]. *)
Definition none_after (now : Z) (d : db) : Prop :=
  forall i, In i (interactions d) -> Interaction.timestamp i <= now.

(** The clock readings of the requests never go back. *)
Fixpoint clock_monotone (now : Z) (reqs : list request) : Prop :=
  match reqs with
  | [] => True
  | (t, _) :: rest => now <= t /\ clock_monotone t rest
  end.

(** The last clock reading of a run of requests. *)
Fixpoint last_reading (now : Z) (reqs : list request) : Z :=
  match reqs with
  | [] => now
  | (t, _) :: rest => last_reading t rest
  end.

(** The optional fields of a body fit their columns: [direction] in 20
    characters, [duration_seconds] an [INTEGER], [subject] in 255
    characters (a field that is absent or falsy is stored as NULL). *)
Definition optional_fields_fit (body : gmap string Js.value) : Prop :=
  (exists v, varchar 20 (prepareValue (Js.or (Js.get body "direction") Js.Null)) = inr v)
  /\ (exists v, integer (prepareValue (Js.or (Js.get body "duration_seconds") Js.Null)) = inr v)
  /\ (exists v, varchar 255 (prepareValue (Js.or (Js.get body "subject") Js.Null)) = inr v).

(** Two rows are the same contact with the same name, phone, email,
    relationship and creation time; the derived column and the
    modification time may differ. *)
Definition same_identity (c c' : Contact.t) : Prop :=
  Contact.id c' = Contact.id c /\ Contact.name c' = Contact.name c
  /\ Contact.phone_number c' = Contact.phone_number c
  /\ Contact.email c' = Contact.email c
  /\ Contact.relationship_type c' = Contact.relationship_type c
  /\ Contact.created_at c' = Contact.created_at c.

(** The interaction type of a body is given and names a row of the
    catalog. *)
Definition known_type (body : gmap string Js.value) (d : db) : Prop :=
  Js.truthy (Js.get body "interaction_type") = true
  /\ exists t, In t (interaction_types d)
        /\ InteractionType.type_name t = Js.to_string (Js.get body "interaction_type").

(** The sequences of contacts and interactions are ahead of the keys in
    their tables and can hand out [n] more keys. *)
Definition room_for (n : Z) (d : db) : Prop :=
  Forall (fun c => Contact.id c <= contacts_id_seq d) (contacts d)
  /\ Forall (fun i => Interaction.id i <= interactions_id_seq d) (interactions d)
  /\ 0 <= contacts_id_seq d /\ contacts_id_seq d + n <= Pg.INT4_MAX
  /\ 0 <= interactions_id_seq d /\ interactions_id_seq d + n <= Pg.INT4_MAX.

(** Keys are unique, sequences are ahead of the keys they gave out, and
    every interaction refers to a contact and a type. *)
Record consistent (d : db) : Prop := {
  contacts_pkey : List.NoDup (map Contact.id (contacts d));
  contacts_below_seq : Forall (fun c => Contact.id c <= contacts_id_seq d) (contacts d);
  interaction_types_pkey : List.NoDup (map InteractionType.id (interaction_types d));
  interactions_below_seq :
    Forall (fun i => Interaction.id i <= interactions_id_seq d) (interactions d);
  interactions_contact_id_fkey :
    Forall (fun i => In (Interaction.contact_id i) (map Contact.id (contacts d)))
           (interactions d);
  interactions_interaction_type_id_fkey :
    Forall (fun i => In (Interaction.interaction_type_id i)
                        (map InteractionType.id (interaction_types d)))
           (interactions d)
}.

(** The tables of two states are the same. *)
Definition same_tables (a b : db) : Prop :=
  contacts a = contacts b /\ interaction_types a = interaction_types b
  /\ interactions a = interactions b.

(** [a] comes no later than [b] under [ASC NULLS FIRST]. *)
Definition nulls_first_le (a b : option Z) : Prop :=
  match a, b with
  | None, _ => True
  | Some _, None => False
  | Some x, Some y => x <= y
  end.

(** A contact is overdue at [cutoff]: never contacted, or last contacted
    before it. *)
Definition overdue_at (cutoff : Z) (c : Contact.t) : Prop :=
  Contact.last_interaction_date c = None
  \/ exists t, Contact.last_interaction_date c = Some t /\ t < cutoff.

(** [r] is the row of the recent-interactions feed for the interaction [i]:
    the interaction's own columns, the name of its contact and the name of
    its type. *)
Definition feed_row_of (d : db) (i : Interaction.t) (r : recent_row) : Prop :=
  rr_id r = Interaction.id i
  /\ rr_timestamp r = Interaction.timestamp i
  /\ rr_direction r = Interaction.direction i
  /\ rr_duration_seconds r = Interaction.duration_seconds i
  /\ rr_subject r = Interaction.subject i
  /\ (exists c, In c (contacts d) /\ Contact.id c = Interaction.contact_id i
                /\ rr_contact_name r = Contact.name c)
  /\ (exists t, In t (interaction_types d)
                /\ InteractionType.id t = Interaction.interaction_type_id i
                /\ rr_type_name r = InteractionType.type_name t).

(** The database after the schema script has run once on an empty one. *)
Definition seeded_db : db := fst (schema_sql empty_db).

(** ** Sample requests and states *)

(** The body the smoke test of the API posts, for a contact of any name. *)
Definition call_with (contact_name : string) : gmap string Js.value :=
  <["contact_name" := Js.Str contact_name]>
    (<["interaction_type" := Js.Str "phone_call"]>
       (<["direction" := Js.Str "outgoing"]>
          (<["duration_seconds" := Js.Num 300]> ∅))).

(** The same with a type the catalog does not have. *)
Definition pigeon_with (contact_name : string) : gmap string Js.value :=
  <["interaction_type" := Js.Str "carrier_pigeon"]> (call_with contact_name).

(** Alice called at the start of day 0 and of day 10, Bob on day 3. *)
Definition sample_db : db :=
  record_all [ (0, call_with "Alice");
               (3 * Pg.USECS_PER_DAY, call_with "Bob");
               (10 * Pg.USECS_PER_DAY, call_with "Alice") ] seeded_db.

(** [sample_db] with a contact inserted the way the seed script inserts
    one, and never contacted. *)
Definition sample_db_with_lisa : db :=
  fst (insert_contact 0 (Some "Lisa Tran") (Some "friend") (Some "555-0205") None
                      sample_db).

(** The argument of the [AVG] call in the last item of [stats_select]. *)
Definition avg_argument : Sql.expr :=
  match List.last (map snd stats_select) (Sql.Int 0) with
  | Sql.Round (Sql.Agg Sql.AVG arg) => arg
  | e => e
  end.

(** ** Further vocabulary for the handlers *)

(** [a] comes no later than [b] under [DESC NULLS LAST]. *)
Definition nulls_last_ge (a b : option Z) : Prop :=
  match a, b with
  | _, None => True
  | None, Some _ => False
  | Some x, Some y => y <= x
  end.

(** [r] is the row of the contact-details answer for the interaction [i]:
    the interaction's columns and the name of its type. *)
Definition detail_row_of (d : db) (i : Interaction.t) (r : interaction_row) : Prop :=
  ir_id r = Interaction.id i
  /\ ir_timestamp r = Interaction.timestamp i
  /\ ir_direction r = Interaction.direction i
  /\ ir_duration_seconds r = Interaction.duration_seconds i
  /\ ir_subject r = Interaction.subject i
  /\ ir_notes r = Interaction.notes i
  /\ (exists t, In t (interaction_types d)
                /\ InteractionType.id t = Interaction.interaction_type_id i
                /\ ir_type_name r = InteractionType.type_name t).

(** [r] has the six columns the contact queries select, with the values of
    the contact [c]. *)
Definition contact_row_of (c : Contact.t) (r : contact_row) : Prop :=
  cr_id r = Contact.id c
  /\ cr_name r = Contact.name c
  /\ cr_phone_number r = Contact.phone_number c
  /\ cr_email r = Contact.email c
  /\ cr_relationship_type r = Contact.relationship_type c
  /\ cr_last_interaction_date r = Contact.last_interaction_date c.

(** [r] is the row of the overdue list for the contact [c], read at
    [now]: the six columns, and as [days_since_contact] the whole days
    from the last interaction to [now], null for a contact never
    contacted. *)
Definition overdue_row_of (now : Z) (c : Contact.t) (r : overdue_row) : Prop :=
  contact_row_of c (od_contact r)
  /\ days_since_contact r
     = match Contact.last_interaction_date c with
       | None => None
       | Some t => Some (Z.quot (now - t) Pg.USECS_PER_DAY)
       end.

(** A contact without interactions has no last-interaction timestamp. *)
Definition never_contacted_is_null (d : db) : Prop :=
  forall c, In c (contacts d) ->
    interactions_of (Contact.id c) d = [] -> Contact.last_interaction_date c = None.

(** The constraints the schema declares on the three tables, with the
    sequences ahead of the keys they gave out: primary keys, the unique
    type name, and the two foreign keys of an interaction. *)
Record schema_constraints (d : db) : Prop := {
  keys_and_references : consistent d;
  interactions_pkey : List.NoDup (map Interaction.id (interactions d));
  interaction_types_below_seq :
    Forall (fun t => InteractionType.id t <= interaction_types_id_seq d)
           (interaction_types d);
  interaction_types_type_name_key :
    List.NoDup (map InteractionType.type_name (interaction_types d))
}.

(** Twelve calls with Alice, one a day from day 0 to day 11. *)
Definition busy_db : db :=
  record_all (map (fun k => (Z.of_nat k * Pg.USECS_PER_DAY, call_with "Alice")) (seq 0 12))
             seeded_db.

(** The overdue test read off a row of the answer. *)
Definition row_overdue (cutoff : Z) (r : overdue_row) : bool :=
  match od_last r with
  | None => true
  | Some t => t <? cutoff
  end.

(** What holds of every contact of a store that only the API has written:
    the contact was created by a request, so it has the relationship
    "unknown", no phone and no email, a last-interaction timestamp, and at
    least one interaction. *)
Definition made_by_the_api (d : db) : Prop :=
  forall c, In c (contacts d) ->
    Contact.relationship_type c = Some "unknown"
    /\ Contact.phone_number c = None
    /\ Contact.email c = None
    /\ Contact.last_interaction_date c <> None
    /\ exists i, In i (interactions d) /\ Interaction.contact_id i = Contact.id c.

(** [sample_db] with a second contact of the name Alice, inserted the way
    the seed script inserts contacts. *)
Definition sample_db_two_alices : db :=
  fst (insert_contact 0 (Some "Alice") (Some "friend") None None sample_db).

(** ** The API client of the tool server (apiClient.js) *)

Module ApiClient.

(** What [request] resolves to: [{ success: true, data }] or
    [{ success: false, error }]. *)
Inductive api_result (A : Type) :=
| ApiSuccess (data : A)
| ApiFailure (error : string).
Arguments ApiSuccess {A} data.
Arguments ApiFailure {A} error.

(** [request]: the HTTP library resolves for the statuses 200 and 201 the
    handlers succeed with and rejects for their error statuses; a rejected
    request is reported with the [error] field of the answer, or with the
    library's own message where that field is empty. *)
Definition request {A} (r : response A) : api_result A :=
  match r with
  | Success _ data => ApiSuccess data
  | Failure status error =>
      ApiFailure (if String.eqb error ""
                  then "Request failed with status code " ++ pretty status
                  else error)
  end.

(** The calls of the client, for the integers among the numbers the tools
    take as arguments: each builds its path with the decimal text of the
    number. *)
Definition getContacts (d : db) : api_result (list contact_row) :=
  request (get_contacts d).

Definition getContactDetails (contactId : Z) (d : db) : api_result contact_details :=
  request (get_contact (Js.to_string (Js.Num contactId)) d).

Definition getOverdueContacts (now : Z) (days : Z) (d : db)
  : api_result (list overdue_row) :=
  request (get_contacts_overdue now (Js.to_string (Js.Num days)) d).

Definition getRecentInteractions (limit : Z) (d : db) : api_result (list recent_row) :=
  request (get_interactions_recent (Js.to_string (Js.Num limit)) d).

Definition logInteraction (now : Z) (data : gmap string Js.value) (d : db)
  : db * api_result Interaction.t :=
  (fst (post_interactions now data d), request (snd (post_interactions now data d))).

Definition getContactStats (contactId : Z) (d : db)
  : api_result (list (string * Sql.val)) :=
  request (get_contact_stats (Js.to_string (Js.Num contactId)) d).

End ApiClient.

(** ** The seed script (scripts/seed-db.js) *)

(** [INSERT INTO contacts (name, relationship_type, phone_number, email)
    VALUES ($1, $2, $3, $4) ON CONFLICT DO NOTHING RETURNING id]: the only
    unique constraint of the table is its primary key, whose value comes
    from the sequence; where that value is taken, no row is inserted and
    none returned. *)
Definition insert_contact_on_conflict_do_nothing
    (now : Z) (name relationship_type phone_number email : option string) : tx (list Z) :=
  let* id := nextval_contacts in
  let* id := check (serial id) in
  let* name := check (varchar 255 name) in
  let* name := check (not_null "name" name) in
  let* phone_number := check (varchar 20 phone_number) in
  let* email := check (varchar 255 email) in
  let* relationship_type := check (varchar 50 relationship_type) in
  fun d =>
    if mem id (map Contact.id (contacts d)) then (d, inr [])
    else
      (let* _ := add_contact (Contact.mk id name phone_number email relationship_type
                                         None (Some now) (Some now)) in
       ret [id]) d.

Module Seed.

(** First and first excluded instant of the years 0001 to 9999, where
    [toISOString] writes a year of four digits. *)
Definition YEAR_1 : Z := -63082281600000000.
Definition YEAR_10000 : Z := 252455616000000000.

(** [daysAgo(n)]: the current date with [n] taken off its day of the
    month.  The process and the session are taken to run in UTC, where a
    calendar day is 24 hours. *)
Definition daysAgo (today n : Z) : Z := today - n * Pg.USECS_PER_DAY.

(** The ISO string of a date as a [TIMESTAMP] parameter. *)
Definition timestamp_in (t : Z) : string + Z :=
  if (YEAR_1 <=? t) && (t <? YEAR_10000) then inr t
  else inl "invalid input syntax for type timestamp".

(** An object literal. *)
Definition object (fields : list (string * Js.value)) : gmap string Js.value :=
  list_to_map fields.

Definition contacts : list (gmap string Js.value) :=
  [ object [("name", Js.Str "Mom"); ("relationship_type", Js.Str "family");
            ("phone", Js.Str "555-0101")];
    object [("name", Js.Str "Dad"); ("relationship_type", Js.Str "family");
            ("phone", Js.Str "555-0102")];
    object [("name", Js.Str "Jake Sullivan"); ("relationship_type", Js.Str "friend");
            ("phone", Js.Str "555-0201")];
    object [("name", Js.Str "Priya Nair"); ("relationship_type", Js.Str "friend");
            ("phone", Js.Str "555-0202")];
    object [("name", Js.Str "Tom Reyes"); ("relationship_type", Js.Str "friend");
            ("phone", Js.Str "555-0203")];
    object [("name", Js.Str "Sarah Chen"); ("relationship_type", Js.Str "colleague");
            ("email", Js.Str "sarah.chen@work.com")];
    object [("name", Js.Str "Marcus Webb"); ("relationship_type", Js.Str "colleague");
            ("email", Js.Str "marcus@work.com")];
    object [("name", Js.Str "Dana Park"); ("relationship_type", Js.Str "friend");
            ("phone", Js.Str "555-0204")];
    object [("name", Js.Str "Uncle Rob"); ("relationship_type", Js.Str "family");
            ("phone", Js.Str "555-0103")];
    object [("name", Js.Str "Lisa Tran"); ("relationship_type", Js.Str "friend");
            ("phone", Js.Str "555-0205")] ].

(** [[contact_index, type, direction, days_ago, duration_seconds]] *)
Definition interaction : Type := nat * string * string * Z * Js.value.

Definition interactions : list interaction :=
  [ (0%nat, "phone_call", "incoming", 3, Js.Num 900);
    (0%nat, "phone_call", "outgoing", 10, Js.Num 1200);
    (0%nat, "imessage", "incoming", 12, Js.Null);
    (0%nat, "phone_call", "outgoing", 24, Js.Num 600);
    (1%nat, "phone_call", "outgoing", 8, Js.Num 480);
    (1%nat, "facetime_video", "outgoing", 35, Js.Num 1800);
    (1%nat, "phone_call", "incoming", 62, Js.Num 300);
    (2%nat, "phone_call", "outgoing", 2, Js.Num 1500);
    (2%nat, "sms", "outgoing", 5, Js.Null);
    (2%nat, "phone_call", "incoming", 15, Js.Num 900);
    (2%nat, "phone_call", "outgoing", 45, Js.Num 600);
    (3%nat, "imessage", "incoming", 18, Js.Null);
    (3%nat, "phone_call", "outgoing", 32, Js.Num 750);
    (3%nat, "calendar_meeting", "outgoing", 55, Js.Num 3600);
    (4%nat, "phone_call", "outgoing", 47, Js.Num 420);
    (4%nat, "sms", "incoming", 60, Js.Null);
    (4%nat, "phone_call", "incoming", 90, Js.Num 900);
    (5%nat, "email", "outgoing", 5, Js.Null);
    (5%nat, "calendar_meeting", "outgoing", 12, Js.Num 3600);
    (5%nat, "email", "incoming", 20, Js.Null);
    (6%nat, "email", "incoming", 38, Js.Null);
    (6%nat, "calendar_meeting", "outgoing", 50, Js.Num 5400);
    (7%nat, "phone_call", "incoming", 55, Js.Num 600);
    (7%nat, "imessage", "outgoing", 70, Js.Null);
    (8%nat, "phone_call", "outgoing", 80, Js.Num 1200);
    (8%nat, "phone_call", "outgoing", 120, Js.Num 900) ].

(** [SELECT id, type_name FROM interaction_types] *)
Definition select_types : tx (list (Z * string)) :=
  fun d =>
    (d, inr (map (fun t => (InteractionType.id t, InteractionType.type_name t))
                 (interaction_types d))).

(** [typeMap[row.type_name] = row.id] for each row. *)
Definition typeMap (rows : list (Z * string)) : gmap string Z :=
  fold_left (fun m row => <[snd row := fst row]> m) rows ∅.

(** The loop over [contacts]; [clock k] is the time of the [k]-th
    statement that writes. *)
Fixpoint insert_contacts (clock : nat -> Z) (k : nat) (cs : list (gmap string Js.value))
    (contactIds : list Z) : tx (list Z) :=
  match cs with
  | [] => ret contactIds
  | c :: rest =>
      let* rows :=
        insert_contact_on_conflict_do_nothing (clock k)
          (prepareValue (Js.get c "name"))
          (prepareValue (Js.get c "relationship_type"))
          (prepareValue (Js.or (Js.get c "phone") Js.Null))
          (prepareValue (Js.or (Js.get c "email") Js.Null)) in
      match rows with
      | id :: _ => insert_contacts clock (S k) rest (contactIds ++ [id])
      | [] =>
          let* existing := select_contact_id_by_name (prepareValue (Js.get c "name")) in
          match existing with
          | id :: _ => insert_contacts clock (S k) rest (contactIds ++ [id])
          | [] => throw "Cannot read properties of undefined (reading 'id')"
          end
      end
  end.

(** [INSERT INTO interactions (contact_id, interaction_type_id, direction,
    timestamp, duration_seconds) VALUES ($1, $2, $3, $4, $5)]; an
    [undefined] parameter is sent as NULL. *)
Definition insert_seed_interaction (now : Z) (contactId typeId : option Z)
    (direction : option string) (ts : Z) (duration : option string) : tx Interaction.t :=
  let* timestamp := check (timestamp_in ts) in
  match contactId, typeId with
  | Some contact_id, Some interaction_type_id =>
      insert_interaction now contact_id interaction_type_id direction timestamp
                         duration None
  | None, _ =>
      let* _ := nextval_interactions in
      throw "null value in column contact_id violates not-null constraint"
  | Some _, None =>
      let* _ := nextval_interactions in
      throw "null value in column interaction_type_id violates not-null constraint"
  end.

(** The loop over [interactions]; [today k] is the date [daysAgo] reads
    for the [k]-th row. *)
Fixpoint insert_interactions (clock today : nat -> Z) (k : nat)
    (types : gmap string Z) (contactIds : list Z) (rows : list interaction) : tx unit :=
  match rows with
  | [] => ret tt
  | (ci, type, direction, days, duration) :: rest =>
      let contactId := contactIds !! ci in
      let typeId := types !! type in
      let ts := daysAgo (today k) days in
      let* _ :=
        insert_seed_interaction (clock (length contacts + k)%nat) contactId typeId
          (prepareValue (Js.Str direction)) ts
          (prepareValue (Js.or duration Js.Null)) in
      insert_interactions clock today (S k) types contactIds rest
  end.

(** [seed], through its last statement that writes; the summary it prints
    afterwards only reads.  Each statement is a transaction of its own, so
    an error leaves what the statements before it wrote. *)
Definition seed (clock today : nat -> Z) : tx unit :=
  let* typesResult := select_types in
  let types := typeMap typesResult in
  let* contactIds := insert_contacts clock 0 contacts [] in
  let* _ := insert_interactions clock today 0 types contactIds interactions in
  recompute_last_interaction_date (clock (length contacts + length interactions)%nat).

End Seed.

(** The rows of the seed script fit the columns they go to; an
    interaction names a contact of the list and lies at most 120 days
    back. *)
Definition seed_contact_fits (c : gmap string Js.value) : bool :=
  match prepareValue (Js.get c "name") with
  | Some name => (String.length name <=? 255)%nat
  | None => false
  end
  && match prepareValue (Js.get c "relationship_type") with
     | Some r => (String.length r <=? 50)%nat
     | None => true
     end
  && match prepareValue (Js.or (Js.get c "phone") Js.Null) with
     | Some p => (String.length p <=? 20)%nat
     | None => true
     end
  && match prepareValue (Js.or (Js.get c "email") Js.Null) with
     | Some e => (String.length e <=? 255)%nat
     | None => true
     end.

Definition seed_interaction_fits (contactIds : nat) (row : Seed.interaction) : bool :=
  let '(ci, type, direction, days, duration) := row in
  (ci <? contactIds)%nat
  && (String.length direction <=? 20)%nat
  && match integer (prepareValue (Js.or duration Js.Null)) with
     | inr _ => true
     | inl _ => false
     end
  && (0 <=? days) && (days <=? 120).

(** Every date the script reads and computes lies in the years 0001 to
    9999. *)
Definition seed_dates_in_range (today : nat -> Z) : Prop :=
  forall k, Seed.YEAR_1 + 120 * Pg.USECS_PER_DAY <= today k < Seed.YEAR_10000.

(** The names of the contacts of the script, in its order. *)
Definition seed_names : list string :=
  [ "Mom"; "Dad"; "Jake Sullivan"; "Priya Nair"; "Tom Reyes"; "Sarah Chen";
    "Marcus Webb"; "Dana Park"; "Uncle Rob"; "Lisa Tran" ].

(** The catalog has a type of every name the script uses. *)
Definition seed_types_known (d : db) : Prop :=
  forall row, In row Seed.interactions ->
    exists t, In t (interaction_types d)
              /\ InteractionType.type_name t = snd (fst (fst (fst row))).

(** * Properties *)

Arguments varchar : simpl never.
Arguments integer : simpl never.
Arguments mem : simpl never.
Arguments Pg.in_int4 : simpl never.
Arguments Pg.int4in : simpl never.

(** ** Ordering *)

Section SortFacts.
Context {A : Type} (leb : A -> A -> bool).
Hypothesis leb_total : forall x y, leb x y = false -> leb y x = true.
Hypothesis leb_trans : forall x y z, leb x y = true -> leb y z = true -> leb x z = true.

Lemma insert_sorted_perm (x : A) (l : list A) :
  Permutation (insert_sorted leb x l) (x :: l).
Proof.
  induction l as [|y l IH]; simpl.
  - reflexivity.
  - destruct (leb x y).
    + reflexivity.
    + rewrite IH. apply perm_swap.
Qed.

Lemma order_by_perm (l : list A) : Permutation (order_by leb l) l.
Proof.
  induction l as [|x l IH]; simpl.
  - constructor.
  - rewrite insert_sorted_perm. now constructor.
Qed.

Lemma insert_sorted_sorted (x : A) (l : list A) :
  StronglySorted (fun a b => leb a b = true) l ->
  StronglySorted (fun a b => leb a b = true) (insert_sorted leb x l).
Proof using leb_total leb_trans.
  induction 1 as [|y l Hs IH Hy]; simpl.
  - repeat constructor.
  - destruct (leb x y) eqn:E.
    + constructor.
      * now constructor.
      * constructor; [exact E|].
        eapply List.Forall_impl; [|exact Hy]. intros z Hz. eauto.
    + constructor; [exact IH|].
      eapply Permutation_Forall.
      * symmetry. apply insert_sorted_perm.
      * constructor; [now apply leb_total | exact Hy].
Qed.

Lemma order_by_sorted (l : list A) :
  StronglySorted (fun a b => leb a b = true) (order_by leb l).
Proof using leb_total leb_trans.
  induction l as [|x l IH]; simpl.
  - constructor.
  - now apply insert_sorted_sorted.
Qed.
End SortFacts.

Lemma order_by_length {A} (leb : A -> A -> bool) (l : list A) :
  length (order_by leb l) = length l.
Proof. apply Permutation_length, order_by_perm. Qed.

Lemma order_by_In {A} (leb : A -> A -> bool) (l : list A) (x : A) :
  In x (order_by leb l) <-> In x l.
Proof.
  split; apply Permutation_in; [|symmetry]; apply order_by_perm.
Qed.

(** The first [n] rows of a sorted list come before the rest. *)
Lemma firstn_skipn_sorted {A} (R : A -> A -> Prop) (n : nat) (l : list A) :
  StronglySorted R l ->
  forall a b, In a (firstn n l) -> In b (skipn n l) -> R a b.
Proof.
  intros Hs. revert n. induction Hs as [|x l Hs IH Hx]; intros n a b Ha Hb.
  - destruct n; simpl in Ha; contradiction.
  - destruct n as [|n]; simpl in Ha, Hb; [contradiction|].
    destruct Ha as [<-|Ha].
    + rewrite List.Forall_forall in Hx. apply Hx.
      rewrite <- (firstn_skipn n l). apply in_or_app. now right.
    + eauto.
Qed.

Lemma firstn_sorted {A} (R : A -> A -> Prop) (n : nat) (l : list A) :
  StronglySorted R l -> StronglySorted R (firstn n l).
Proof.
  intros Hs. revert n. induction Hs as [|x l Hs IH Hx]; intros [|n]; simpl;
    try constructor.
  - apply IH.
  - rewrite List.Forall_forall in *. intros y Hy. apply Hx.
    rewrite <- (firstn_skipn n l). apply in_or_app. now left.
Qed.

(** ** Recording an interaction: the two ways the handler ends *)

Lemma same_tables_refl (d : db) : same_tables d d.
Proof. repeat split. Qed.

Lemma same_tables_rollback (d d1 : db) : same_tables (rollback d d1) d.
Proof. repeat split. Qed.

Ltac case_match_goal :=
  match goal with
  | |- context [match ?x with _ => _ end] =>
      lazymatch x with
      | context [match _ with _ => _ end] => fail
      | _ => destruct x eqn:?
      end
  end.

Ltac run_statement :=
  repeat (simpl; try case_match_goal); simpl.

Lemma bind_inl {A B} (m : tx A) (k : A -> tx B) (d d1 : db) (msg : string) :
  m d = (d1, inl msg) -> bind m k d = (d1, inl msg).
Proof. unfold bind. now intros ->. Qed.

Lemma bind_inr {A B} (m : tx A) (k : A -> tx B) (d d1 : db) (a : A) :
  m d = (d1, inr a) -> bind m k d = k a d1.
Proof. unfold bind. now intros ->. Qed.

(** What a statement leaves of the tables when it fails, and what it
    adds when it succeeds. *)
Lemma insert_contact_cases (now : Z) (name rel phone email : option string) (d : db) :
  match insert_contact now name rel phone email d with
  | (d1, inl _) => same_tables d1 d /\ interactions_id_seq d1 = interactions_id_seq d
  | (d1, inr id) =>
      exists name' rel' phone' email',
        varchar 255 name = inr (Some name') /\ varchar 50 rel = inr rel'
        /\ varchar 20 phone = inr phone' /\ varchar 255 email = inr email'
        /\ id = contacts_id_seq d + 1
        /\ Pg.in_int4 id = true
        /\ mem id (map Contact.id (contacts d)) = false
        /\ d1 = mk_db (contacts d ++ [Contact.mk id name' phone' email' rel' None
                                                  (Some now) (Some now)])
                      (interaction_types d) (interactions d)
                      id (interaction_types_id_seq d) (interactions_id_seq d)
  end.
Proof.
  unfold insert_contact, bind, check, nextval_contacts, add_contact, ret, serial,
    not_null.
  run_statement; try (split; [repeat split|reflexivity]).
  repeat eexists; eauto.
Qed.

Lemma insert_interaction_cases (now contact_id type_id : Z) (direction : option string)
    (timestamp : Z) (duration subject : option string) (d : db) :
  match insert_interaction now contact_id type_id direction timestamp duration subject d with
  | (d1, inl _) => same_tables d1 d /\ contacts_id_seq d1 = contacts_id_seq d
  | (d1, inr i) =>
      exists direction' duration' subject',
        varchar 20 direction = inr direction' /\ integer duration = inr duration'
        /\ varchar 255 subject = inr subject'
        /\ i = Interaction.mk (interactions_id_seq d + 1) contact_id type_id direction'
                              timestamp duration' subject' None (Some now)
        /\ Pg.in_int4 (interactions_id_seq d + 1) = true
        /\ mem (interactions_id_seq d + 1) (map Interaction.id (interactions d)) = false
        /\ d1 = mk_db (contacts d) (interaction_types d) (interactions d ++ [i])
                      (contacts_id_seq d) (interaction_types_id_seq d)
                      (interactions_id_seq d + 1)
  end.
Proof.
  unfold insert_interaction, bind, check, nextval_interactions, add_interaction, ret,
    serial.
  run_statement; try (split; [repeat split|reflexivity]).
  repeat eexists; eauto.
Qed.

Lemma get_or_create_contact_cases (now : Z) (contact_name : Js.value) (d : db) :
  match get_or_create_contact now contact_name d with
  | (d1, inl _) => same_tables d1 d /\ interactions_id_seq d1 = interactions_id_seq d
  | (d1, inr id) =>
      (d1 = d
       /\ exists rest,
            map Contact.id
              (List.filter (fun c => option_eqb (prepareValue contact_name) (Contact.name c))
                           (contacts d)) = id :: rest)
      \/ (List.filter (fun c => option_eqb (prepareValue contact_name) (Contact.name c))
                      (contacts d) = []
          /\ exists name,
               varchar 255 (prepareValue contact_name) = inr (Some name)
               /\ id = contacts_id_seq d + 1
               /\ Pg.in_int4 id = true
               /\ mem id (map Contact.id (contacts d)) = false
               /\ d1 = mk_db (contacts d ++ [Contact.mk id name None None (Some "unknown")
                                                         None (Some now) (Some now)])
                             (interaction_types d) (interactions d)
                             id (interaction_types_id_seq d) (interactions_id_seq d))
  end.
Proof.
  unfold get_or_create_contact, bind, select_contact_id_by_name.
  destruct (List.filter _ (contacts d)) as [|c rest] eqn:Hsel; simpl.
  - pose proof (insert_contact_cases now (prepareValue contact_name)
                  (Some "unknown") None None d) as H.
    destruct (insert_contact _ _ _ _ _ d) as [d1 [msg|id]]; [exact H|].
    destruct H as (name & rel & phone & email & Hn & Hr & Hp & He & H).
    vm_compute in Hr, Hp, He. inversion Hr; inversion Hp; inversion He; subst rel phone email.
    right. split; [reflexivity|]. exists name. tauto.
  - left. split; [reflexivity|]. now exists (map Contact.id rest).
Qed.

Lemma look_up_interaction_type_cases (interaction_type : Js.value) (d : db) :
  match look_up_interaction_type interaction_type d with
  | (d1, inl msg) =>
      d1 = d
      /\ List.filter (fun t => option_eqb (prepareValue interaction_type)
                                          (InteractionType.type_name t))
                     (interaction_types d) = []
      /\ @Failure Interaction.t 500 msg = UnknownInteractionType interaction_type
  | (d1, inr id) =>
      d1 = d
      /\ exists t, In t (interaction_types d) /\ InteractionType.id t = id
                   /\ prepareValue interaction_type = Some (InteractionType.type_name t)
  end.
Proof.
  unfold look_up_interaction_type, bind, select_type_id_by_name.
  destruct (List.filter _ (interaction_types d)) as [|t rest] eqn:Hsel; simpl.
  - repeat split.
  - split; [reflexivity|]. exists t.
    assert (Hin : In t (List.filter
                          (fun t => option_eqb (prepareValue interaction_type)
                                               (InteractionType.type_name t))
                          (interaction_types d))) by (rewrite Hsel; now left).
    apply filter_In in Hin. destruct Hin as [Hin Heq].
    repeat split; [exact Hin|].
    unfold option_eqb in Heq. destruct (prepareValue interaction_type); [|discriminate].
    apply String.eqb_eq in Heq. now subst.
Qed.

(** Either the request is refused and the tables are what they were, or
    one interaction stamped [now] is appended for a contact that was found
    by name or is appended too, and that contact's derived columns are set
    to [now]. *)
Lemma post_interactions_cases (now : Z) (body : gmap string Js.value) (d : db) :
  (same_tables (fst (post_interactions now body d)) d
   /\ exists status msg, snd (post_interactions now body d) = Failure status msg)
  \/ (exists i created,
        snd (post_interactions now body d) = Success 201 i
        /\ Interaction.timestamp i = now
        /\ Interaction.id i = interactions_id_seq d + 1
        /\ mem (Interaction.id i) (map Interaction.id (interactions d)) = false
        /\ ((created = []
             /\ exists rest,
                  map Contact.id
                    (List.filter
                       (fun c => option_eqb (prepareValue (Js.get body "contact_name"))
                                            (Contact.name c))
                       (contacts d)) = Interaction.contact_id i :: rest)
            \/ (List.filter
                  (fun c => option_eqb (prepareValue (Js.get body "contact_name"))
                                       (Contact.name c))
                  (contacts d) = []
                /\ exists name,
                     varchar 255 (prepareValue (Js.get body "contact_name")) = inr (Some name)
                     /\ Interaction.contact_id i = contacts_id_seq d + 1
                     /\ mem (Interaction.contact_id i) (map Contact.id (contacts d)) = false
                     /\ created = [Contact.mk (Interaction.contact_id i) name None None
                                              (Some "unknown") None (Some now) (Some now)]))
        /\ (exists t, In t (interaction_types d)
                      /\ InteractionType.id t = Interaction.interaction_type_id i
                      /\ prepareValue (Js.get body "interaction_type")
                         = Some (InteractionType.type_name t))
        /\ contacts (fst (post_interactions now body d))
           = map (set_last_interaction_date now (Interaction.contact_id i))
                 (contacts d ++ created)%list
        /\ interaction_types (fst (post_interactions now body d)) = interaction_types d
        /\ interactions (fst (post_interactions now body d)) = (interactions d ++ [i])%list
        /\ contacts_id_seq (fst (post_interactions now body d))
           = contacts_id_seq d + Z.of_nat (length created)
        /\ interactions_id_seq (fst (post_interactions now body d))
           = interactions_id_seq d + 1).
Proof.
  unfold post_interactions.
  destruct (negb _ || negb _) eqn:Hreq.
  { left. split; [apply same_tables_refl | eauto]. }
  unfold respond, transaction.
  pose proof (get_or_create_contact_cases now (Js.get body "contact_name") d) as H1.
  destruct (get_or_create_contact now _ d) as [d1 [msg|cid]] eqn:E1.
  { rewrite (bind_inl _ _ _ _ _ E1). simpl. left.
    split; [apply same_tables_rollback | eauto]. }
  rewrite (bind_inr _ _ _ _ _ E1).
  pose proof (look_up_interaction_type_cases (Js.get body "interaction_type") d1) as H2.
  destruct (look_up_interaction_type _ d1) as [d2 [msg|tid]] eqn:E2.
  { rewrite (bind_inl _ _ _ _ _ E2). simpl. left.
    split; [apply same_tables_rollback | eauto]. }
  rewrite (bind_inr _ _ _ _ _ E2).
  destruct H2 as [-> (t & Ht & Htid & Hty)].
  match goal with
  | |- context [bind (insert_interaction ?a ?b ?c ?e ?f ?g ?h) _ d1] =>
      pose proof (insert_interaction_cases a b c e f g h d1) as H3;
      destruct (insert_interaction a b c e f g h d1) as [d3 [msg|i]] eqn:E3
  end.
  { rewrite (bind_inl _ _ _ _ _ E3). simpl. left.
    split; [apply same_tables_rollback | eauto]. }
  rewrite (bind_inr _ _ _ _ _ E3).
  destruct H3 as (dir & dur & subj & _ & _ & _ & Hi & _ & Hfresh & ->).
  unfold bind, touch_contact, ret. simpl.
  right.
  destruct H1 as [[-> [rest Hsel]] | [Hsel (name & Hname & Hcid & Hint & Hmem & ->)]].
  - exists i, []. subst i. simpl. rewrite app_nil_r.
    repeat split; try reflexivity; try assumption; try lia.
    + left. split; [reflexivity|]. now exists rest.
    + exists t. auto.
  - exists i, [Contact.mk cid name None None (Some "unknown") None (Some now) (Some now)].
    subst i. simpl in *.
    repeat split; try reflexivity; try assumption; try lia.
    + right. split; [assumption|]. exists name. auto.
    + exists t. auto.
Qed.

(** ** The derived last-interaction column *)

Lemma max_timestamp_snoc (l : list Interaction.t) (i : Interaction.t) :
  (forall j, In j l -> Interaction.timestamp j <= Interaction.timestamp i) ->
  max_timestamp (l ++ [i]) = Some (Interaction.timestamp i).
Proof.
  induction l as [|x l IH]; intros Hle; simpl.
  - reflexivity.
  - rewrite IH by (intros j Hj; apply Hle; now right).
    f_equal. apply Z.max_r. apply Hle. now left.
Qed.

Lemma interactions_of_snoc (cid : Z) (d d' : db) (i : Interaction.t) :
  interactions d' = (interactions d ++ [i])%list ->
  interactions_of cid d'
  = (interactions_of cid d
     ++ if Interaction.contact_id i =? cid then [i] else [])%list.
Proof.
  unfold interactions_of. intros ->. rewrite List.filter_app. simpl.
  now destruct (Interaction.contact_id i =? cid).
Qed.

Lemma set_last_interaction_date_id (now cid : Z) (c : Contact.t) :
  Contact.id (set_last_interaction_date now cid c) = Contact.id c.
Proof. unfold set_last_interaction_date. now destruct (Contact.id c =? cid). Qed.

Lemma derived_same_tables (d d' : db) :
  same_tables d' d -> last_interaction_derived d -> last_interaction_derived d'.
Proof.
  intros (Hc & _ & Hi) H c Hin. unfold interactions_of. rewrite Hi.
  apply H. now rewrite <- Hc.
Qed.

Lemma none_after_same_tables (now : Z) (d d' : db) :
  same_tables d' d -> none_after now d -> none_after now d'.
Proof. intros (_ & _ & Hi) H i Hin. apply H. now rewrite <- Hi. Qed.

Lemma none_after_later (now later : Z) (d : db) :
  now <= later -> none_after now d -> none_after later d.
Proof. intros Hle H i Hin. specialize (H i Hin). lia. Qed.

(** One request keeps the derived column right, provided nothing in the
    store is dated after the request's clock reading. *)
Lemma post_interactions_keeps_derived (now : Z) (body : gmap string Js.value) (d : db) :
  last_interaction_derived d -> none_after now d ->
  last_interaction_derived (fst (post_interactions now body d))
  /\ none_after now (fst (post_interactions now body d)).
Proof.
  intros Hder Hnone.
  destruct (post_interactions_cases now body d)
    as [[Hsame _] | (i & created & _ & Hts & _ & _ & Hcreated & _ & Hc & _ & Hi & _)].
  - split; [eapply derived_same_tables | eapply none_after_same_tables]; eauto.
  - split.
    + intros c' Hin. rewrite Hc in Hin. apply in_map_iff in Hin.
      destruct Hin as (c & <- & Hin).
      rewrite set_last_interaction_date_id.
      rewrite (interactions_of_snoc _ d _ i Hi).
      unfold set_last_interaction_date.
      rewrite (Z.eqb_sym (Interaction.contact_id i)).
      destruct (Contact.id c =? Interaction.contact_id i) eqn:E; simpl.
      * rewrite max_timestamp_snoc; [now rewrite Hts|].
        intros j Hj. apply filter_In in Hj. rewrite Hts. apply Hnone, Hj.
      * rewrite app_nil_r. apply in_app_or in Hin. destruct Hin as [Hin|Hin].
        { now apply Hder. }
        destruct Hcreated as [[-> _] | (_ & name & _ & _ & _ & ->)];
          [contradiction|].
        destruct Hin as [<-|[]]. simpl in E. rewrite Z.eqb_refl in E. discriminate.
    + intros j Hj. rewrite Hi in Hj. apply in_app_or in Hj.
      destruct Hj as [Hj|[<-|[]]]; [now apply Hnone | lia].
Qed.

Lemma record_all_snoc (reqs : list request) (t : Z) (body : gmap string Js.value) (d : db) :
  record_all (reqs ++ [(t, body)]) d = fst (post_interactions t body (record_all reqs d)).
Proof.
  revert d. induction reqs as [|[t' body'] reqs IH]; intros d; simpl.
  - reflexivity.
  - apply IH.
Qed.

(** A request answered 201 leaves its clock reading in the derived column
    of its contact. *)
Lemma post_interactions_sets_last
    (now : Z) (body : gmap string Js.value) (d : db) (i : Interaction.t) :
  snd (post_interactions now body d) = Success 201 i ->
  forall c, In c (contacts (fst (post_interactions now body d))) ->
            Contact.id c = Interaction.contact_id i ->
            Contact.last_interaction_date c = Some now.
Proof.
  intros Hok c Hin Hid.
  destruct (post_interactions_cases now body d)
    as [[_ (st & msg & Hfail)] | (i' & created & Hok' & _ & _ & _ & _ & _ & Hc & _)].
  - rewrite Hok in Hfail. discriminate.
  - rewrite Hok in Hok'. inversion Hok'. subst i'.
    rewrite Hc in Hin. apply in_map_iff in Hin. destruct Hin as (c0 & <- & _).
    rewrite set_last_interaction_date_id in Hid.
    unfold set_last_interaction_date. apply Z.eqb_eq in Hid. now rewrite Hid.
Qed.

(** The recomputation of the seed script makes the derived column right
    whatever the store holds. *)
Lemma recompute_establishes_derived (now : Z) (d : db) :
  last_interaction_derived (fst (recompute_last_interaction_date now d)).
Proof.
  intros c Hin. simpl in Hin. apply in_map_iff in Hin.
  destruct Hin as (c0 & <- & _). reflexivity.
Qed.

(** C1 as the code has it.  On a store whose derived column is right and
    that holds no interaction dated after the first clock reading, any
    sequence of record-interaction requests whose clock readings never go
    back leaves, for every contact, the last-interaction timestamp equal
    to the maximum occurrence timestamp among that contact's interactions,
    null when it has none.  The occurrence time of a recorded interaction
    is the clock reading of its request, so T1 < T2 < T3 are recorded in
    that order, and after the request at T3 is answered 201 the column of
    its contact holds T3, the maximum. *)
Theorem last_interaction_is_max_for_monotone_clock
    (now : Z) (reqs : list request) (d : db) :
  last_interaction_derived d ->
  none_after now d ->
  clock_monotone now reqs ->
  last_interaction_derived (record_all reqs d)
  /\ none_after (last_reading now reqs) (record_all reqs d)
  /\ (forall earlier t body i,
        reqs = (earlier ++ [(t, body)])%list ->
        snd (post_interactions t body (record_all earlier d)) = Success 201 i ->
        forall c, In c (contacts (record_all reqs d)) ->
                  Contact.id c = Interaction.contact_id i ->
                  Contact.last_interaction_date c = Some t
                  /\ max_timestamp (interactions_of (Contact.id c) (record_all reqs d))
                     = Some t).
Proof.
  intros Hder Hnone Hclock.
  assert (Hinv : last_interaction_derived (record_all reqs d)
                 /\ none_after (last_reading now reqs) (record_all reqs d)).
  { revert now d Hder Hnone Hclock.
    induction reqs as [|[t body] reqs IH]; intros now d Hder Hnone Hclock.
    - now split.
    - simpl in *. destruct Hclock as [Hle Hclock].
      apply (none_after_later _ t) in Hnone; [|exact Hle].
      destruct (post_interactions_keeps_derived t body d Hder Hnone) as [Hder' Hnone'].
      now apply IH. }
  destruct Hinv as [Hder' Hnone'].
  split; [exact Hder'|]. split; [exact Hnone'|].
  intros earlier t body i -> Hok c Hin Hid.
  assert (Hlast : Contact.last_interaction_date c = Some t).
  { rewrite record_all_snoc in Hin.
    exact (post_interactions_sets_last t body _ i Hok c Hin Hid). }
  split; [exact Hlast|]. rewrite <- Hlast. symmetry. now apply Hder'.
Qed.

(** ** Recording an interaction: when the handler succeeds *)

Lemma prepareValue_truthy (v : Js.value) :
  Js.truthy v = true -> prepareValue v = Some (Js.to_string v).
Proof. destruct v; simpl; intros H; try discriminate; reflexivity. Qed.

Lemma mem_In (z : Z) (l : list Z) : mem z l = true <-> In z l.
Proof.
  unfold mem. rewrite existsb_exists. split.
  - intros (x & Hin & Heq). apply Z.eqb_eq in Heq. now subst.
  - intros Hin. exists z. split; [exact Hin | apply Z.eqb_refl].
Qed.

Lemma mem_fresh {A} (key : A -> Z) (seq : Z) (l : list A) :
  Forall (fun a => key a <= seq) l -> mem (seq + 1) (map key l) = false.
Proof.
  intros H. destruct (mem (seq + 1) (map key l)) eqn:E; [|reflexivity].
  apply mem_In, in_map_iff in E. destruct E as (a & Heq & Hin).
  rewrite List.Forall_forall in H. specialize (H a Hin). lia.
Qed.

Lemma varchar_fits (n : nat) (s : string) :
  (String.length s <= n)%nat -> varchar n (Some s) = inr (Some s).
Proof. intros H. unfold varchar. apply Nat.leb_le in H. now rewrite H. Qed.

Lemma in_int4_next (seq : Z) :
  0 <= seq -> seq + 1 <= Pg.INT4_MAX -> Pg.in_int4 (seq + 1) = true.
Proof.
  intros H0 H1. unfold Pg.in_int4, Pg.INT4_MIN, Pg.INT4_MAX in *.
  apply andb_true_intro. split; apply Z.leb_le; lia.
Qed.

Lemma insert_contact_ok (now : Z) (name : string) (d : db) :
  (String.length name <= 255)%nat ->
  Forall (fun c => Contact.id c <= contacts_id_seq d) (contacts d) ->
  0 <= contacts_id_seq d -> contacts_id_seq d + 1 <= Pg.INT4_MAX ->
  exists d1, insert_contact now (Some name) (Some "unknown") None None d
             = (d1, inr (contacts_id_seq d + 1)).
Proof.
  intros Hlen Hkeys H0 H1.
  unfold insert_contact, bind, check, nextval_contacts, add_contact, ret, serial,
    not_null.
  simpl. rewrite in_int4_next by assumption.
  rewrite varchar_fits by assumption. simpl.
  rewrite mem_fresh by assumption. eauto.
Qed.

Lemma get_or_create_contact_ok (now : Z) (contact_name : Js.value) (d : db) :
  Js.truthy contact_name = true ->
  (String.length (Js.to_string contact_name) <= 255)%nat ->
  Forall (fun c => Contact.id c <= contacts_id_seq d) (contacts d) ->
  0 <= contacts_id_seq d -> contacts_id_seq d + 1 <= Pg.INT4_MAX ->
  exists d1 id, get_or_create_contact now contact_name d = (d1, inr id).
Proof.
  intros Htruthy Hlen Hkeys H0 H1.
  unfold get_or_create_contact, bind, select_contact_id_by_name.
  destruct (List.filter _ (contacts d)) as [|c rest]; simpl.
  - rewrite (prepareValue_truthy _ Htruthy).
    destruct (insert_contact_ok now _ d Hlen Hkeys H0 H1) as [d1 ->]. eauto.
  - unfold ret. eauto.
Qed.

Lemma look_up_interaction_type_ok (interaction_type : Js.value) (d : db) :
  Js.truthy interaction_type = true ->
  (exists t, In t (interaction_types d)
             /\ InteractionType.type_name t = Js.to_string interaction_type) ->
  exists id, look_up_interaction_type interaction_type d = (d, inr id).
Proof.
  intros Htruthy (t & Hin & Hname).
  unfold look_up_interaction_type, bind, select_type_id_by_name.
  rewrite (prepareValue_truthy _ Htruthy).
  destruct (List.filter _ (interaction_types d)) as [|t' rest] eqn:Hsel; simpl.
  - exfalso.
    assert (Ht : In t (List.filter
                         (fun t => option_eqb (Some (Js.to_string interaction_type))
                                              (InteractionType.type_name t))
                         (interaction_types d))).
    { apply filter_In. split; [exact Hin|]. simpl. rewrite Hname. apply String.eqb_refl. }
    rewrite Hsel in Ht. destruct Ht.
  - unfold ret. eauto.
Qed.

Lemma insert_interaction_ok (now cid tid timestamp : Z)
    (direction duration subject : option string) (d : db) :
  (exists v, varchar 20 direction = inr v) ->
  (exists v, integer duration = inr v) ->
  (exists v, varchar 255 subject = inr v) ->
  Forall (fun i => Interaction.id i <= interactions_id_seq d) (interactions d) ->
  0 <= interactions_id_seq d -> interactions_id_seq d + 1 <= Pg.INT4_MAX ->
  In cid (map Contact.id (contacts d)) ->
  In tid (map InteractionType.id (interaction_types d)) ->
  exists d1 i, insert_interaction now cid tid direction timestamp duration subject d
               = (d1, inr i).
Proof.
  intros [v1 H1] [v2 H2] [v3 H3] Hkeys Hlo Hhi Hc Ht.
  unfold insert_interaction, bind, check, nextval_interactions, add_interaction, ret,
    serial.
  simpl. rewrite in_int4_next by assumption.
  rewrite H1, H2, H3. simpl.
  rewrite mem_fresh by assumption.
  apply mem_In in Hc. apply mem_In in Ht. rewrite Hc, Ht. simpl. eauto.
Qed.

(** A request with its two required fields, a name that fits its column, a
    type of the catalog and optional fields that fit is answered 201. *)
Lemma post_interactions_succeeds (now : Z) (body : gmap string Js.value) (d : db) :
  Js.truthy (Js.get body "contact_name") = true ->
  Js.truthy (Js.get body "interaction_type") = true ->
  (String.length (Js.to_string (Js.get body "contact_name")) <= 255)%nat ->
  (exists t, In t (interaction_types d)
             /\ InteractionType.type_name t = Js.to_string (Js.get body "interaction_type")) ->
  optional_fields_fit body ->
  room_for 1 d ->
  exists i, snd (post_interactions now body d) = Success 201 i.
Proof.
  intros Hcn Hty Hlen Hknown (Hdir & Hdur & Hsubj) (Hck & Hik & Hc0 & Hc1 & Hi0 & Hi1).
  unfold post_interactions. rewrite Hcn, Hty. simpl.
  unfold respond, transaction.
  destruct (get_or_create_contact_ok now _ d Hcn Hlen Hck Hc0 Hc1) as (d1 & cid & E1).
  pose proof (get_or_create_contact_cases now (Js.get body "contact_name") d) as H1.
  rewrite E1 in H1. rewrite (bind_inr _ _ _ _ _ E1).
  assert (Hd1 : interaction_types d1 = interaction_types d
                /\ interactions d1 = interactions d
                /\ interactions_id_seq d1 = interactions_id_seq d
                /\ In cid (map Contact.id (contacts d1))).
  { destruct H1 as [[-> [rest Hsel]] | [_ (name & _ & _ & _ & _ & ->)]]; simpl.
    - repeat split.
      assert (Hin : In cid (map Contact.id
                (List.filter (fun c => option_eqb (prepareValue (Js.get body "contact_name"))
                                                  (Contact.name c)) (contacts d))))
        by (rewrite Hsel; now left).
      apply in_map_iff in Hin. destruct Hin as (c & <- & Hin).
      apply filter_In in Hin. apply in_map, Hin.
    - repeat split. rewrite map_app. apply in_or_app. right. now left. }
  destruct Hd1 as (Ht1 & Hi1' & Hs1 & Hcid).
  destruct (look_up_interaction_type_ok (Js.get body "interaction_type") d1 Hty)
    as (tid & E2); [now rewrite Ht1|].
  pose proof (look_up_interaction_type_cases (Js.get body "interaction_type") d1) as H2.
  rewrite E2 in H2. destruct H2 as (_ & t & Htin & Htid & _).
  rewrite (bind_inr _ _ _ _ _ E2).
  assert (Hkeys : Forall (fun i => Interaction.id i <= interactions_id_seq d1)
                         (interactions d1)) by now rewrite Hi1', Hs1.
  assert (Hlo : 0 <= interactions_id_seq d1) by now rewrite Hs1.
  assert (Hhi : interactions_id_seq d1 + 1 <= Pg.INT4_MAX) by now rewrite Hs1.
  assert (Htype : In tid (map InteractionType.id (interaction_types d1)))
    by (rewrite <- Htid; now apply in_map).
  destruct (insert_interaction_ok now cid tid now _ _ _ d1 Hdir Hdur Hsubj
              Hkeys Hlo Hhi Hcid Htype) as (d3 & i & E3).
  rewrite (bind_inr _ _ _ _ _ E3). unfold bind, touch_contact, ret. simpl. eauto.
Qed.

(** ** C1: the derived column after out-of-order clock readings *)

(** C1 as the specification words it fails: three interactions of one
    contact occur at 1 < 2 < 3 and are recorded in the order 3, 1, 2 (the
    transactions' clock readings); the derived column then holds 2, not
    the maximum 3. *)
Lemma last_interaction_not_max_when_recorded_out_of_order :
  let d := record_all [ (3, call_with "Alice"); (1, call_with "Alice");
                        (2, call_with "Alice") ] seeded_db in
  ~ last_interaction_derived d
  /\ exists c, contacts d = [c]
       /\ map Interaction.timestamp (interactions_of (Contact.id c) d) = [3; 1; 2]
       /\ Contact.last_interaction_date c = Some 2
       /\ max_timestamp (interactions_of (Contact.id c) d) = Some 3.
Proof.
  set (d := record_all _ _).
  assert (Hc : exists c, contacts d = [c]
       /\ map Interaction.timestamp (interactions_of (Contact.id c) d) = [3; 1; 2]
       /\ Contact.last_interaction_date c = Some 2
       /\ max_timestamp (interactions_of (Contact.id c) d) = Some 3).
  { eexists. vm_compute. repeat split. }
  split; [|exact Hc].
  destruct Hc as (c & Hcs & _ & Hlast & Hmax). intros Hder.
  specialize (Hder c). rewrite Hcs in Hder. specialize (Hder (or_introl eq_refl)).
  rewrite Hlast, Hmax in Hder. discriminate.
Qed.

Lemma last_interaction_is_max_witness :
  let reqs := [ (1, call_with "Alice"); (2, call_with "Alice"); (3, call_with "Alice") ] in
  last_interaction_derived (record_all reqs seeded_db)
  /\ none_after (last_reading 0 reqs) (record_all reqs seeded_db)
  /\ (forall earlier t body i,
        reqs = (earlier ++ [(t, body)])%list ->
        snd (post_interactions t body (record_all earlier seeded_db)) = Success 201 i ->
        forall c, In c (contacts (record_all reqs seeded_db)) ->
                  Contact.id c = Interaction.contact_id i ->
                  Contact.last_interaction_date c = Some t
                  /\ max_timestamp (interactions_of (Contact.id c)
                                                    (record_all reqs seeded_db))
                     = Some t).
Proof.
  intros reqs.
  refine (last_interaction_is_max_for_monotone_clock 0 reqs seeded_db _ _ _).
  - intros c Hin. vm_compute in Hin. destruct Hin.
  - intros i Hin. vm_compute in Hin. destruct Hin.
  - unfold reqs. simpl. lia.
Defined.

(** The same three calls recorded in the order of their clock readings. *)
Example three_calls_in_order :
  map Contact.last_interaction_date
    (contacts (record_all [ (1, call_with "Alice"); (2, call_with "Alice");
                            (3, call_with "Alice") ] seeded_db))
  = [Some 3].
Proof. vm_compute. reflexivity. Qed.

(** ** C2: an unknown interaction type *)

(** Whatever makes the handler answer with an error, the tables are what
    they were before the request. *)
Lemma post_interactions_failure_keeps_tables
    (now : Z) (body : gmap string Js.value) (d : db) (status : Z) (msg : string) :
  snd (post_interactions now body d) = Failure status msg ->
  same_tables (fst (post_interactions now body d)) d.
Proof.
  intros Hfail.
  destruct (post_interactions_cases now body d) as [[Hsame _] | (i & created & Hok & _)].
  - exact Hsame.
  - rewrite Hok in Hfail. discriminate.
Qed.

(** C2.  A record-interaction request that carries its two required
    fields, whose contact name fits the name column and whose interaction
    type is the name of no row of the catalog fails with
    UnknownInteractionType and leaves every table as it was: no
    interaction row, and no contact row either when the name was new. *)
Theorem unknown_interaction_type_rolls_back
    (now : Z) (body : gmap string Js.value) (d : db) :
  Js.truthy (Js.get body "contact_name") = true ->
  Js.truthy (Js.get body "interaction_type") = true ->
  (String.length (Js.to_string (Js.get body "contact_name")) <= 255)%nat ->
  room_for 1 d ->
  (forall t, In t (interaction_types d) ->
             InteractionType.type_name t <> Js.to_string (Js.get body "interaction_type")) ->
  snd (post_interactions now body d)
  = UnknownInteractionType (Js.get body "interaction_type")
  /\ same_tables (fst (post_interactions now body d)) d.
Proof.
  intros Hcn Hty Hlen (Hck & _ & Hc0 & Hc1 & _) Hunknown.
  assert (Hresp : snd (post_interactions now body d)
                  = UnknownInteractionType (Js.get body "interaction_type")).
  { unfold post_interactions. rewrite Hcn, Hty. simpl.
    unfold respond, transaction.
    destruct (get_or_create_contact_ok now _ d Hcn Hlen Hck Hc0 Hc1) as (d1 & cid & E1).
    pose proof (get_or_create_contact_cases now (Js.get body "contact_name") d) as H1.
    rewrite E1 in H1. rewrite (bind_inr _ _ _ _ _ E1).
    assert (Ht1 : interaction_types d1 = interaction_types d).
    { destruct H1 as [[-> _] | [_ (name & _ & _ & _ & _ & ->)]]; reflexivity. }
    pose proof (look_up_interaction_type_cases (Js.get body "interaction_type") d1) as H2.
    destruct (look_up_interaction_type _ d1) as [d2 [msg|tid]] eqn:E2.
    - rewrite (bind_inl _ _ _ _ _ E2). simpl. apply H2.
    - exfalso. destruct H2 as (_ & t & Hin & _ & Hname).
      rewrite (prepareValue_truthy _ Hty) in Hname. inversion Hname as [Heq].
      rewrite Ht1 in Hin. apply (Hunknown t Hin). now rewrite Heq. }
  split; [exact Hresp|].
  eapply post_interactions_failure_keeps_tables. exact Hresp.
Qed.

Lemma unknown_interaction_type_rolls_back_witness :
  snd (post_interactions 100 (pigeon_with "Alice") seeded_db)
  = UnknownInteractionType (Js.get (pigeon_with "Alice") "interaction_type")
  /\ same_tables (fst (post_interactions 100 (pigeon_with "Alice") seeded_db)) seeded_db.
Proof.
  apply (unknown_interaction_type_rolls_back 100 (pigeon_with "Alice") seeded_db).
  - vm_compute. reflexivity.
  - vm_compute. reflexivity.
  - vm_compute. lia.
  - unfold room_for. vm_compute. repeat split; try constructor; intros H; discriminate H.
  - intros t Hin. vm_compute in Hin.
    repeat (destruct Hin as [<-|Hin]; [vm_compute; intros H; discriminate H|]).
    destruct Hin.
Defined.

(** The request of the specification's scenario, by evaluation: the name
    is new, the answer is the error, and no row is left behind. *)
Example carrier_pigeon_for_a_new_name :
  post_interactions 100 (pigeon_with "Alice") seeded_db
  = (mk_db [] (interaction_types seeded_db) [] 1 7 0,
     Failure 500 "Unknown interaction type: carrier_pigeon. Valid types: phone_call, sms, email, imessage, facetime_audio, facetime_video, calendar_meeting").
Proof. vm_compute. reflexivity. Qed.

(** ** C3: a new name makes one contact, used again afterwards *)

Lemma set_last_interaction_date_other (now cid : Z) (l : list Contact.t) :
  mem cid (map Contact.id l) = false ->
  map (set_last_interaction_date now cid) l = l.
Proof.
  intros Hfresh. rewrite <- (map_id l) at 2. apply map_ext_in. intros c Hin.
  unfold set_last_interaction_date.
  destruct (Contact.id c =? cid) eqn:E; [|reflexivity].
  apply Z.eqb_eq in E. exfalso.
  assert (Hmem : mem cid (map Contact.id l) = true)
    by (apply mem_In; rewrite <- E; now apply in_map).
  congruence.
Qed.

Lemma filter_none {A} (f : A -> bool) (l : list A) :
  (forall a, In a l -> f a = false) -> List.filter f l = [].
Proof.
  induction l as [|a l IH]; intros H; simpl; [reflexivity|].
  rewrite (H a) by now left. apply IH. intros b Hb. apply H. now right.
Qed.

Lemma set_last_interaction_date_same_identity (now cid : Z) (l : list Contact.t) :
  Forall2 same_identity l (map (set_last_interaction_date now cid) l).
Proof.
  induction l as [|c l IH]; simpl; constructor; [|exact IH].
  unfold set_last_interaction_date, same_identity.
  destruct (Contact.id c =? cid); simpl; repeat split.
Qed.

Lemma room_for_less (n m : Z) (d : db) : m <= n -> room_for n d -> room_for m d.
Proof. unfold room_for. intros Hle (H1 & H2 & H3 & H4 & H5 & H6). repeat split; auto; lia. Qed.

(** C3.  A record-interaction request whose contact name (a name that
    fits the name column) belongs to no contact creates exactly one
    contact, with that name, relationship "unknown" and null phone and
    email; a following request with the same name is recorded for that same
    contact id, adds no contact and leaves name, phone, email and
    relationship of every contact as they were.  Both requests name a type of the
    catalog and carry optional fields that fit their columns. *)
Theorem new_name_creates_one_contact_then_reuses_it
    (now1 now2 : Z) (body1 body2 : gmap string Js.value) (d : db) :
  Js.truthy (Js.get body1 "contact_name") = true ->
  Js.get body2 "contact_name" = Js.get body1 "contact_name" ->
  (String.length (Js.to_string (Js.get body1 "contact_name")) <= 255)%nat ->
  (forall c, In c (contacts d) ->
             Contact.name c <> Js.to_string (Js.get body1 "contact_name")) ->
  known_type body1 d -> known_type body2 d ->
  optional_fields_fit body1 -> optional_fields_fit body2 ->
  room_for 2 d ->
  exists i1 i2 : Interaction.t,
    snd (post_interactions now1 body1 d) = Success 201 i1
    /\ contacts (fst (post_interactions now1 body1 d))
       = (contacts d
          ++ [Contact.mk (Interaction.contact_id i1)
                         (Js.to_string (Js.get body1 "contact_name"))
                         None None (Some "unknown")
                         (Some now1) (Some now1) (Some now1)])%list
    /\ interactions (fst (post_interactions now1 body1 d)) = (interactions d ++ [i1])%list
    /\ snd (post_interactions now2 body2 (fst (post_interactions now1 body1 d)))
       = Success 201 i2
    /\ Interaction.contact_id i2 = Interaction.contact_id i1
    /\ Forall2 same_identity
         (contacts (fst (post_interactions now1 body1 d)))
         (contacts (fst (post_interactions now2 body2 (fst (post_interactions now1 body1 d)))))
    /\ interactions (fst (post_interactions now2 body2 (fst (post_interactions now1 body1 d))))
       = (interactions (fst (post_interactions now1 body1 d)) ++ [i2])%list.
Proof.
  intros Hcn Hsame Hlen Hnew [Hty1 Hknown1] [Hty2 Hknown2] Hfit1 Hfit2 Hroom.
  set (name := Js.to_string (Js.get body1 "contact_name")) in *.
  assert (Hprep : prepareValue (Js.get body1 "contact_name") = Some name)
    by now apply prepareValue_truthy.
  (* the first request *)
  destruct (post_interactions_succeeds now1 body1 d Hcn Hty1 Hlen Hknown1 Hfit1
              (room_for_less 2 1 d ltac:(lia) Hroom)) as [i1 Hok1].
  destruct (post_interactions_cases now1 body1 d)
    as [[_ (st & msg & Hfail)] |
        (i & created & Hok & _ & Hid & _ & Hcreated & _ & Hc & Ht & Hi & Hcs & His)];
    [rewrite Hok1 in Hfail; discriminate|].
  rewrite Hok1 in Hok. inversion Hok. subst i. clear Hok.
  set (d1 := fst (post_interactions now1 body1 d)) in *.
  destruct Hcreated as [[_ [rest Hsel]] | (_ & name' & Hname' & Hcid & Hfresh & ->)].
  { exfalso. rewrite filter_none in Hsel; [discriminate|].
    intros c Hin. rewrite Hprep. simpl. apply String.eqb_neq.
    intros Heq. apply (Hnew c Hin). now symmetry. }
  rewrite Hprep, varchar_fits in Hname' by exact Hlen.
  inversion Hname'. subst name'. clear Hname'.
  assert (Hc1 : contacts d1
                = (contacts d
                   ++ [Contact.mk (Interaction.contact_id i1) name None None
                                  (Some "unknown") (Some now1) (Some now1) (Some now1)])%list).
  { rewrite Hc, map_app, set_last_interaction_date_other by exact Hfresh.
    simpl. unfold set_last_interaction_date. simpl. now rewrite Z.eqb_refl. }
  (* the state between the two requests *)
  destruct Hroom as (Hck & Hik & Hc0 & Hc2 & Hi0 & Hi2).
  assert (Hroom1 : room_for 1 d1).
  { unfold room_for. rewrite Hc1, Hi, Hcs, His. simpl.
    repeat split; try lia.
    - apply Forall_app. split.
      + eapply List.Forall_impl; [|exact Hck]. simpl. intros; lia.
      + constructor; [simpl; lia | constructor].
    - apply Forall_app. split.
      + eapply List.Forall_impl; [|exact Hik]. simpl. intros; lia.
      + constructor; [lia | constructor]. }
  assert (Hknown2' : exists t, In t (interaction_types d1)
             /\ InteractionType.type_name t = Js.to_string (Js.get body2 "interaction_type"))
    by now rewrite Ht.
  assert (Hcn2 : Js.truthy (Js.get body2 "contact_name") = true) by now rewrite Hsame.
  assert (Hlen2 : (String.length (Js.to_string (Js.get body2 "contact_name")) <= 255)%nat)
    by now rewrite Hsame.
  (* the second request *)
  destruct (post_interactions_succeeds now2 body2 d1 Hcn2 Hty2 Hlen2 Hknown2' Hfit2 Hroom1)
    as [i2 Hok2].
  destruct (post_interactions_cases now2 body2 d1)
    as [[_ (st & msg & Hfail)] |
        (i & created & Hok & _ & _ & _ & Hcreated & _ & Hc' & _ & Hi' & _)];
    [rewrite Hok2 in Hfail; discriminate|].
  rewrite Hok2 in Hok. inversion Hok. subst i. clear Hok.
  rewrite Hsame, Hprep in Hcreated.
  assert (Hsel1 : List.filter (fun c => option_eqb (Some name) (Contact.name c)) (contacts d1)
                  = [Contact.mk (Interaction.contact_id i1) name None None
                                (Some "unknown") (Some now1) (Some now1) (Some now1)]).
  { rewrite Hc1, List.filter_app, filter_none.
    - simpl. now rewrite String.eqb_refl.
    - intros c Hin. simpl. apply String.eqb_neq. intros Heq.
      apply (Hnew c Hin). now symmetry. }
  rewrite Hsel1 in Hcreated.
  destruct Hcreated as [[-> [rest Hsel]] | [Hnone _]]; [|discriminate].
  simpl in Hsel. inversion Hsel as [[Hcid2 Hrest]].
  exists i1, i2. repeat split; try assumption; try reflexivity.
  - now symmetry.
  - rewrite Hc', app_nil_r. apply set_last_interaction_date_same_identity.
Qed.

Lemma known_type_phone_call (name : string) : known_type (call_with name) seeded_db.
Proof.
  split; [vm_compute; reflexivity|].
  exists (InteractionType.mk 1 "phone_call" (Some "Voice call")).
  split; [vm_compute; left; reflexivity | vm_compute; reflexivity].
Qed.

Lemma optional_fields_fit_call (name : string) : optional_fields_fit (call_with name).
Proof.
  split; [|split].
  - exists (Some "outgoing"). vm_compute. reflexivity.
  - exists (Some 300). vm_compute. reflexivity.
  - exists None. vm_compute. reflexivity.
Qed.

Lemma room_for_seeded_db : room_for 2 seeded_db.
Proof.
  unfold room_for. vm_compute.
  repeat split; try constructor; intros H; discriminate H.
Qed.

Lemma new_name_creates_one_contact_witness :
  exists i1 i2 : Interaction.t,
    snd (post_interactions 100 (call_with "Alice") seeded_db) = Success 201 i1
    /\ contacts (fst (post_interactions 100 (call_with "Alice") seeded_db))
       = (contacts seeded_db
          ++ [Contact.mk (Interaction.contact_id i1)
                         (Js.to_string (Js.get (call_with "Alice") "contact_name"))
                         None None (Some "unknown")
                         (Some 100) (Some 100) (Some 100)])%list
    /\ interactions (fst (post_interactions 100 (call_with "Alice") seeded_db))
       = (interactions seeded_db ++ [i1])%list
    /\ snd (post_interactions 200 (call_with "Alice")
              (fst (post_interactions 100 (call_with "Alice") seeded_db)))
       = Success 201 i2
    /\ Interaction.contact_id i2 = Interaction.contact_id i1
    /\ Forall2 same_identity
         (contacts (fst (post_interactions 100 (call_with "Alice") seeded_db)))
         (contacts (fst (post_interactions 200 (call_with "Alice")
                           (fst (post_interactions 100 (call_with "Alice") seeded_db)))))
    /\ interactions (fst (post_interactions 200 (call_with "Alice")
                            (fst (post_interactions 100 (call_with "Alice") seeded_db))))
       = (interactions (fst (post_interactions 100 (call_with "Alice") seeded_db))
          ++ [i2])%list.
Proof.
  apply (new_name_creates_one_contact_then_reuses_it 100 200
           (call_with "Alice") (call_with "Alice") seeded_db).
  - vm_compute. reflexivity.
  - reflexivity.
  - vm_compute. lia.
  - intros c Hin. vm_compute in Hin. destruct Hin.
  - apply known_type_phone_call.
  - apply known_type_phone_call.
  - apply optional_fields_fit_call.
  - apply optional_fields_fit_call.
  - apply room_for_seeded_db.
Defined.

(** The two requests by evaluation: one contact, two interactions of it. *)
Example alice_twice :
  let d := record_all [(100, call_with "Alice"); (200, call_with "Alice")] seeded_db in
  contacts d = [Contact.mk 1 "Alice" None None (Some "unknown") (Some 200) (Some 100) (Some 200)]
  /\ map Interaction.contact_id (interactions d) = [1; 1].
Proof. vm_compute. split; reflexivity. Qed.

(** ** C4: the occurrence timestamp *)

Lemma get_insert_other (body : gmap string Js.value) (key k : string) (v : Js.value) :
  key <> k -> Js.get (<[key := v]> body) k = Js.get body k.
Proof. intros Hne. unfold Js.get. now rewrite lookup_insert_ne. Qed.

(** C4 as the specification words it fails: a caller supplies the
    occurrence time 5 with a request made at time 100, and the interaction
    is stored with the occurrence time 100. *)
Lemma supplied_timestamp_is_not_persisted :
  exists i,
    snd (post_interactions 100 (<["timestamp" := Js.Num 5]> (call_with "Alice")) seeded_db)
    = Success 201 i
    /\ Interaction.timestamp i = 100
    /\ Interaction.timestamp i <> 5.
Proof.
  exists (Interaction.mk 1 1 1 (Some "outgoing") 100 (Some 300) None None (Some 100)).
  split; [vm_compute; reflexivity|]. simpl. split; [reflexivity | lia].
Qed.

(** C4 as the code has it.  The handler reads five fields of the body:
    contact_name, interaction_type, direction, duration_seconds and
    subject.  Any other field, an occurrence timestamp among them, changes
    neither the answer nor the store, and the occurrence timestamp of the
    interaction a request persists is always the current time of that
    request. *)
Theorem occurrence_timestamp_is_the_current_time
    (now : Z) (body : gmap string Js.value) (d : db) (key : string) (v : Js.value) :
  ~ In key ["contact_name"; "interaction_type"; "direction"; "duration_seconds"; "subject"] ->
  post_interactions now (<[key := v]> body) d = post_interactions now body d
  /\ (forall i, snd (post_interactions now body d) = Success 201 i ->
                Interaction.timestamp i = now)
  /\ (forall i, In i (interactions (fst (post_interactions now body d))) ->
                In i (interactions d) \/ Interaction.timestamp i = now).
Proof.
  intros Hkey. split; [|split].
  - unfold post_interactions.
    rewrite !get_insert_other; [reflexivity|..];
      intros ->; apply Hkey; simpl; tauto.
  - intros i Hok.
    destruct (post_interactions_cases now body d)
      as [[_ (st & msg & Hfail)] | (i' & created & Hok' & Hts & _)].
    + rewrite Hok in Hfail. discriminate.
    + rewrite Hok in Hok'. inversion Hok'. now subst.
  - intros i Hin.
    destruct (post_interactions_cases now body d)
      as [[(_ & _ & Hsame) _] | (i' & created & _ & Hts & _ & _ & _ & _ & _ & _ & Hi & _)].
    + left. now rewrite <- Hsame.
    + rewrite Hi in Hin. apply in_app_or in Hin.
      destruct Hin as [Hin|[<-|[]]]; [now left | now right].
Qed.

Lemma occurrence_timestamp_witness :
  post_interactions 100 (<["timestamp" := Js.Num 5]> (call_with "Alice")) seeded_db
  = post_interactions 100 (call_with "Alice") seeded_db
  /\ (forall i, snd (post_interactions 100 (call_with "Alice") seeded_db) = Success 201 i ->
                Interaction.timestamp i = 100)
  /\ (forall i, In i (interactions (fst (post_interactions 100 (call_with "Alice") seeded_db))) ->
                In i (interactions seeded_db) \/ Interaction.timestamp i = 100).
Proof.
  apply (occurrence_timestamp_is_the_current_time 100 (call_with "Alice") seeded_db
           "timestamp" (Js.Num 5)).
  simpl. intros [H|[H|[H|[H|[H|[]]]]]]; discriminate H.
Defined.

(** ** C5 and C8: the statistics query *)

(** The select list nests aggregate calls: [AVG] is applied to an
    expression made of [MAX], [MIN] and [COUNT].  PostgreSQL refuses such a
    query when it analyses it, so the handler answers every request with
    status 500. *)
Lemma stats_select_nests_aggregates :
  Sql.analyse [Sql.c_name] stats_select = inl "aggregate function calls cannot be nested".
Proof. vm_compute. reflexivity. Qed.

Lemma get_contact_stats_rejected (id_param : string) (d : db) :
  get_contact_stats id_param d = Failure 500 "aggregate function calls cannot be nested".
Proof. unfold get_contact_stats. now rewrite stats_select_nests_aggregates. Qed.

(** C5 at a failing input.  Contact 1 of [sample_db] has two interactions,
    ten days apart; the claim asks for avg_days_between_interactions = 10,
    the handler answers status 500. *)
Theorem stats_of_a_contact_with_two_interactions_fails :
  (exists c, In c (contacts sample_db) /\ Contact.id c = 1)
  /\ map Interaction.timestamp (interactions_of 1 sample_db) = [0; 10 * Pg.USECS_PER_DAY]
  /\ get_contact_stats "1" sample_db
     = Failure 500 "aggregate function calls cannot be nested".
Proof.
  split; [|split].
  - eexists. split; [vm_compute; left; reflexivity | reflexivity].
  - vm_compute. reflexivity.
  - apply get_contact_stats_rejected.
Qed.

(** What the query is after: the items before the last one, and the
    argument of the [AVG] call, on the rows of contact 1. *)
Example stats_items_of_contact_1 :
  run_grouped (firstn 6 stats_select) (stats_from 1 sample_db)
  = inr [[ ("name", Sql.VText "Alice");
           ("total_interactions", Sql.VInt 2);
           ("outgoing_count", Sql.VInt 2);
           ("incoming_count", Sql.VInt 0);
           ("last_interaction", Sql.VTimestamp (10 * Pg.USECS_PER_DAY));
           ("first_interaction", Sql.VTimestamp 0) ]]
  /\ eval_group (stats_from 1 sample_db) avg_argument = inr (Sql.VNumeric (inject_Z 10))
  /\ eval_group (stats_from 2 sample_db) avg_argument = inr Sql.VNull.
Proof. vm_compute. repeat split; reflexivity. Qed.

(** C8 at a failing input.  No contact of [sample_db] has the id 999; the
    claim asks for NotFound, the handler answers status 500. *)
Theorem stats_of_a_missing_contact_is_not_found_fails :
  ~ In 999 (map Contact.id (contacts sample_db))
  /\ get_contact_stats "999" sample_db
     = Failure 500 "aggregate function calls cannot be nested"
  /\ get_contact_stats "999" sample_db <> NotFound.
Proof.
  split; [|split].
  - vm_compute. intros [H|[H|[]]]; discriminate H.
  - apply get_contact_stats_rejected.
  - rewrite get_contact_stats_rejected. unfold NotFound. intros H. discriminate H.
Qed.

(** The parts of C8 the code does keep. *)
Lemma get_contact_not_found (id_param : string) (id : Z) (d : db) :
  Pg.int4in id_param = Some id ->
  ~ In id (map Contact.id (contacts d)) ->
  get_contact id_param d = NotFound.
Proof.
  intros Hparse Hmissing. unfold get_contact. rewrite Hparse.
  rewrite filter_none; [reflexivity|].
  intros c Hin. apply Z.eqb_neq. intros Heq. apply Hmissing.
  rewrite <- Heq. now apply in_map.
Qed.

Lemma list_operations_never_not_found (now : Z) (param : string) (d : db) :
  get_contacts d <> NotFound
  /\ get_contacts_overdue now param d <> NotFound
  /\ get_interactions_recent param d <> NotFound.
Proof.
  unfold get_contacts, get_contacts_overdue, get_interactions_recent, reply, NotFound.
  repeat split.
  - discriminate.
  - repeat case_match_goal; discriminate.
  - repeat case_match_goal; discriminate.
Qed.

Lemma list_operations_on_an_empty_store (now : Z) :
  Pg.valid_timestamp (now - 30 * Pg.USECS_PER_DAY) = true ->
  get_contacts seeded_db = Success 200 []
  /\ get_contacts_overdue now "30" seeded_db = Success 200 []
  /\ get_interactions_recent "5" seeded_db = Success 200 [].
Proof.
  intros Hvalid.
  split; [vm_compute; reflexivity|]. split; [|vm_compute; reflexivity].
  unfold get_contacts_overdue.
  change (Js.parseInt "30") with (Js.Fin 30).
  change (interval_days (Js.Fin 30)) with (@inr string Z 30).
  cbv beta iota. unfold timestamp_minus_days. rewrite Hvalid.
  change (contacts seeded_db) with (@nil Contact.t). reflexivity.
Qed.

(** ** C9: the catalog is seeded once *)

Lemma insert_existing_type (row : string * string) (d : db) :
  (String.length (fst row) <= 50)%nat ->
  existsb (fun t => String.eqb (InteractionType.type_name t) (fst row))
          (interaction_types d) = true ->
  same_tables (fst (insert_type_on_conflict_do_nothing row d)) d
  /\ interaction_types_id_seq (fst (insert_type_on_conflict_do_nothing row d))
     = interaction_types_id_seq d + 1
  /\ (0 <= interaction_types_id_seq d ->
      interaction_types_id_seq d + 1 <= Pg.INT4_MAX ->
      snd (insert_type_on_conflict_do_nothing row d) = inr tt).
Proof.
  intros Hlen Hexists.
  unfold insert_type_on_conflict_do_nothing, bind, check, nextval_interaction_types,
    serial, not_null.
  cbn [fst snd].
  destruct (Pg.in_int4 (interaction_types_id_seq d + 1)) eqn:Hfit.
  - rewrite varchar_fits by exact Hlen. cbn. rewrite Hexists. cbn.
    repeat split.
  - cbn. repeat split. intros H0 H1. rewrite in_int4_next in Hfit by assumption.
    discriminate.
Qed.

Lemma for_each_existing_types (rows : list (string * string)) (d : db) :
  Forall (fun row => (String.length (fst row) <= 50)%nat) rows ->
  Forall (fun row => existsb (fun t => String.eqb (InteractionType.type_name t) (fst row))
                             (interaction_types d) = true) rows ->
  same_tables (fst (for_each insert_type_on_conflict_do_nothing rows d)) d
  /\ (0 <= interaction_types_id_seq d ->
      interaction_types_id_seq d + Z.of_nat (length rows) <= Pg.INT4_MAX ->
      snd (for_each insert_type_on_conflict_do_nothing rows d) = inr tt
      /\ interaction_types_id_seq (fst (for_each insert_type_on_conflict_do_nothing rows d))
         = interaction_types_id_seq d + Z.of_nat (length rows)).
Proof.
  revert d. induction rows as [|row rows IH]; intros d Hlen Hex.
  - cbn. split; [apply same_tables_refl|]. intros _ _. split; [reflexivity | lia].
  - inversion Hlen as [|? ? Hl Hlen']. inversion Hex as [|? ? He Hex']. subst.
    destruct (insert_existing_type row d Hl He) as (Hsame & Hseq & Hok).
    cbn [for_each]. unfold bind.
    destruct (insert_type_on_conflict_do_nothing row d) as [d1 [msg|[]]] eqn:E;
      cbn [fst snd] in *.
    + split; [exact Hsame|]. intros H0 H1.
      simpl length in H1. rewrite Nat2Z.inj_succ in H1.
      specialize (Hok H0 ltac:(lia)). discriminate.
    + assert (Hex1 : Forall (fun row => existsb
                 (fun t => String.eqb (InteractionType.type_name t) (fst row))
                 (interaction_types d1) = true) rows).
      { destruct Hsame as (_ & -> & _). exact Hex'. }
      destruct (IH d1 Hlen' Hex1) as (Hsame' & Hok').
      split.
      * destruct Hsame as (Hc & Ht & Hi). destruct Hsame' as (Hc' & Ht' & Hi').
        repeat split; congruence.
      * intros H0 H1. simpl length in *. rewrite Nat2Z.inj_succ in *.
        destruct Hok' as [Hr Hs]; [lia | lia |].
        split; [exact Hr | lia].
Qed.

Lemma seeded_names_fit :
  Forall (fun row : string * string => (String.length (fst row) <= 50)%nat) seeded_types.
Proof. repeat constructor; vm_compute; lia. Qed.

(** The script on a store that has the seven types: the tables stay, and
    there is no error while the sequence can still count. *)
Lemma schema_sql_again (d : db) :
  interaction_types d = interaction_types seeded_db ->
  same_tables (fst (schema_sql d)) d
  /\ (0 <= interaction_types_id_seq d ->
      interaction_types_id_seq d + 7 <= Pg.INT4_MAX ->
      snd (schema_sql d) = inr tt
      /\ interaction_types_id_seq (fst (schema_sql d)) = interaction_types_id_seq d + 7).
Proof.
  intros Htypes.
  assert (Hex : Forall (fun row => existsb
             (fun t => String.eqb (InteractionType.type_name t) (fst row))
             (interaction_types d) = true) seeded_types).
  { rewrite Htypes. repeat constructor. }
  destruct (for_each_existing_types seeded_types d seeded_names_fit Hex) as (Hsame & Hok).
  unfold schema_sql, transaction.
  destruct (for_each insert_type_on_conflict_do_nothing seeded_types d)
    as [d1 [msg|[]]] eqn:E; cbn [fst snd] in *.
  - split; [apply same_tables_rollback|]. intros H0 H1.
    destruct (Hok H0 H1) as [Hr _]. discriminate.
  - split; [exact Hsame|]. intros H0 H1. destruct (Hok H0 H1) as [_ Hs].
    split; [reflexivity | exact Hs].
Qed.

Lemma schema_sql_first_run : schema_sql empty_db = (seeded_db, inr tt).
Proof. vm_compute. reflexivity. Qed.

Lemma run_schema_seeded (n : nat) (d : db) :
  interaction_types d = interaction_types seeded_db ->
  interaction_types (fst (run_schema n d)) = interaction_types seeded_db
  /\ (0 <= interaction_types_id_seq d ->
      interaction_types_id_seq d + 7 * Z.of_nat n <= Pg.INT4_MAX ->
      Forall (fun r => r = inr tt) (snd (run_schema n d))).
Proof.
  revert d. induction n as [|n IH]; intros d Htypes.
  - cbn [run_schema fst snd]. split; [exact Htypes | constructor].
  - destruct (schema_sql_again d Htypes) as ((_ & Ht & _) & Hok).
    cbn [run_schema].
    destruct (schema_sql d) as [d1 r] eqn:E1. cbn [fst snd] in *.
    assert (Htypes1 : interaction_types d1 = interaction_types seeded_db) by congruence.
    destruct (IH d1 Htypes1) as (Hkeep & Hrest).
    destruct (run_schema n d1) as [d2 rs] eqn:E2. cbn [fst snd] in *.
    split; [exact Hkeep|]. intros H0 H1. rewrite Nat2Z.inj_succ in H1.
    destruct (Hok H0 ltac:(lia)) as [Hr Hs].
    constructor; [exact Hr|]. apply Hrest; lia.
Qed.

(** C9.  Running the seeding of the catalog once or any number of further
    times on a new database leaves the catalog as one run leaves it: the
    seven seeded interaction types, each once.  No run reports an error
    on the rows that exist (a run draws seven values from the key
    sequence, which counts up to 2147483647). *)
Theorem catalog_seeding_is_idempotent (n : nat) :
  interaction_types (fst (run_schema (S n) empty_db))
  = interaction_types (fst (run_schema 1 empty_db))
  /\ map InteractionType.type_name (interaction_types (fst (run_schema (S n) empty_db)))
     = [ "phone_call"; "facetime_audio"; "facetime_video"; "sms"; "imessage"; "email";
         "calendar_meeting" ]
  /\ List.NoDup (map InteractionType.type_name
                (interaction_types (fst (run_schema (S n) empty_db))))
  /\ (7 * Z.of_nat (S n) <= Pg.INT4_MAX ->
      Forall (fun r => r = inr tt) (snd (run_schema (S n) empty_db))).
Proof.
  destruct (run_schema_seeded n seeded_db eq_refl) as (Hkeep & Hok).
  assert (Hrun : run_schema (S n) empty_db
                 = (fst (run_schema n seeded_db), inr tt :: snd (run_schema n seeded_db))).
  { cbn [run_schema]. rewrite schema_sql_first_run.
    destruct (run_schema n seeded_db). reflexivity. }
  assert (Htypes : interaction_types (fst (run_schema (S n) empty_db))
                   = interaction_types seeded_db).
  { rewrite Hrun. exact Hkeep. }
  assert (Hseq : interaction_types_id_seq seeded_db = 7) by (vm_compute; reflexivity).
  split; [|split; [|split]].
  - transitivity (interaction_types seeded_db);
      [exact Htypes | vm_compute; reflexivity].
  - transitivity (map InteractionType.type_name (interaction_types seeded_db));
      [f_equal; exact Htypes | vm_compute; reflexivity].
  - replace (interaction_types (fst (run_schema (S n) empty_db)))
      with (interaction_types seeded_db) by (symmetry; exact Htypes).
    vm_compute.
    repeat (constructor; [intros H; repeat (destruct H as [H|H]; [discriminate H|]);
                          exact H|]).
    constructor.
  - intros Hroom.
    replace (snd (run_schema (S n) empty_db))
      with (inr tt :: snd (run_schema n seeded_db)) by (symmetry; exact (f_equal snd Hrun)).
    constructor; [reflexivity|].
    rewrite Nat2Z.inj_succ in Hroom. apply Hok; rewrite Hseq; lia.
Qed.

Lemma catalog_seeding_witness :
  Forall (fun r : string + unit => r = inr tt) (snd (run_schema 2 empty_db)).
Proof.
  apply (catalog_seeding_is_idempotent 1).
  vm_compute. intros H. discriminate H.
Defined.

Example catalog_seeded_three_times :
  let d := fst (run_schema 3 empty_db) in
  map (fun t => (InteractionType.id t, InteractionType.type_name t)) (interaction_types d)
  = [ (1, "phone_call"); (2, "facetime_audio"); (3, "facetime_video"); (4, "sms");
      (5, "imessage"); (6, "email"); (7, "calendar_meeting") ]
  /\ interaction_types_id_seq d = 21.
Proof. vm_compute. split; reflexivity. Qed.

(** ** C6: the overdue list *)

Lemma StronglySorted_weaken {A} (R R' : A -> A -> Prop) (l : list A) :
  (forall a b, R a b -> R' a b) -> StronglySorted R l -> StronglySorted R' l.
Proof.
  intros Himpl. induction 1 as [|x l Hs IH Hx]; constructor; [exact IH|].
  eapply List.Forall_impl; [|exact Hx]. intros b. apply Himpl.
Qed.

Lemma asc_nulls_first_total (a b : option Z) :
  asc_nulls_first a b = false -> asc_nulls_first b a = true.
Proof.
  destruct a as [x|], b as [y|]; simpl; intros H; try reflexivity; try discriminate.
  apply Z.leb_gt in H. apply Z.leb_le. lia.
Qed.

Lemma asc_nulls_first_trans (a b c : option Z) :
  asc_nulls_first a b = true -> asc_nulls_first b c = true -> asc_nulls_first a c = true.
Proof.
  destruct a as [x|], b as [y|], c as [z|]; simpl; intros H1 H2;
    try reflexivity; try discriminate.
  apply Z.leb_le in H1, H2. apply Z.leb_le. lia.
Qed.

Lemma asc_nulls_first_le (a b : option Z) :
  asc_nulls_first a b = true -> nulls_first_le a b.
Proof.
  destruct a as [x|], b as [y|]; simpl; intros H; try exact I; try discriminate.
  now apply Z.leb_le.
Qed.

Lemma overdue_iff (cutoff : Z) (c : Contact.t) :
  overdue cutoff c = true <-> overdue_at cutoff c.
Proof.
  unfold overdue, overdue_at. destruct (Contact.last_interaction_date c) as [t|].
  - rewrite Z.ltb_lt. split.
    + intros H. right. exists t. now split.
    + intros [H|(t' & H & Hlt)]; [discriminate | now inversion H].
  - split; [now left | reflexivity].
Qed.

Lemma filter_partition_perm {A} (p : A -> bool) (l : list A) :
  Permutation (List.filter p l ++ List.filter (fun x => negb (p x)) l) l.
Proof.
  induction l as [|a l IH]; simpl; [constructor|].
  destruct (p a); simpl.
  - now constructor.
  - symmetry. apply Permutation_cons_app. now symmetry.
Qed.

Lemma overdue_columns_row (now : Z) (l : list Contact.t) :
  Forall2 (overdue_row_of now) l (map (overdue_columns now) l).
Proof.
  induction l as [|c l IH]; simpl; constructor; [|exact IH].
  unfold overdue_row_of, contact_row_of, overdue_columns, extract_day_between. simpl.
  repeat split; now destruct (Contact.last_interaction_date c).
Qed.

(** The rows of the overdue query: the contacts split into the overdue
    ones, which give the rows one for one, and the others. *)
Lemma overdue_rows_exact (now cutoff : Z) (d : db) :
  exists selected others,
    Permutation (selected ++ others) (contacts d)
    /\ Forall (overdue_at cutoff) selected
    /\ Forall (fun c => ~ overdue_at cutoff c) others
    /\ Forall2 (overdue_row_of now) selected
         (order_by (fun a b => asc_nulls_first (od_last a) (od_last b))
            (map (overdue_columns now) (List.filter (overdue cutoff) (contacts d))))
    /\ StronglySorted (fun a b => nulls_first_le (od_last a) (od_last b))
         (order_by (fun a b => asc_nulls_first (od_last a) (od_last b))
            (map (overdue_columns now) (List.filter (overdue cutoff) (contacts d)))).
Proof.
  set (leb := fun a b : overdue_row => asc_nulls_first (od_last a) (od_last b)).
  destruct (Permutation_map_inv (overdue_columns now) _
              (order_by_perm leb (map (overdue_columns now)
                                      (List.filter (overdue cutoff) (contacts d)))))
    as (selected & Heq & Hperm).
  exists selected, (List.filter (fun c => negb (overdue cutoff c)) (contacts d)).
  split; [|split; [|split; [|split]]].
  - rewrite <- Hperm. apply filter_partition_perm.
  - eapply Permutation_Forall; [exact Hperm|].
    apply List.Forall_forall. intros c Hc. apply filter_In in Hc.
    now apply overdue_iff.
  - apply List.Forall_forall. intros c Hc Hov. apply filter_In in Hc.
    apply overdue_iff in Hov. destruct Hc as [_ Hc]. rewrite Hov in Hc. discriminate.
  - rewrite Heq. apply overdue_columns_row.
  - apply (StronglySorted_weaken (fun a b => leb a b = true)).
    + intros a b. apply asc_nulls_first_le.
    + apply order_by_sorted.
      * intros x y. apply asc_nulls_first_total.
      * intros x y z. apply asc_nulls_first_trans.
Qed.

Lemma derived_never_contacted_is_null (d : db) :
  last_interaction_derived d -> never_contacted_is_null d.
Proof. intros Hder c Hin Hnone. rewrite (Hder c Hin), Hnone. reflexivity. Qed.

(** Every request keeps it: a contact is created together with its first
    interaction, and interactions are never removed. *)
Lemma post_interactions_keeps_never_contacted_is_null
    (now : Z) (body : gmap string Js.value) (d : db) :
  never_contacted_is_null d ->
  never_contacted_is_null (fst (post_interactions now body d)).
Proof.
  intros Hd.
  destruct (post_interactions_cases now body d)
    as [[(Hc & _ & Hi) _] |
        (i & created & _ & _ & _ & _ & Hcreated & _ & Hc & _ & Hi & _)].
  - intros c Hin Hnone. rewrite Hc in Hin. apply (Hd c Hin).
    unfold interactions_of in *. now rewrite <- Hi.
  - intros c' Hin Hnone. rewrite Hc in Hin. apply in_map_iff in Hin.
    destruct Hin as (c & <- & Hin).
    rewrite set_last_interaction_date_id in Hnone.
    unfold interactions_of in Hnone. rewrite Hi, List.filter_app in Hnone.
    apply app_eq_nil in Hnone. destruct Hnone as [Hold Hnew].
    simpl in Hnew.
    destruct (Interaction.contact_id i =? Contact.id c) eqn:E; [discriminate|].
    unfold set_last_interaction_date. rewrite Z.eqb_sym, E.
    apply in_app_or in Hin. destruct Hin as [Hin|Hin].
    + now apply Hd.
    + exfalso. apply Z.eqb_neq in E.
      destruct Hcreated as [[-> _] | (_ & name & _ & _ & _ & ->)].
      * destruct Hin.
      * destruct Hin as [<-|[]]. now apply E.
Qed.

Lemma record_all_keeps_never_contacted_is_null (reqs : list request) (d : db) :
  never_contacted_is_null d -> never_contacted_is_null (record_all reqs d).
Proof.
  revert d. induction reqs as [|[t body] reqs IH]; intros d Hd; simpl.
  - exact Hd.
  - apply IH. now apply post_interactions_keeps_never_contacted_is_null.
Qed.

(** C6.  For a threshold of d days (an integer whose interval and cutoff
    PostgreSQL can represent), list_overdue answers with exactly the
    contacts whose last-interaction timestamp is null or older than now - d
    days: the contacts split into these and the others, and the answer has
    one row for each of these and no other row.  A row carries the six
    columns of its contact and days_since_contact: null for a contact
    never contacted, the whole days since the last interaction otherwise.
    The rows are in ascending order of last-interaction timestamp, nulls
    first.  A contact without interactions has a null timestamp in every
    store the API and the seed script write, and is then in the answer
    for every threshold. *)
Theorem overdue_list_is_exact_and_ordered
    (now : Z) (days_param : string) (days : Z) (d : db) :
  Js.parseInt days_param = Js.Fin days ->
  Pg.in_int4 days = true ->
  Pg.valid_timestamp (now - days * Pg.USECS_PER_DAY) = true ->
  exists rows selected others,
    get_contacts_overdue now days_param d = Success 200 rows
    /\ Permutation (selected ++ others) (contacts d)
    /\ Forall (overdue_at (now - days * Pg.USECS_PER_DAY)) selected
    /\ Forall (fun c => ~ overdue_at (now - days * Pg.USECS_PER_DAY) c) others
    /\ Forall2 (overdue_row_of now) selected rows
    /\ StronglySorted (fun a b => nulls_first_le (od_last a) (od_last b)) rows
    /\ (never_contacted_is_null d ->
        forall c, In c (contacts d) -> interactions_of (Contact.id c) d = [] ->
                  In c selected).
Proof.
  intros Hparse Hdays Hcutoff.
  set (cutoff := now - days * Pg.USECS_PER_DAY) in *.
  destruct (overdue_rows_exact now cutoff d)
    as (selected & others & Hperm & Hsel & Hoth & Hrows & Hsorted).
  eexists. exists selected, others.
  split; [|split; [exact Hperm|split; [exact Hsel|split; [exact Hoth|
           split; [exact Hrows|split; [exact Hsorted|]]]]]].
  - unfold get_contacts_overdue. rewrite Hparse. unfold interval_days.
    rewrite Hdays. unfold timestamp_minus_days. fold cutoff. rewrite Hcutoff.
    reflexivity.
  - intros Hnull c Hin Hnone.
    assert (Hc : In c (selected ++ others)%list)
      by (eapply Permutation_in; [symmetry; exact Hperm | exact Hin]).
    apply in_app_or in Hc. destruct Hc as [Hc|Hc]; [exact Hc|].
    exfalso. rewrite List.Forall_forall in Hoth. apply (Hoth c Hc).
    left. now apply Hnull.
Qed.

Lemma overdue_list_witness :
  exists rows selected others,
    get_contacts_overdue (45 * Pg.USECS_PER_DAY) "30" sample_db_with_lisa = Success 200 rows
    /\ Permutation (selected ++ others) (contacts sample_db_with_lisa)
    /\ Forall (overdue_at (45 * Pg.USECS_PER_DAY - 30 * Pg.USECS_PER_DAY)) selected
    /\ Forall (fun c => ~ overdue_at (45 * Pg.USECS_PER_DAY - 30 * Pg.USECS_PER_DAY) c)
              others
    /\ Forall2 (overdue_row_of (45 * Pg.USECS_PER_DAY)) selected rows
    /\ StronglySorted (fun a b => nulls_first_le (od_last a) (od_last b)) rows
    /\ (never_contacted_is_null sample_db_with_lisa ->
        forall c, In c (contacts sample_db_with_lisa) ->
                  interactions_of (Contact.id c) sample_db_with_lisa = [] ->
                  In c selected).
Proof.
  apply (overdue_list_is_exact_and_ordered (45 * Pg.USECS_PER_DAY) "30" 30
           sample_db_with_lisa).
  - vm_compute. reflexivity.
  - vm_compute. reflexivity.
  - vm_compute. reflexivity.
Defined.

(** The same request and one with the threshold 40, by evaluation: the
    contact never contacted comes first and is in both answers. *)
Example overdue_after_45_days :
  let names_and_days (r : response (list overdue_row)) :=
    match r with
    | Success _ rows => map (fun r => (cr_name (od_contact r), days_since_contact r)) rows
    | Failure _ _ => []
    end in
  names_and_days (get_contacts_overdue (45 * Pg.USECS_PER_DAY) "30" sample_db_with_lisa)
  = [("Lisa Tran", None); ("Bob", Some 42); ("Alice", Some 35)]
  /\ names_and_days (get_contacts_overdue (45 * Pg.USECS_PER_DAY) "40" sample_db_with_lisa)
     = [("Lisa Tran", None); ("Bob", Some 42)].
Proof. vm_compute. split; reflexivity. Qed.

(** ** C7: the recent-interactions feed *)

Lemma filter_key_unique {A} (key : A -> Z) (l : list A) (k : Z) :
  List.NoDup (map key l) -> In k (map key l) ->
  exists a, In a l /\ key a = k /\ List.filter (fun x => k =? key x) l = [a].
Proof.
  induction l as [|x l IH]; simpl; intros Hnd Hin; [contradiction|].
  inversion Hnd as [|? ? Hx Hnd']. subst.
  destruct (Z.eq_dec (key x) k) as [Heq|Hne].
  - exists x. repeat split; [now left | exact Heq |].
    rewrite <- Heq, Z.eqb_refl. f_equal. apply filter_none.
    intros a Ha. apply Z.eqb_neq. intros Hk. apply Hx. rewrite Hk. now apply in_map.
  - destruct Hin as [Hin|Hin]; [contradiction|].
    destruct (IH Hnd' Hin) as (a & Ha & Hk & Hf).
    exists a. repeat split; [now right | exact Hk |].
    assert (E : (k =? key x) = false) by (apply Z.eqb_neq; congruence).
    now rewrite E.
Qed.

Lemma recent_join_rows (d : db) (l : list Interaction.t) :
  List.NoDup (map Contact.id (contacts d)) ->
  List.NoDup (map InteractionType.id (interaction_types d)) ->
  Forall (fun i => In (Interaction.contact_id i) (map Contact.id (contacts d))) l ->
  Forall (fun i => In (Interaction.interaction_type_id i)
                      (map InteractionType.id (interaction_types d))) l ->
  Forall2 (feed_row_of d) l
    (flat_map (fun i => flat_map (fun c => map (recent_columns i c) (types_of d i))
                                 (contacts_of d i)) l).
Proof.
  intros Hc Ht. induction l as [|i l IH]; intros Hfc Hft; simpl; [constructor|].
  inversion Hfc as [|? ? Hic Hfc']. inversion Hft as [|? ? Hit Hft']. subst.
  destruct (filter_key_unique Contact.id (contacts d) _ Hc Hic) as (c & Hcin & Hcid & Hcf).
  destruct (filter_key_unique InteractionType.id (interaction_types d) _ Ht Hit)
    as (t & Htin & Htid & Htf).
  unfold contacts_of, types_of at 1. rewrite Hcf. simpl. unfold types_of at 1.
  rewrite Htf. simpl. constructor; [|now apply IH].
  unfold feed_row_of, recent_columns. simpl. repeat split; eauto.
Qed.

Lemma desc_total (a b : recent_row) :
  (rr_timestamp b <=? rr_timestamp a) = false -> (rr_timestamp a <=? rr_timestamp b) = true.
Proof. intros H. apply Z.leb_gt in H. apply Z.leb_le. lia. Qed.

Lemma desc_trans (a b c : recent_row) :
  (rr_timestamp b <=? rr_timestamp a) = true ->
  (rr_timestamp c <=? rr_timestamp b) = true ->
  (rr_timestamp c <=? rr_timestamp a) = true.
Proof. intros H1 H2. apply Z.leb_le in H1, H2. apply Z.leb_le. lia. Qed.

(** C7 as the specification words it fails: the one row of the feed
    for the limit 1 carries the machine name of the interaction's type,
    "phone_call", where the description of that type is "Voice call". *)
Lemma recent_rows_carry_type_name_not_description :
  exists r t,
    get_interactions_recent "1" sample_db = Success 200 [r]
    /\ rr_id r = 3
    /\ In t (interaction_types sample_db)
    /\ map Interaction.interaction_type_id
         (List.filter (fun i => Interaction.id i =? 3) (interactions sample_db))
       = [InteractionType.id t]
    /\ InteractionType.description t = Some "Voice call"
    /\ rr_type_name r = "phone_call"
    /\ Some (rr_type_name r) <> InteractionType.description t.
Proof.
  exists (mk_recent_row 3 (10 * Pg.USECS_PER_DAY) (Some "outgoing") (Some 300) None
                        "Alice" "phone_call"),
         (InteractionType.mk 1 "phone_call" (Some "Voice call")).
  split; [vm_compute; reflexivity|].
  split; [reflexivity|].
  split; [vm_compute; left; reflexivity|].
  split; [vm_compute; reflexivity|].
  split; [reflexivity|].
  split; [reflexivity|].
  simpl. intros H. discriminate H.
Qed.

(** C7 as the code has it.  On a store whose keys are unique and whose
    interactions refer to a contact and a type, for every positive limit
    N (up to 2^53, where a double still counts in ones)
    list_recent_interactions answers with N
    interactions of the largest occurrence timestamps across all contacts,
    all of them if there are fewer than N, in descending order of occurrence
    timestamp; each row carries the columns of its interaction, the display
    name of the owning contact and the machine name (type_name) of the
    interaction type. *)
Theorem recent_feed_is_the_latest_n
    (limit_param : string) (n : Z) (d : db) :
  consistent d ->
  Js.parseInt limit_param = Js.Fin n ->
  0 < n <= 2 ^ 53 ->
  exists rows rest,
    get_interactions_recent limit_param d = Success 200 rows
    /\ Forall2 (feed_row_of d) (interactions d) (recent_join d)
    /\ Permutation (rows ++ rest) (recent_join d)
    /\ length rows = Nat.min (Z.to_nat n) (length (interactions d))
    /\ StronglySorted (fun a b => rr_timestamp b <= rr_timestamp a) rows
    /\ (forall a b, In a rows -> In b rest -> rr_timestamp b <= rr_timestamp a).
Proof.
  intros Hd Hparse [Hpos Hmax].
  set (leb := fun a b : recent_row => rr_timestamp b <=? rr_timestamp a).
  set (sorted := order_by leb (recent_join d)).
  assert (Hjoin : Forall2 (feed_row_of d) (interactions d) (recent_join d)).
  { apply recent_join_rows; apply Hd. }
  assert (Hsorted : StronglySorted (fun a b => rr_timestamp b <= rr_timestamp a) sorted).
  { apply (StronglySorted_weaken (fun a b => leb a b = true)).
    - intros a b H. now apply Z.leb_le.
    - apply order_by_sorted; [apply desc_total | apply desc_trans]. }
  exists (firstn (Z.to_nat n) sorted), (skipn (Z.to_nat n) sorted).
  repeat split.
  - unfold get_interactions_recent. rewrite Hparse.
    assert (Htruthy : Js.number_truthy (Js.Fin n) = true).
    { simpl. apply negb_true_iff, Z.eqb_neq. lia. }
    rewrite Htruthy. unfold limit_count, Js.text_value.
    assert (Hsafe : (Z.abs n <=? 2 ^ 53) = true) by (apply Z.leb_le; lia).
    rewrite Hsafe.
    assert (Hrange : ((n <=? Pg.INT8_MAX) && (- Pg.INT8_MAX - 1 <=? n)) = true).
    { apply andb_true_intro. split; apply Z.leb_le; unfold Pg.INT8_MAX in *; lia. }
    rewrite Hrange.
    assert (Hneg : (n <? 0) = false) by (apply Z.ltb_ge; lia).
    rewrite Hneg. reflexivity.
  - exact Hjoin.
  - rewrite firstn_skipn. apply order_by_perm.
  - rewrite length_firstn. unfold sorted. rewrite order_by_length.
    assert (Hlen := Hjoin). apply Forall2_length in Hlen. now rewrite Hlen.
  - now apply firstn_sorted.
  - intros a b Ha Hb. apply (firstn_skipn_sorted _ (Z.to_nat n) sorted Hsorted a b Ha Hb).
Qed.

Lemma consistent_sample_db : consistent sample_db.
Proof.
  constructor.
  - vm_compute. repeat (constructor; [intros H; repeat (destruct H as [H|H]; [discriminate H|]);
                                      exact H|]). constructor.
  - apply List.Forall_forall. intros c Hin. vm_compute in Hin.
    repeat (destruct Hin as [<-|Hin]; [vm_compute; intros H; discriminate H|]).
    destruct Hin.
  - vm_compute. repeat (constructor; [intros H; repeat (destruct H as [H|H]; [discriminate H|]);
                                      exact H|]). constructor.
  - apply List.Forall_forall. intros i Hin. vm_compute in Hin.
    repeat (destruct Hin as [<-|Hin]; [vm_compute; intros H; discriminate H|]).
    destruct Hin.
  - apply List.Forall_forall. intros i Hin. vm_compute in Hin.
    repeat (destruct Hin as [<-|Hin]; [vm_compute; tauto|]).
    destruct Hin.
  - apply List.Forall_forall. intros i Hin. vm_compute in Hin.
    repeat (destruct Hin as [<-|Hin]; [vm_compute; tauto|]).
    destruct Hin.
Qed.

Lemma recent_feed_witness :
  exists rows rest,
    get_interactions_recent "2" sample_db = Success 200 rows
    /\ Forall2 (feed_row_of sample_db) (interactions sample_db) (recent_join sample_db)
    /\ Permutation (rows ++ rest) (recent_join sample_db)
    /\ length rows = Nat.min (Z.to_nat 2) (length (interactions sample_db))
    /\ StronglySorted (fun a b => rr_timestamp b <= rr_timestamp a) rows
    /\ (forall a b, In a rows -> In b rest -> rr_timestamp b <= rr_timestamp a).
Proof.
  apply (recent_feed_is_the_latest_n "2" 2 sample_db).
  - apply consistent_sample_db.
  - vm_compute. reflexivity.
  - vm_compute. split; [reflexivity | intros H; discriminate H].
Defined.

(** Three interactions on the days 0, 3 and 10 and the limit 2: the two
    latest, the later one first. *)
Example recent_two_of_three :
  get_interactions_recent "2" sample_db
  = Success 200
      [ mk_recent_row 3 (10 * Pg.USECS_PER_DAY) (Some "outgoing") (Some 300) None
                      "Alice" "phone_call";
        mk_recent_row 2 (3 * Pg.USECS_PER_DAY) (Some "outgoing") (Some 300) None
                      "Bob" "phone_call" ].
Proof. vm_compute. reflexivity. Qed.

(** ** The constraints of the schema hold in every state the API reaches *)

Lemma insert_contact_sequences (now : Z) (name rel phone email : option string) (d : db) :
  contacts_id_seq d <= contacts_id_seq (fst (insert_contact now name rel phone email d))
  /\ interactions_id_seq (fst (insert_contact now name rel phone email d))
     = interactions_id_seq d.
Proof.
  unfold insert_contact, bind, check, nextval_contacts, add_contact, ret, serial,
    not_null.
  run_statement; split; try reflexivity; lia.
Qed.

Lemma insert_interaction_sequences (now cid tid : Z) (direction : option string)
    (timestamp : Z) (duration subject : option string) (d : db) :
  interactions_id_seq d
  <= interactions_id_seq
       (fst (insert_interaction now cid tid direction timestamp duration subject d))
  /\ contacts_id_seq
       (fst (insert_interaction now cid tid direction timestamp duration subject d))
     = contacts_id_seq d.
Proof.
  unfold insert_interaction, bind, check, nextval_interactions, add_interaction, ret,
    serial.
  run_statement; split; try reflexivity; lia.
Qed.

Lemma get_or_create_contact_sequences (now : Z) (contact_name : Js.value) (d : db) :
  contacts_id_seq d <= contacts_id_seq (fst (get_or_create_contact now contact_name d))
  /\ interactions_id_seq (fst (get_or_create_contact now contact_name d))
     = interactions_id_seq d.
Proof.
  unfold get_or_create_contact, bind, select_contact_id_by_name.
  destruct (List.filter _ (contacts d)); simpl.
  - apply insert_contact_sequences.
  - split; [lia | reflexivity].
Qed.

(** Sequences only count up, also through a request that is rolled back. *)
Lemma post_interactions_sequences (now : Z) (body : gmap string Js.value) (d : db) :
  contacts_id_seq d <= contacts_id_seq (fst (post_interactions now body d))
  /\ interactions_id_seq d <= interactions_id_seq (fst (post_interactions now body d)).
Proof.
  unfold post_interactions.
  destruct (negb _ || negb _); [simpl; lia|].
  unfold respond, transaction.
  pose proof (get_or_create_contact_sequences now (Js.get body "contact_name") d) as H1.
  destruct (get_or_create_contact now _ d) as [d1 [msg|cid]] eqn:E1; cbn [fst] in H1.
  { rewrite (bind_inl _ _ _ _ _ E1). simpl. lia. }
  rewrite (bind_inr _ _ _ _ _ E1).
  pose proof (look_up_interaction_type_cases (Js.get body "interaction_type") d1) as H2.
  destruct (look_up_interaction_type _ d1) as [d2 [msg|tid]] eqn:E2.
  { rewrite (bind_inl _ _ _ _ _ E2). destruct H2 as [-> _]. simpl. lia. }
  rewrite (bind_inr _ _ _ _ _ E2). destruct H2 as [-> _].
  match goal with
  | |- context [bind (insert_interaction ?a ?b ?c ?e ?f ?g ?h) _ d1] =>
      pose proof (insert_interaction_sequences a b c e f g h d1) as H3;
      destruct (insert_interaction a b c e f g h d1) as [d3 [msg|i]] eqn:E3
  end; cbn [fst] in H3.
  { rewrite (bind_inl _ _ _ _ _ E3). simpl. lia. }
  rewrite (bind_inr _ _ _ _ _ E3). unfold bind, touch_contact, ret. simpl. lia.
Qed.

Lemma consistent_seeded_db : consistent seeded_db.
Proof.
  constructor.
  - vm_compute. constructor.
  - vm_compute. constructor.
  - vm_compute.
    repeat (constructor; [intros H; repeat (destruct H as [H|H]; [discriminate H|]);
                          exact H|]).
    constructor.
  - vm_compute. constructor.
  - vm_compute. constructor.
  - vm_compute. constructor.
Qed.

Lemma post_interactions_keeps_consistent
    (now : Z) (body : gmap string Js.value) (d : db) :
  consistent d -> consistent (fst (post_interactions now body d)).
Proof.
  intros [Hcp Hcs Htp His Hfc Hft].
  destruct (post_interactions_sequences now body d) as [Hsc Hsi].
  destruct (post_interactions_cases now body d)
    as [[(Hc & Ht & Hi) _] |
        (i & created & _ & _ & Hid & Hfresh & Hcreated & Htype & Hc & Ht & Hi & Hseqc & Hseqi)].
  - constructor; rewrite ?Hc, ?Ht, ?Hi; try assumption.
    + eapply List.Forall_impl; [|exact Hcs]. simpl. intros; lia.
    + eapply List.Forall_impl; [|exact His]. simpl. intros; lia.
  - assert (Hids : map Contact.id (contacts (fst (post_interactions now body d)))
                   = (map Contact.id (contacts d) ++ map Contact.id created)%list).
    { rewrite Hc, map_map, <- map_app. apply map_ext.
      intros c. apply set_last_interaction_date_id. }
    assert (Hcid : In (Interaction.contact_id i)
                      (map Contact.id (contacts d) ++ map Contact.id created)).
    { destruct Hcreated as [[_ [rest Hsel]] | (_ & name & _ & _ & _ & ->)].
      - apply in_or_app. left.
        assert (Hin : In (Interaction.contact_id i)
                  (map Contact.id
                     (List.filter
                        (fun c => option_eqb (prepareValue (Js.get body "contact_name"))
                                             (Contact.name c)) (contacts d))))
          by (rewrite Hsel; now left).
        apply in_map_iff in Hin. destruct Hin as (c & <- & Hin).
        apply filter_In in Hin. apply in_map, Hin.
      - apply in_or_app. right. now left. }
    constructor; rewrite ?Hids, ?Ht, ?Hi.
    + destruct Hcreated as [[-> _] | (_ & name & _ & _ & Hmem & ->)]; simpl.
      * now rewrite app_nil_r.
      * apply List.NoDup_app.
        { exact Hcp. }
        { repeat constructor. intros []. }
        { intros x Hx [<-|[]]. apply mem_In in Hx. congruence. }
    + rewrite Hc. apply List.Forall_forall. intros c Hin.
      apply in_map_iff in Hin. destruct Hin as (c0 & <- & Hin).
      rewrite set_last_interaction_date_id. apply in_app_or in Hin.
      destruct Hin as [Hin|Hin].
      * rewrite List.Forall_forall in Hcs. specialize (Hcs c0 Hin). simpl in Hcs. lia.
      * destruct Hcreated as [[-> _] | (_ & name & _ & Hnew & _ & ->)];
          [contradiction|].
        destruct Hin as [<-|[]]. simpl. rewrite Hnew, Hseqc. simpl. lia.
    + exact Htp.
    + apply List.Forall_forall. intros j Hin. apply in_app_or in Hin.
      destruct Hin as [Hin|[<-|[]]].
      * rewrite List.Forall_forall in His. specialize (His j Hin). simpl in His. lia.
      * lia.
    + apply List.Forall_forall. intros j Hin. apply in_app_or in Hin.
      destruct Hin as [Hin|[<-|[]]].
      * rewrite List.Forall_forall in Hfc. apply in_or_app. left. now apply Hfc.
      * exact Hcid.
    + apply List.Forall_forall. intros j Hin. apply in_app_or in Hin.
      destruct Hin as [Hin|[<-|[]]].
      * rewrite List.Forall_forall in Hft. now apply Hft.
      * destruct Htype as (t & Htin & <- & _). now apply in_map.
Qed.

(** Every state reached from the seeded database by record-interaction
    requests keeps the constraints. *)
Lemma record_all_consistent (reqs : list request) (d : db) :
  consistent d -> consistent (record_all reqs d).
Proof.
  revert d. induction reqs as [|[t body] reqs IH]; intros d Hd; simpl.
  - exact Hd.
  - apply IH. now apply post_interactions_keeps_consistent.
Qed.

(** ** C10: a limit that is zero or not a number *)

(** The first [n] rows of the feed of a store that keeps its keys: one row
    for each interaction before the cut, the [n] latest kept. *)
Lemma recent_cut (n : nat) (d : db) :
  consistent d ->
  exists rest,
    Forall2 (feed_row_of d) (interactions d) (recent_join d)
    /\ Permutation
         (firstn n (order_by (fun a b => rr_timestamp b <=? rr_timestamp a)
                             (recent_join d)) ++ rest)
         (recent_join d)
    /\ length (firstn n (order_by (fun a b => rr_timestamp b <=? rr_timestamp a)
                                  (recent_join d)))
       = Nat.min n (length (interactions d))
    /\ StronglySorted (fun a b => rr_timestamp b <= rr_timestamp a)
         (firstn n (order_by (fun a b => rr_timestamp b <=? rr_timestamp a)
                             (recent_join d)))
    /\ (forall a b,
          In a (firstn n (order_by (fun a b => rr_timestamp b <=? rr_timestamp a)
                                   (recent_join d))) ->
          In b rest -> rr_timestamp b <= rr_timestamp a).
Proof.
  intros Hd.
  set (leb := fun a b : recent_row => rr_timestamp b <=? rr_timestamp a).
  set (sorted := order_by leb (recent_join d)).
  assert (Hjoin : Forall2 (feed_row_of d) (interactions d) (recent_join d)).
  { apply recent_join_rows; apply Hd. }
  assert (Hsorted : StronglySorted (fun a b => rr_timestamp b <= rr_timestamp a) sorted).
  { apply (StronglySorted_weaken (fun a b => leb a b = true)).
    - intros a b H. now apply Z.leb_le.
    - apply order_by_sorted; [apply desc_total | apply desc_trans]. }
  exists (skipn n sorted). split; [exact Hjoin|]. split; [|split; [|split]].
  - rewrite firstn_skipn. apply order_by_perm.
  - rewrite length_firstn. unfold sorted. rewrite order_by_length.
    assert (Hlen := Hjoin). apply Forall2_length in Hlen. now rewrite Hlen.
  - now apply firstn_sorted.
  - intros a b Ha Hb. apply (firstn_skipn_sorted _ n sorted Hsorted a b Ha Hb).
Qed.

(** C10.  When the limit of list_recent_interactions parses to 0 or does
    not parse to a number, the request is not rejected: the handler
    answers 200 with the 10 most recent interactions, all of them where
    the store has fewer.  On a store that keeps its keys the answer has
    one row for each of 10 interactions, with the interaction's columns
    and the names of its contact and type, in descending order of
    occurrence, and no interaction left out is more recent than one in the
    answer. *)
Theorem recent_limit_zero_or_not_a_number_means_10 (limit_param : string) (d : db) :
  consistent d ->
  Js.parseInt limit_param = Js.NaN \/ Js.parseInt limit_param = Js.Fin 0 ->
  exists rows rest,
    get_interactions_recent limit_param d = Success 200 rows
    /\ Forall2 (feed_row_of d) (interactions d) (recent_join d)
    /\ Permutation (rows ++ rest) (recent_join d)
    /\ length rows = Nat.min 10 (length (interactions d))
    /\ StronglySorted (fun a b => rr_timestamp b <= rr_timestamp a) rows
    /\ (forall a b, In a rows -> In b rest -> rr_timestamp b <= rr_timestamp a).
Proof.
  intros Hd H.
  destruct (recent_cut 10 d Hd) as (rest & Hjoin & Hperm & Hlen & Hsorted & Hcut).
  exists (firstn 10 (order_by (fun a b => rr_timestamp b <=? rr_timestamp a)
                              (recent_join d))), rest.
  split; [|split; [exact Hjoin|split; [exact Hperm|split; [exact Hlen|
           split; [exact Hsorted|exact Hcut]]]]].
  unfold get_interactions_recent. destruct H as [-> | ->]; reflexivity.
Qed.

Lemma consistent_busy_db : consistent busy_db.
Proof. apply record_all_consistent, consistent_seeded_db. Qed.

Lemma recent_limit_witness :
  exists rows rest,
    get_interactions_recent "abc" busy_db = Success 200 rows
    /\ Forall2 (feed_row_of busy_db) (interactions busy_db) (recent_join busy_db)
    /\ Permutation (rows ++ rest) (recent_join busy_db)
    /\ length rows = Nat.min 10 (length (interactions busy_db))
    /\ StronglySorted (fun a b => rr_timestamp b <= rr_timestamp a) rows
    /\ (forall a b, In a rows -> In b rest -> rr_timestamp b <= rr_timestamp a).
Proof.
  apply (recent_limit_zero_or_not_a_number_means_10 "abc" busy_db).
  - apply consistent_busy_db.
  - left. vm_compute. reflexivity.
Defined.

(** Twelve interactions on the days 0 to 11 and a limit that is not a
    number: the ten of the days 11 down to 2. *)
Example recent_limit_takes_ten_of_twelve :
  length (interactions busy_db) = 12%nat
  /\ map rr_timestamp
       match get_interactions_recent "abc" busy_db with
       | Success _ rows => rows
       | Failure _ _ => []
       end
     = map (fun k => Z.of_nat k * Pg.USECS_PER_DAY) [11; 10; 9; 8; 7; 6; 5; 4; 3; 2]%nat.
Proof. vm_compute. split; reflexivity. Qed.

Example recent_limit_zero :
  Js.parseInt "0" = Js.Fin 0 /\ Js.parseInt "-0" = Js.Fin 0
  /\ Js.parseInt "ten" = Js.NaN
  /\ map rr_timestamp
       match get_interactions_recent "0" sample_db with
       | Success _ rows => rows
       | Failure _ _ => []
       end
     = [10 * Pg.USECS_PER_DAY; 3 * Pg.USECS_PER_DAY; 0].
Proof. vm_compute. repeat split; reflexivity. Qed.

(** * Further properties of the handlers *)

(** ** Ordering and selection commute *)

Section SortFilter.
Context {A : Type} (leb : A -> A -> bool) (p : A -> bool).
Hypothesis leb_total : forall x y, leb x y = false -> leb y x = true.
Hypothesis leb_trans : forall x y z, leb x y = true -> leb y z = true -> leb x z = true.

Lemma insert_sorted_first (x : A) (l : list A) :
  (forall y, In y l -> leb x y = true) -> insert_sorted leb x l = x :: l.
Proof.
  destruct l as [|y l]; simpl; intros H; [reflexivity|].
  now rewrite (H y) by now left.
Qed.

Lemma filter_insert_sorted (x : A) (l : list A) :
  StronglySorted (fun a b => leb a b = true) l ->
  List.filter p (insert_sorted leb x l)
  = if p x then insert_sorted leb x (List.filter p l) else List.filter p l.
Proof using leb_trans.
  induction 1 as [|y l Hs IH Hy]; simpl.
  - now destruct (p x).
  - destruct (leb x y) eqn:E; simpl.
    + destruct (p x) eqn:Px; [|reflexivity].
      symmetry. apply insert_sorted_first.
      intros h Hh.
      assert (Hin : In h (y :: l)).
      { destruct (p y); [destruct Hh as [<-|Hh]; [now left|]|];
          right; apply filter_In in Hh; apply Hh. }
      destruct Hin as [<-|Hin]; [exact E|].
      rewrite List.Forall_forall in Hy. eauto.
    + rewrite IH. destruct (p y), (p x); simpl; try reflexivity.
      now rewrite E.
Qed.

Lemma filter_order_by (l : list A) :
  List.filter p (order_by leb l) = order_by leb (List.filter p l).
Proof using leb_total leb_trans.
  induction l as [|x l IH]; simpl; [reflexivity|].
  rewrite filter_insert_sorted by now apply order_by_sorted.
  rewrite IH. now destruct (p x).
Qed.
End SortFilter.

Lemma filter_map_comm {A B} (f : A -> B) (q : B -> bool) (l : list A) :
  List.filter q (map f l) = map f (List.filter (fun a => q (f a)) l).
Proof.
  induction l as [|a l IH]; simpl; [reflexivity|].
  rewrite IH. now destruct (q (f a)).
Qed.

Lemma filter_filter {A} (p q : A -> bool) (l : list A) :
  List.filter p (List.filter q l) = List.filter (fun a => p a && q a) l.
Proof.
  induction l as [|a l IH]; simpl; [reflexivity|].
  destruct (q a) eqn:Q; simpl; destruct (p a) eqn:P; simpl; rewrite IH; reflexivity.
Qed.

(** ** GET /api/contacts *)

Lemma desc_nulls_last_total (a b : option Z) :
  desc_nulls_last a b = false -> desc_nulls_last b a = true.
Proof.
  destruct a as [x|], b as [y|]; simpl; intros H; try reflexivity; try discriminate.
  apply Z.leb_gt in H. apply Z.leb_le. lia.
Qed.

Lemma desc_nulls_last_trans (a b c : option Z) :
  desc_nulls_last a b = true -> desc_nulls_last b c = true -> desc_nulls_last a c = true.
Proof.
  destruct a as [x|], b as [y|], c as [z|]; simpl; intros H1 H2;
    try reflexivity; try discriminate.
  apply Z.leb_le in H1, H2. apply Z.leb_le. lia.
Qed.

Lemma desc_nulls_last_ge (a b : option Z) :
  desc_nulls_last a b = true -> nulls_last_ge a b.
Proof.
  destruct a as [x|], b as [y|]; simpl; intros H; try exact I; try discriminate.
  now apply Z.leb_le.
Qed.

Lemma contact_columns_row (l : list Contact.t) :
  Forall2 contact_row_of l (map contact_columns l).
Proof.
  induction l as [|c l IH]; simpl; constructor; [|exact IH].
  unfold contact_row_of, contact_columns. simpl. repeat split.
Qed.

(** X1.  The contact list holds one row for every contact of the store
    and no other row; a row has the id, name, phone number, email,
    relationship and last-interaction timestamp of its contact; the most
    recently contacted come first and the never-contacted last. *)
Theorem contact_list_is_complete_and_ordered (d : db) :
  exists rows cs,
    get_contacts d = Success 200 rows
    /\ Permutation cs (contacts d)
    /\ Forall2 contact_row_of cs rows
    /\ StronglySorted
         (fun a b => nulls_last_ge (cr_last_interaction_date a) (cr_last_interaction_date b))
         rows.
Proof.
  set (leb := fun a b => desc_nulls_last (cr_last_interaction_date a)
                                         (cr_last_interaction_date b)).
  destruct (Permutation_map_inv contact_columns _
              (order_by_perm leb (map contact_columns (contacts d))))
    as (cs & Heq & Hperm).
  exists (order_by leb (map contact_columns (contacts d))), cs.
  split; [reflexivity|]. split; [now symmetry|]. split.
  - rewrite Heq. apply contact_columns_row.
  - apply (StronglySorted_weaken (fun a b => leb a b = true)).
    + intros a b. apply desc_nulls_last_ge.
    + apply order_by_sorted.
      * intros x y. apply desc_nulls_last_total.
      * intros x y z. apply desc_nulls_last_trans.
Qed.

(** ** GET /api/contacts/:id *)

Lemma filter_by_id_unique (d : db) (c : Contact.t) :
  List.NoDup (map Contact.id (contacts d)) -> In c (contacts d) ->
  List.filter (fun x => Contact.id x =? Contact.id c) (contacts d) = [c].
Proof.
  intros Hnd Hin.
  destruct (filter_key_unique Contact.id (contacts d) (Contact.id c) Hnd (in_map _ _ _ Hin))
    as (a & Ha & Hid & Hf).
  rewrite (filter_ext _ (fun x => Contact.id c =? Contact.id x))
    by (intros x; apply Z.eqb_sym).
  rewrite Hf. f_equal.
  assert (Hc : In c (List.filter (fun x => Contact.id c =? Contact.id x) (contacts d)))
    by (apply filter_In; split; [exact Hin | apply Z.eqb_refl]).
  rewrite Hf in Hc. destruct Hc as [Hc|[]]. exact Hc.
Qed.

Lemma detail_rows_length (d : db) (l : list Interaction.t) :
  List.NoDup (map InteractionType.id (interaction_types d)) ->
  Forall (fun i => In (Interaction.interaction_type_id i)
                      (map InteractionType.id (interaction_types d))) l ->
  length (flat_map (fun i => map (interaction_columns i) (types_of d i)) l) = length l.
Proof.
  intros Ht. induction 1 as [|i l Hi Hl IH]; simpl; [reflexivity|].
  destruct (filter_key_unique InteractionType.id (interaction_types d) _ Ht Hi)
    as (t & _ & _ & Hf).
  unfold types_of at 1. rewrite Hf. simpl. now rewrite IH.
Qed.

Lemma Forall2_Permutation_r {A B} (R : A -> B -> Prop) (l : list A) (l' rows : list B) :
  Forall2 R l l' -> Permutation l' rows ->
  exists l2, Permutation l2 l /\ Forall2 R l2 rows.
Proof.
  intros H Hperm. revert l H.
  induction Hperm as [|x l1 l2 _ IH|x y t|l1 l2 l3 _ IH1 _ IH2]; intros l H.
  - inversion H. subst. exists []. split; constructor.
  - inversion H as [|a ? la ? Hax Hla]. subst.
    destruct (IH la Hla) as (la2 & Hp & Hf).
    exists (a :: la2). split; [now constructor | now constructor].
  - inversion H as [|a ? la ? Hay Hla]. subst.
    inversion Hla as [|b ? lb ? Hbx Hlb]. subst.
    exists (b :: a :: lb). split; [apply perm_swap|].
    constructor; [exact Hbx|]. constructor; [exact Hay | exact Hlb].
  - destruct (IH1 l H) as (la & Hpa & Hfa).
    destruct (IH2 la Hfa) as (lb & Hpb & Hfb).
    exists lb. split; [now transitivity la | exact Hfb].
Qed.

Lemma detail_join_rows (d : db) (l : list Interaction.t) :
  List.NoDup (map InteractionType.id (interaction_types d)) ->
  Forall (fun i => In (Interaction.interaction_type_id i)
                      (map InteractionType.id (interaction_types d))) l ->
  Forall2 (detail_row_of d) l
    (flat_map (fun i => map (interaction_columns i) (types_of d i)) l).
Proof.
  intros Ht. induction 1 as [|i l Hi Hl IH]; simpl; [constructor|].
  destruct (filter_key_unique InteractionType.id (interaction_types d) _ Ht Hi)
    as (t & Htin & Htid & Hf).
  unfold types_of at 1. rewrite Hf. simpl. constructor; [|exact IH].
  unfold detail_row_of, interaction_columns. simpl.
  do 6 (split; [reflexivity|]). exists t. repeat split; assumption.
Qed.

(** X2.  For the id of a contact of the store, contact details answers
    200 with that contact (all its columns) and with one row for each of
    the contact's interactions and no other row; a row carries the id,
    timestamp, direction, duration, subject and notes of its interaction
    and the name of the interaction's type; the latest comes first. *)
Theorem contact_details_of_an_existing_contact
    (id_param : string) (d : db) (c : Contact.t) :
  consistent d ->
  Pg.int4in id_param = Some (Contact.id c) ->
  In c (contacts d) ->
  exists rows shown,
    get_contact id_param d = Success 200 (mk_contact_details c rows)
    /\ Permutation shown (interactions_of (Contact.id c) d)
    /\ Forall2 (detail_row_of d) shown rows
    /\ StronglySorted (fun a b => ir_timestamp b <= ir_timestamp a) rows.
Proof.
  intros Hd Hparse Hin.
  set (leb := fun a b : interaction_row => ir_timestamp b <=? ir_timestamp a).
  set (joined := flat_map (fun i => map (interaction_columns i) (types_of d i))
                          (interactions_of (Contact.id c) d)).
  assert (Hjoin : Forall2 (detail_row_of d) (interactions_of (Contact.id c) d) joined).
  { apply detail_join_rows; [apply Hd|].
    apply List.Forall_forall. intros i Hi. apply filter_In in Hi.
    pose proof (interactions_interaction_type_id_fkey d Hd) as Hfk.
    rewrite List.Forall_forall in Hfk. apply Hfk, Hi. }
  destruct (Forall2_Permutation_r _ _ _ (order_by leb joined) Hjoin)
    as (shown & Hperm & Hrows).
  { symmetry. apply order_by_perm. }
  exists (order_by leb joined), shown. split; [|split; [exact Hperm|split; [exact Hrows|]]].
  - unfold get_contact. rewrite Hparse.
    rewrite (filter_by_id_unique d c (contacts_pkey d Hd) Hin). reflexivity.
  - apply (StronglySorted_weaken (fun a b => leb a b = true)).
    + intros a b H. now apply Z.leb_le.
    + apply order_by_sorted.
      * intros x y H. apply Z.leb_gt in H. apply Z.leb_le. lia.
      * intros x y z H1 H2. apply Z.leb_le in H1, H2. apply Z.leb_le. lia.
Qed.

Lemma contact_details_witness :
  exists rows shown,
    get_contact "1" sample_db
    = Success 200
        (mk_contact_details
           (Contact.mk 1 "Alice" None None (Some "unknown") (Some (10 * Pg.USECS_PER_DAY))
                       (Some 0) (Some (10 * Pg.USECS_PER_DAY)))
           rows)
    /\ Permutation shown
         (interactions_of
            (Contact.id (Contact.mk 1 "Alice" None None (Some "unknown")
                           (Some (10 * Pg.USECS_PER_DAY)) (Some 0)
                           (Some (10 * Pg.USECS_PER_DAY))))
            sample_db)
    /\ Forall2 (detail_row_of sample_db) shown rows
    /\ StronglySorted (fun a b => ir_timestamp b <= ir_timestamp a) rows.
Proof.
  apply (contact_details_of_an_existing_contact "1" sample_db
           (Contact.mk 1 "Alice" None None (Some "unknown") (Some (10 * Pg.USECS_PER_DAY))
                       (Some 0) (Some (10 * Pg.USECS_PER_DAY)))).
  - apply consistent_sample_db.
  - vm_compute. reflexivity.
  - vm_compute. left. reflexivity.
Defined.

(** ** GET /api/contacts/overdue/:days and GET /api/interactions/recent/:limit,
    as their parameter varies *)

Lemma overdue_answer (now : Z) (days_param : string) (days : Z) (d : db) :
  Js.parseInt days_param = Js.Fin days ->
  Pg.in_int4 days = true ->
  Pg.valid_timestamp (now - days * Pg.USECS_PER_DAY) = true ->
  get_contacts_overdue now days_param d
  = Success 200
      (order_by (fun a b => asc_nulls_first (od_last a) (od_last b))
         (map (overdue_columns now)
              (List.filter (overdue (now - days * Pg.USECS_PER_DAY)) (contacts d)))).
Proof.
  intros Hparse Hdays Hcutoff.
  unfold get_contacts_overdue. rewrite Hparse. unfold interval_days.
  rewrite Hdays. unfold timestamp_minus_days. rewrite Hcutoff. reflexivity.
Qed.

Lemma overdue_rows_as_filter (now cutoff : Z) (d : db) :
  order_by (fun a b => asc_nulls_first (od_last a) (od_last b))
    (map (overdue_columns now) (List.filter (overdue cutoff) (contacts d)))
  = List.filter (row_overdue cutoff)
      (order_by (fun a b => asc_nulls_first (od_last a) (od_last b))
         (map (overdue_columns now) (contacts d))).
Proof.
  rewrite filter_order_by.
  - f_equal. rewrite filter_map_comm. reflexivity.
  - intros x y. apply asc_nulls_first_total.
  - intros x y z. apply asc_nulls_first_trans.
Qed.

(** X4.  Raising the threshold of the overdue list only removes rows: the
    answer for the larger threshold holds the rows of the answer for the
    smaller one without the contacts that are not overdue at the larger
    threshold. *)
Theorem overdue_list_shrinks_as_threshold_grows
    (now : Z) (param1 param2 : string) (days1 days2 : Z) (d : db) :
  Js.parseInt param1 = Js.Fin days1 ->
  Js.parseInt param2 = Js.Fin days2 ->
  Pg.in_int4 days1 = true -> Pg.in_int4 days2 = true ->
  Pg.valid_timestamp (now - days1 * Pg.USECS_PER_DAY) = true ->
  Pg.valid_timestamp (now - days2 * Pg.USECS_PER_DAY) = true ->
  days1 <= days2 ->
  exists rows1 rows2,
    get_contacts_overdue now param1 d = Success 200 rows1
    /\ get_contacts_overdue now param2 d = Success 200 rows2
    /\ Permutation rows2
         (List.filter (row_overdue (now - days2 * Pg.USECS_PER_DAY)) rows1).
Proof.
  intros Hp1 Hp2 Hd1 Hd2 Hc1 Hc2 Hle.
  rewrite (overdue_answer now param1 days1 d Hp1 Hd1 Hc1).
  rewrite (overdue_answer now param2 days2 d Hp2 Hd2 Hc2).
  eexists. eexists. split; [reflexivity|]. split; [reflexivity|].
  rewrite !overdue_rows_as_filter, filter_filter.
  apply Permutation_refl'.
  apply filter_ext. intros r. unfold row_overdue.
  destruct (od_last r) as [t|]; [|reflexivity].
  destruct (t <? now - days2 * Pg.USECS_PER_DAY) eqn:E; [|reflexivity].
  apply Z.ltb_lt in E. symmetry. simpl. apply Z.ltb_lt.
  unfold Pg.USECS_PER_DAY in *. lia.
Qed.

Lemma overdue_list_shrinks_witness :
  exists rows1 rows2,
    get_contacts_overdue (45 * Pg.USECS_PER_DAY) "30" sample_db_with_lisa = Success 200 rows1
    /\ get_contacts_overdue (45 * Pg.USECS_PER_DAY) "40" sample_db_with_lisa
       = Success 200 rows2
    /\ Permutation rows2
         (List.filter (row_overdue (45 * Pg.USECS_PER_DAY - 40 * Pg.USECS_PER_DAY)) rows1).
Proof.
  apply (overdue_list_shrinks_as_threshold_grows (45 * Pg.USECS_PER_DAY) "30" "40" 30 40
           sample_db_with_lisa); try (vm_compute; reflexivity).
  lia.
Defined.

Lemma recent_answer (limit_param : string) (n : Z) (d : db) :
  Js.parseInt limit_param = Js.Fin n ->
  0 < n <= 2 ^ 53 ->
  get_interactions_recent limit_param d
  = Success 200
      (firstn (Z.to_nat n)
         (order_by (fun a b => rr_timestamp b <=? rr_timestamp a) (recent_join d))).
Proof.
  intros Hparse [Hpos Hmax].
  unfold get_interactions_recent. rewrite Hparse.
  assert (Htruthy : Js.number_truthy (Js.Fin n) = true).
  { simpl. apply negb_true_iff, Z.eqb_neq. lia. }
  rewrite Htruthy. unfold limit_count, Js.text_value.
  assert (Hsafe : (Z.abs n <=? 2 ^ 53) = true) by (apply Z.leb_le; lia).
  rewrite Hsafe.
  assert (Hrange : ((n <=? Pg.INT8_MAX) && (- Pg.INT8_MAX - 1 <=? n)) = true).
  { apply andb_true_intro. split; apply Z.leb_le; unfold Pg.INT8_MAX in *; lia. }
  rewrite Hrange.
  assert (Hneg : (n <? 0) = false) by (apply Z.ltb_ge; lia).
  rewrite Hneg. reflexivity.
Qed.

(** X5.  Where no two interactions have the same occurrence time, the
    recent feed for a smaller limit is the beginning of the feed for a
    larger one: raising the limit only appends older interactions. *)
Theorem recent_feed_grows_at_the_end
    (param1 param2 : string) (n m : Z) (d : db) :
  List.NoDup (map Interaction.timestamp (interactions d)) ->
  Js.parseInt param1 = Js.Fin n ->
  Js.parseInt param2 = Js.Fin m ->
  0 < n -> n <= m -> m <= 2 ^ 53 ->
  exists rows,
    get_interactions_recent param2 d = Success 200 rows
    /\ get_interactions_recent param1 d = Success 200 (firstn (Z.to_nat n) rows).
Proof.
  intros _ Hp1 Hp2 Hpos Hle Hmax.
  eexists. split; [apply (recent_answer param2 m); [exact Hp2 | lia]|].
  rewrite (recent_answer param1 n) by (try exact Hp1; lia).
  f_equal. rewrite firstn_firstn. f_equal. lia.
Qed.

Lemma recent_feed_grows_witness :
  exists rows,
    get_interactions_recent "3" sample_db = Success 200 rows
    /\ get_interactions_recent "1" sample_db = Success 200 (firstn (Z.to_nat 1) rows).
Proof.
  apply (recent_feed_grows_at_the_end "1" "3" 1 3 sample_db).
  - replace (map Interaction.timestamp (interactions sample_db))
      with [0; 3 * Pg.USECS_PER_DAY; 10 * Pg.USECS_PER_DAY]
      by (vm_compute; reflexivity).
    repeat constructor; simpl; unfold Pg.USECS_PER_DAY; lia.
  - vm_compute. reflexivity.
  - vm_compute. reflexivity.
  - lia.
  - lia.
  - lia.
Defined.

(** X6.  A negative limit is neither replaced by the default nor refused
    as a bad request: the query runs with it, the database rejects it and
    the recent feed answers 500. *)
Theorem recent_feed_negative_limit_is_a_server_error
    (limit_param : string) (n : Z) (d : db) :
  Js.parseInt limit_param = Js.Fin n ->
  - 2 ^ 53 <= n < 0 ->
  get_interactions_recent limit_param d = Failure 500 "LIMIT must not be negative".
Proof.
  intros Hparse [Hmin Hneg].
  unfold get_interactions_recent. rewrite Hparse.
  assert (Htruthy : Js.number_truthy (Js.Fin n) = true).
  { simpl. apply negb_true_iff, Z.eqb_neq. lia. }
  rewrite Htruthy. unfold limit_count, Js.text_value.
  assert (Hsafe : (Z.abs n <=? 2 ^ 53) = true) by (apply Z.leb_le; lia).
  rewrite Hsafe.
  assert (Hrange : ((n <=? Pg.INT8_MAX) && (- Pg.INT8_MAX - 1 <=? n)) = true).
  { apply andb_true_intro. split; apply Z.leb_le; unfold Pg.INT8_MAX in *; lia. }
  rewrite Hrange.
  assert (Hlt : (n <? 0) = true) by (apply Z.ltb_lt; lia).
  rewrite Hlt. reflexivity.
Qed.

Lemma recent_feed_negative_limit_witness :
  get_interactions_recent "-5" sample_db = Failure 500 "LIMIT must not be negative".
Proof.
  apply (recent_feed_negative_limit_is_a_server_error "-5" (-5) sample_db).
  - vm_compute. reflexivity.
  - lia.
Defined.

(** ** POST /api/interactions: what is stored *)

(** The row a request answered 201 returns, column by column. *)
Lemma post_interactions_row (now : Z) (body : gmap string Js.value) (d : db)
    (i : Interaction.t) :
  snd (post_interactions now body d) = Success 201 i ->
  exists direction duration subject,
    varchar 20 (prepareValue (Js.or (Js.get body "direction") Js.Null)) = inr direction
    /\ integer (prepareValue (Js.or (Js.get body "duration_seconds") Js.Null))
       = inr duration
    /\ varchar 255 (prepareValue (Js.or (Js.get body "subject") Js.Null)) = inr subject
    /\ i = Interaction.mk (Interaction.id i) (Interaction.contact_id i)
                          (Interaction.interaction_type_id i)
                          direction now duration subject None (Some now).
Proof.
  unfold post_interactions.
  destruct (negb _ || negb _) eqn:Hreq; [discriminate|].
  unfold respond, transaction.
  destruct (get_or_create_contact now (Js.get body "contact_name") d)
    as [d1 [msg|cid]] eqn:E1.
  { rewrite (bind_inl _ _ _ _ _ E1). discriminate. }
  rewrite (bind_inr _ _ _ _ _ E1).
  destruct (look_up_interaction_type (Js.get body "interaction_type") d1)
    as [d2 [msg|tid]] eqn:E2.
  { rewrite (bind_inl _ _ _ _ _ E2). discriminate. }
  rewrite (bind_inr _ _ _ _ _ E2).
  match goal with
  | |- context [bind (insert_interaction ?a ?b ?c ?e ?f ?g ?h) _ d2] =>
      pose proof (insert_interaction_cases a b c e f g h d2) as H3;
      destruct (insert_interaction a b c e f g h d2) as [d3 [msg|j]] eqn:E3
  end.
  { rewrite (bind_inl _ _ _ _ _ E3). discriminate. }
  rewrite (bind_inr _ _ _ _ _ E3).
  destruct H3 as (dir & dur & subj & Hdir & Hdur & Hsubj & Hj & _).
  unfold bind, touch_contact, ret. simpl. intros Hok. inversion Hok. subst i.
  exists dir, dur, subj. repeat split; try assumption.
  rewrite Hj. reflexivity.
Qed.

Lemma prepareValue_or_falsy (v : Js.value) :
  Js.truthy v = false -> prepareValue (Js.or v Js.Null) = None.
Proof. intros H. unfold Js.or. now rewrite H. Qed.

Lemma prepareValue_or_string (s : string) :
  s <> "" -> prepareValue (Js.or (Js.Str s) Js.Null) = Some s.
Proof.
  intros H. unfold Js.or. simpl.
  destruct (String.eqb s "") eqn:E; [apply String.eqb_eq in E; contradiction|].
  reflexivity.
Qed.

(** X7.  Of a request answered 201 the handler stores: the occurrence and
    the creation time of the request's clock reading; no notes, whatever
    the body holds; NULL for a direction, duration or subject that is
    absent or falsy (an empty text, the number 0); and a direction of at
    most 20 characters and a subject of at most 255 as they are given.
    The row it answers with is the row in the table. *)
Theorem recorded_interaction_columns
    (now : Z) (body : gmap string Js.value) (d : db) (i : Interaction.t) :
  snd (post_interactions now body d) = Success 201 i ->
  In i (interactions (fst (post_interactions now body d)))
  /\ Interaction.timestamp i = now
  /\ Interaction.created_at i = Some now
  /\ Interaction.notes i = None
  /\ (Js.truthy (Js.get body "direction") = false -> Interaction.direction i = None)
  /\ (Js.truthy (Js.get body "duration_seconds") = false ->
      Interaction.duration_seconds i = None)
  /\ (Js.truthy (Js.get body "subject") = false -> Interaction.subject i = None)
  /\ (forall s, Js.get body "direction" = Js.Str s -> s <> "" ->
                (String.length s <= 20)%nat -> Interaction.direction i = Some s)
  /\ (forall s, Js.get body "subject" = Js.Str s -> s <> "" ->
                (String.length s <= 255)%nat -> Interaction.subject i = Some s).
Proof.
  intros Hok.
  destruct (post_interactions_row now body d i Hok)
    as (dir & dur & subj & Hdir & Hdur & Hsubj & Hi).
  assert (Hin : In i (interactions (fst (post_interactions now body d)))).
  { destruct (post_interactions_cases now body d)
      as [[_ (st & msg & Hfail)] |
          (i' & created & Hok' & _ & _ & _ & _ & _ & _ & _ & Hint & _)].
    - rewrite Hok in Hfail. discriminate.
    - rewrite Hok in Hok'. inversion Hok'. subst i'.
      rewrite Hint. apply in_or_app. right. now left. }
  split; [exact Hin|]. rewrite Hi. simpl.
  split; [reflexivity|]. split; [reflexivity|]. split; [reflexivity|].
  split; [|split; [|split; [|split]]].
  - intros H. rewrite (prepareValue_or_falsy _ H) in Hdir.
    unfold varchar in Hdir. now inversion Hdir.
  - intros H. rewrite (prepareValue_or_falsy _ H) in Hdur.
    unfold integer in Hdur. now inversion Hdur.
  - intros H. rewrite (prepareValue_or_falsy _ H) in Hsubj.
    unfold varchar in Hsubj. now inversion Hsubj.
  - intros s Hs Hne Hlen. rewrite Hs, (prepareValue_or_string s Hne) in Hdir.
    rewrite varchar_fits in Hdir by exact Hlen. now inversion Hdir.
  - intros s Hs Hne Hlen. rewrite Hs, (prepareValue_or_string s Hne) in Hsubj.
    rewrite varchar_fits in Hsubj by exact Hlen. now inversion Hsubj.
Qed.

Lemma recorded_interaction_columns_witness :
  let body := <["notes" := Js.Str "remember this"]>
                (<["duration_seconds" := Js.Num 0]> (call_with "Alice")) in
  let i := Interaction.mk 1 1 1 (Some "outgoing") 100 None None None (Some 100) in
  In i (interactions (fst (post_interactions 100 body seeded_db)))
  /\ Interaction.timestamp i = 100
  /\ Interaction.created_at i = Some 100
  /\ Interaction.notes i = None
  /\ (Js.truthy (Js.get body "direction") = false -> Interaction.direction i = None)
  /\ (Js.truthy (Js.get body "duration_seconds") = false ->
      Interaction.duration_seconds i = None)
  /\ (Js.truthy (Js.get body "subject") = false -> Interaction.subject i = None)
  /\ (forall s, Js.get body "direction" = Js.Str s -> s <> "" ->
                (String.length s <= 20)%nat -> Interaction.direction i = Some s)
  /\ (forall s, Js.get body "subject" = Js.Str s -> s <> "" ->
                (String.length s <= 255)%nat -> Interaction.subject i = Some s).
Proof.
  intros body i.
  apply (recorded_interaction_columns 100 body seeded_db i).
  vm_compute. reflexivity.
Defined.

(** ** POST /api/interactions: how a request ends *)

Lemma post_interactions_required
    (now : Z) (body : gmap string Js.value) (d : db) (status : Z) (i : Interaction.t) :
  snd (post_interactions now body d) = Success status i ->
  Js.truthy (Js.get body "contact_name") = true
  /\ Js.truthy (Js.get body "interaction_type") = true.
Proof.
  unfold post_interactions.
  destruct (Js.truthy (Js.get body "contact_name")); [|simpl; discriminate].
  destruct (Js.truthy (Js.get body "interaction_type")); [|simpl; discriminate].
  now split.
Qed.

(** X8.  A request is answered 400 exactly when contact_name or
    interaction_type is absent or falsy (null, an empty text, the number
    0, false); then nothing of the store changes, no sequence either.
    Every other error is answered 500, and success is answered 201. *)
Theorem record_interaction_answer_statuses
    (now : Z) (body : gmap string Js.value) (d : db) :
  (Js.truthy (Js.get body "contact_name") && Js.truthy (Js.get body "interaction_type")
   = false ->
   post_interactions now body d
   = (d, Failure 400 "contact_name and interaction_type are required"))
  /\ (forall msg, snd (post_interactions now body d) = Failure 400 msg ->
        Js.truthy (Js.get body "contact_name")
        && Js.truthy (Js.get body "interaction_type") = false)
  /\ (forall status msg, snd (post_interactions now body d) = Failure status msg ->
        status = 400 \/ status = 500)
  /\ (forall status i, snd (post_interactions now body d) = Success status i ->
        status = 201).
Proof.
  unfold post_interactions.
  destruct (Js.truthy (Js.get body "contact_name")),
           (Js.truthy (Js.get body "interaction_type")); cbn [negb orb andb].
  - split; [discriminate|]. unfold respond, reply. cbn [snd].
    match goal with |- context [match ?r with inl _ => _ | inr _ => _ end] => destruct r end.
    + split; [intros m H; discriminate H|].
      split; [intros st m H; inversion H; now right|].
      intros st i H. discriminate H.
    + split; [intros m H; discriminate H|].
      split; [intros st m H; discriminate H|].
      intros st i H. now inversion H.
  - split; [reflexivity|]. cbn [snd]. split; [reflexivity|].
    split; [intros st m H; inversion H; now left|]. intros st i H. discriminate H.
  - split; [reflexivity|]. cbn [snd]. split; [reflexivity|].
    split; [intros st m H; inversion H; now left|]. intros st i H. discriminate H.
  - split; [reflexivity|]. cbn [snd]. split; [reflexivity|].
    split; [intros st m H; inversion H; now left|]. intros st i H. discriminate H.
Qed.

Lemma record_interaction_answer_statuses_witness :
  post_interactions 100 (<["contact_name" := Js.Str ""]> (call_with "Alice")) sample_db
  = (sample_db, Failure 400 "contact_name and interaction_type are required").
Proof.
  apply (record_interaction_answer_statuses 100
           (<["contact_name" := Js.Str ""]> (call_with "Alice")) sample_db).
  vm_compute. reflexivity.
Defined.

(** X9.  A request is recorded whole or not at all.  Either it is answered
    with an error and every table is as before, or it is answered 201 and
    the store has exactly one interaction more, the one in the answer, the
    same catalog, and the contacts of before with at most one more. *)
Theorem record_interaction_is_all_or_nothing
    (now : Z) (body : gmap string Js.value) (d : db) :
  (exists status msg,
     snd (post_interactions now body d) = Failure status msg
     /\ same_tables (fst (post_interactions now body d)) d)
  \/ (exists i,
        snd (post_interactions now body d) = Success 201 i
        /\ interactions (fst (post_interactions now body d)) = (interactions d ++ [i])%list
        /\ interaction_types (fst (post_interactions now body d)) = interaction_types d
        /\ (exists created,
              Forall2 same_identity (contacts d ++ created)
                      (contacts (fst (post_interactions now body d)))
              /\ (length created <= 1)%nat)).
Proof.
  destruct (post_interactions_cases now body d)
    as [[Hsame (st & msg & Hfail)] |
        (i & created & Hok & _ & _ & _ & Hcreated & _ & Hc & Ht & Hi & _)].
  - left. exists st, msg. now split.
  - right. exists i. repeat split; try assumption.
    exists created. split.
    + rewrite Hc. apply set_last_interaction_date_same_identity.
    + destruct Hcreated as [[-> _] | (_ & name & _ & _ & _ & ->)]; simpl; lia.
Qed.

(** X10.  Where a contact has the name of the request, an interaction
    that is recorded is recorded for a contact of that name, and no
    contact is added. *)
Theorem record_interaction_reuses_a_contact_of_the_name
    (now : Z) (body : gmap string Js.value) (d : db) (i : Interaction.t) (c : Contact.t) :
  In c (contacts d) ->
  Contact.name c = Js.to_string (Js.get body "contact_name") ->
  snd (post_interactions now body d) = Success 201 i ->
  (exists c', In c' (contacts d)
              /\ Contact.name c' = Js.to_string (Js.get body "contact_name")
              /\ Interaction.contact_id i = Contact.id c')
  /\ length (contacts (fst (post_interactions now body d))) = length (contacts d).
Proof.
  intros Hin Hname Hok.
  destruct (post_interactions_required now body d 201 i Hok) as [Htruthy _].
  destruct (post_interactions_cases now body d)
    as [[_ (st & msg & Hfail)] |
        (i' & created & Hok' & _ & _ & _ & Hcreated & _ & Hc & _)].
  { rewrite Hok in Hfail. discriminate. }
  rewrite Hok in Hok'. inversion Hok'. subst i'.
  rewrite (prepareValue_truthy _ Htruthy) in Hcreated.
  assert (Hfound : In c (List.filter
                           (fun c => option_eqb (Some (Js.to_string (Js.get body "contact_name")))
                                                (Contact.name c))
                           (contacts d))).
  { apply filter_In. split; [exact Hin|]. simpl. rewrite Hname. apply String.eqb_refl. }
  destruct Hcreated as [[-> [rest Hsel]] | [Hnone _]].
  - split.
    + assert (Hid : In (Interaction.contact_id i)
                       (map Contact.id
                          (List.filter
                             (fun c => option_eqb
                                         (Some (Js.to_string (Js.get body "contact_name")))
                                         (Contact.name c))
                             (contacts d))))
        by (rewrite Hsel; now left).
      apply in_map_iff in Hid. destruct Hid as (c' & Hid & Hc').
      apply filter_In in Hc'. destruct Hc' as [Hc'in Heq].
      simpl in Heq. apply String.eqb_eq in Heq.
      exists c'. split; [exact Hc'in|]. split; [now symmetry | now symmetry].
    + rewrite Hc, length_map, app_nil_r. reflexivity.
  - rewrite Hnone in Hfound. destruct Hfound.
Qed.

Lemma record_interaction_reuses_a_contact_witness :
  (exists c', In c' (contacts sample_db_two_alices)
              /\ Contact.name c' = Js.to_string (Js.get (call_with "Alice") "contact_name")
              /\ Interaction.contact_id
                   (Interaction.mk 4 1 1 (Some "outgoing") (20 * Pg.USECS_PER_DAY)
                                   (Some 300) None None (Some (20 * Pg.USECS_PER_DAY)))
                 = Contact.id c')
  /\ length (contacts (fst (post_interactions (20 * Pg.USECS_PER_DAY) (call_with "Alice")
                                              sample_db_two_alices)))
     = length (contacts sample_db_two_alices).
Proof.
  apply (record_interaction_reuses_a_contact_of_the_name
           (20 * Pg.USECS_PER_DAY) (call_with "Alice") sample_db_two_alices _
           (Contact.mk 1 "Alice" None None (Some "unknown")
                       (Some (10 * Pg.USECS_PER_DAY)) (Some 0)
                       (Some (10 * Pg.USECS_PER_DAY)))).
  - vm_compute. left. reflexivity.
  - vm_compute. reflexivity.
  - vm_compute. reflexivity.
Defined.

(** ** States the API reaches *)

Lemma insert_contact_types_seq (now : Z) (name rel phone email : option string) (d : db) :
  interaction_types_id_seq (fst (insert_contact now name rel phone email d))
  = interaction_types_id_seq d.
Proof.
  unfold insert_contact, bind, check, nextval_contacts, add_contact, ret, serial,
    not_null.
  run_statement; reflexivity.
Qed.

Lemma insert_interaction_types_seq (now cid tid : Z) (direction : option string)
    (timestamp : Z) (duration subject : option string) (d : db) :
  interaction_types_id_seq
    (fst (insert_interaction now cid tid direction timestamp duration subject d))
  = interaction_types_id_seq d.
Proof.
  unfold insert_interaction, bind, check, nextval_interactions, add_interaction, ret,
    serial.
  run_statement; reflexivity.
Qed.

Lemma get_or_create_contact_types_seq (now : Z) (contact_name : Js.value) (d : db) :
  interaction_types_id_seq (fst (get_or_create_contact now contact_name d))
  = interaction_types_id_seq d.
Proof.
  unfold get_or_create_contact, bind, select_contact_id_by_name.
  destruct (List.filter _ (contacts d)); simpl.
  - apply insert_contact_types_seq.
  - reflexivity.
Qed.

(** No request draws from the sequence of the catalog. *)
Lemma post_interactions_types_seq (now : Z) (body : gmap string Js.value) (d : db) :
  interaction_types_id_seq (fst (post_interactions now body d))
  = interaction_types_id_seq d.
Proof.
  unfold post_interactions.
  destruct (negb _ || negb _); [reflexivity|].
  unfold respond, transaction.
  pose proof (get_or_create_contact_types_seq now (Js.get body "contact_name") d) as H1.
  destruct (get_or_create_contact now _ d) as [d1 [msg|cid]] eqn:E1; cbn [fst] in H1.
  { rewrite (bind_inl _ _ _ _ _ E1). simpl. exact H1. }
  rewrite (bind_inr _ _ _ _ _ E1).
  pose proof (look_up_interaction_type_cases (Js.get body "interaction_type") d1) as H2.
  destruct (look_up_interaction_type _ d1) as [d2 [msg|tid]] eqn:E2.
  { rewrite (bind_inl _ _ _ _ _ E2). destruct H2 as [-> _]. simpl. exact H1. }
  rewrite (bind_inr _ _ _ _ _ E2). destruct H2 as [-> _].
  match goal with
  | |- context [bind (insert_interaction ?a ?b ?c ?e ?f ?g ?h) _ d1] =>
      pose proof (insert_interaction_types_seq a b c e f g h d1) as H3;
      destruct (insert_interaction a b c e f g h d1) as [d3 [msg|i]] eqn:E3
  end; cbn [fst] in H3.
  { rewrite (bind_inl _ _ _ _ _ E3). simpl. congruence. }
  rewrite (bind_inr _ _ _ _ _ E3). unfold bind, touch_contact, ret. simpl. congruence.
Qed.

Lemma schema_constraints_seeded_db : schema_constraints seeded_db.
Proof.
  constructor.
  - apply consistent_seeded_db.
  - vm_compute. constructor.
  - vm_compute. repeat (constructor; [intros H; discriminate H|]). constructor.
  - vm_compute.
    repeat (constructor; [intros H; repeat (destruct H as [H|H]; [discriminate H|]);
                          exact H|]).
    constructor.
Qed.

Lemma post_interactions_keeps_schema_constraints
    (now : Z) (body : gmap string Js.value) (d : db) :
  schema_constraints d -> schema_constraints (fst (post_interactions now body d)).
Proof.
  intros [Hd Hik Htseq Htn].
  pose proof (post_interactions_types_seq now body d) as Hseq.
  destruct (post_interactions_cases now body d)
    as [[(_ & Ht & Hi) _] |
        (i & created & _ & _ & _ & Hfresh & _ & _ & _ & Ht & Hi & _)].
  - constructor; rewrite ?Ht, ?Hi, ?Hseq; try assumption.
    now apply post_interactions_keeps_consistent.
  - constructor; rewrite ?Ht, ?Hi, ?Hseq; try assumption.
    + now apply post_interactions_keeps_consistent.
    + rewrite map_app. simpl. apply List.NoDup_app.
      * exact Hik.
      * repeat constructor. intros [].
      * intros x Hx [<-|[]].
        apply mem_In in Hx. congruence.
Qed.

(** X11.  Whatever requests are recorded on the seeded database, in
    whatever order and whether they succeed or fail, the store keeps the
    constraints of the schema: contact, type and interaction ids are
    unique and below their sequences, type names are unique, and every
    interaction refers to a contact and to a type of the store. *)
Theorem api_states_keep_the_schema_constraints (reqs : list request) :
  schema_constraints (record_all reqs seeded_db).
Proof.
  assert (H : forall d, schema_constraints d -> schema_constraints (record_all reqs d)).
  { induction reqs as [|[t body] reqs IH]; intros d Hd; simpl.
    - exact Hd.
    - apply IH. now apply post_interactions_keeps_schema_constraints. }
  apply H, schema_constraints_seeded_db.
Qed.

Lemma post_interactions_keeps_made_by_the_api
    (now : Z) (body : gmap string Js.value) (d : db) :
  made_by_the_api d -> made_by_the_api (fst (post_interactions now body d)).
Proof.
  intros Hd.
  destruct (post_interactions_cases now body d)
    as [[(Hc & _ & Hi) _] |
        (i & created & _ & _ & _ & _ & Hcreated & _ & Hc & _ & Hi & _)].
  - intros c Hin. rewrite Hc in Hin. rewrite Hi. now apply Hd.
  - intros c' Hin. rewrite Hc in Hin. apply in_map_iff in Hin.
    destruct Hin as (c & <- & Hin). rewrite Hi.
    apply in_app_or in Hin. destruct Hin as [Hin|Hin].
    + destruct (Hd c Hin) as (Hrel & Hphone & Hemail & Hlast & j & Hj & Hjc).
      unfold set_last_interaction_date.
      destruct (Contact.id c =? Interaction.contact_id i); simpl;
        repeat split; try assumption; try discriminate;
        exists j; (split; [apply in_or_app; now left | exact Hjc]).
    + destruct Hcreated as [[-> _] | (_ & name & _ & _ & _ & ->)]; [contradiction|].
      destruct Hin as [<-|[]]. unfold set_last_interaction_date. simpl.
      rewrite Z.eqb_refl. simpl. repeat split; try discriminate.
      exists i. split; [apply in_or_app; right; now left | reflexivity].
Qed.

(** X12.  In every state reached from the seeded database through the API
    alone, each contact has the relationship "unknown", no phone and no
    email (no request sets them), a last-interaction timestamp and at
    least one interaction: no contact is left without the interaction it
    was created for. *)
Theorem api_contacts_are_unknown_and_contacted (reqs : list request) :
  made_by_the_api (record_all reqs seeded_db).
Proof.
  assert (H : forall d, made_by_the_api d -> made_by_the_api (record_all reqs d)).
  { induction reqs as [|[t body] reqs IH]; intros d Hd; simpl; [exact Hd|].
    apply IH. now apply post_interactions_keeps_made_by_the_api. }
  apply H. intros c Hin. vm_compute in Hin. destruct Hin.
Qed.

(** ** Numbers written into a path and read back by the server *)

Lemma pretty_N_char_digit (x : N) :
  (x < 10)%N ->
  Pg.is_digit (pretty_N_char x) = true
  /\ Z.of_nat (nat_of_ascii (pretty_N_char x)) - 48 = Z.of_N x
  /\ Js.digit_value (pretty_N_char x) = Some (Z.of_N x).
Proof.
  intros H.
  assert (Hx : (x = 0 \/ x = 1 \/ x = 2 \/ x = 3 \/ x = 4 \/ x = 5 \/ x = 6 \/ x = 7
                \/ x = 8 \/ x = 9)%N) by lia.
  repeat (destruct Hx as [->|Hx]; [vm_compute; repeat split; reflexivity|]).
  subst. vm_compute. repeat split; reflexivity.
Qed.

Lemma split_decimal (x : N) :
  Z.of_N x = 10 * Z.of_N (x / 10) + Z.of_N (x mod 10) /\ (x mod 10 < 10)%N.
Proof.
  split.
  - rewrite (N.div_mod x 10) at 1 by discriminate. lia.
  - apply N.mod_lt. discriminate.
Qed.

(** The digits of [x], read by the integer input of the database. *)
Lemma pg_reads_pretty_N_go (x : N) :
  (0 < x)%N ->
  exists k, 0 <= k
    /\ forall s acc,
         Pg.digits_then_end (pretty_N_go x s) acc
         = Pg.digits_then_end s (Some (default 0 acc * 10 ^ k + Z.of_N x)).
Proof.
  induction (N.lt_wf_0 x) as [x _ IH]. intros Hpos.
  destruct (split_decimal x) as [Hsplit Hlt].
  destruct (pretty_N_char_digit (x mod 10) Hlt) as (Hdig & Hval & _).
  destruct (N.eq_dec (x / 10)%N 0%N) as [Hz|Hnz].
  - exists 1. split; [lia|]. intros s acc.
    rewrite pretty_N_go_step, Hz, pretty_N_go_0 by exact Hpos.
    cbn [Pg.digits_then_end]. rewrite Hdig, Hval. do 2 f_equal.
    rewrite Hz in Hsplit. lia.
  - destruct (IH (x / 10)%N) as (k & Hk & Hread).
    { apply N.div_lt; [exact Hpos | reflexivity]. }
    { lia. }
    exists (k + 1). split; [lia|]. intros s acc.
    rewrite pretty_N_go_step, Hread by exact Hpos.
    cbn [Pg.digits_then_end]. rewrite Hdig, Hval. do 2 f_equal.
    cbn [from_option]. unfold id.
    rewrite Z.pow_add_r, Z.pow_1_r, Hsplit by lia. ring.
Qed.

(** The same for [parseInt]. *)
Lemma js_reads_pretty_N_go (x : N) :
  (0 < x)%N ->
  exists k, 0 <= k
    /\ forall s acc,
         Js.digits 10 (pretty_N_go x s) acc
         = Js.digits 10 s (Some (default 0 acc * 10 ^ k + Z.of_N x)).
Proof.
  induction (N.lt_wf_0 x) as [x _ IH]. intros Hpos.
  destruct (split_decimal x) as [Hsplit Hlt].
  destruct (pretty_N_char_digit (x mod 10) Hlt) as (_ & _ & Hval).
  assert (Hten : (Z.of_N (x mod 10) <? 10) = true) by (apply Z.ltb_lt; lia).
  destruct (N.eq_dec (x / 10)%N 0%N) as [Hz|Hnz].
  - exists 1. split; [lia|]. intros s acc.
    rewrite pretty_N_go_step, Hz, pretty_N_go_0 by exact Hpos.
    cbn [Js.digits]. rewrite Hval, Hten. do 2 f_equal.
    rewrite Hz in Hsplit. lia.
  - destruct (IH (x / 10)%N) as (k & Hk & Hread).
    { apply N.div_lt; [exact Hpos | reflexivity]. }
    { lia. }
    exists (k + 1). split; [lia|]. intros s acc.
    rewrite pretty_N_go_step, Hread by exact Hpos.
    cbn [Js.digits]. rewrite Hval, Hten. do 2 f_equal.
    cbn [from_option]. unfold id.
    rewrite Z.pow_add_r, Z.pow_1_r, Hsplit by lia. ring.
Qed.

(** The text of a positive number starts with a digit other than 0. *)
Lemma pretty_N_go_head (x : N) (s : string) :
  (0 < x)%N ->
  exists c rest,
    pretty_N_go x s = String c rest
    /\ 49 <= Z.of_nat (nat_of_ascii c) <= 57.
Proof.
  revert s. induction (N.lt_wf_0 x) as [x _ IH]. intros s Hpos.
  destruct (split_decimal x) as [Hsplit Hlt].
  rewrite pretty_N_go_step by exact Hpos.
  destruct (N.eq_dec (x / 10)%N 0%N) as [Hz|Hnz].
  - rewrite Hz, pretty_N_go_0. eexists; eexists. split; [reflexivity|].
    destruct (pretty_N_char_digit (x mod 10) Hlt) as (_ & Hval & _).
    rewrite Hz in Hsplit. lia.
  - apply IH; [|lia]. apply N.div_lt; [exact Hpos | reflexivity].
Qed.

Lemma pretty_positive (p : positive) : pretty (Z.pos p) = pretty_N_go (N.pos p) "".
Proof. reflexivity. Qed.

Lemma pretty_negative (p : positive) :
  pretty (Z.neg p) = String "-" (pretty_N_go (N.pos p) "").
Proof. reflexivity. Qed.

Ltac split_ascii c :=
  let b0 := fresh in let b1 := fresh in let b2 := fresh in let b3 := fresh in
  let b4 := fresh in let b5 := fresh in let b6 := fresh in let b7 := fresh in
  destruct c as [b0 b1 b2 b3 b4 b5 b6 b7];
  destruct b0, b1, b2, b3, b4, b5, b6, b7.

Lemma digit_code_bool (c : ascii) :
  49 <= Z.of_nat (nat_of_ascii c) <= 57 ->
  (49 <=? Z.of_nat (nat_of_ascii c)) && (Z.of_nat (nat_of_ascii c) <=? 57) = true.
Proof. intros H. apply andb_true_intro. split; apply Z.leb_le; lia. Qed.

Lemma pg_skip_space_other (c : ascii) (s : string) :
  Pg.is_space c = false -> Pg.skip_space (String c s) = String c s.
Proof. intros H. simpl. now rewrite H. Qed.

Lemma js_skip_space_other (c : ascii) (s : string) :
  Js.is_space c = false -> Js.skip_space (String c s) = String c s.
Proof. intros H. simpl. now rewrite H. Qed.

Lemma js_is_space_digit (c : ascii) :
  49 <= Z.of_nat (nat_of_ascii c) <= 57 -> Js.is_space c = false.
Proof.
  intros H. unfold Js.is_space. cbv zeta.
  destruct (Z.leb_spec 9 (Z.of_nat (nat_of_ascii c))),
    (Z.leb_spec (Z.of_nat (nat_of_ascii c)) 13),
    (Z.eqb_spec (Z.of_nat (nat_of_ascii c)) 32); simpl; try reflexivity; lia.
Qed.

Lemma int4in_digits (negative : bool) (c : ascii) (rest : string) (m : Z) :
  49 <= Z.of_nat (nat_of_ascii c) <= 57 ->
  Pg.digits_then_end (String c rest) None = Some m ->
  Pg.in_int4 (if negative then - m else m) = true ->
  Pg.int4in (if negative then String "-" (String c rest) else String c rest)
  = Some (if negative then - m else m).
Proof.
  intros Hc Hv Hr.
  assert (Hd : Pg.is_digit c = true).
  { unfold Pg.is_digit. apply andb_true_intro. split; apply Z.leb_le; lia. }
  assert (Hs : Pg.is_space c = false).
  { unfold Pg.is_space. cbv zeta.
    destruct (Z.leb_spec 9 (Z.of_nat (nat_of_ascii c))),
      (Z.leb_spec (Z.of_nat (nat_of_ascii c)) 13),
      (Z.eqb_spec (Z.of_nat (nat_of_ascii c)) 32); simpl; try reflexivity; lia. }
  apply digit_code_bool in Hc.
  split_ascii c; try (exfalso; vm_compute in Hc; discriminate Hc);
    destruct negative; unfold Pg.int4in;
    rewrite pg_skip_space_other by first [exact Hs | vm_compute; reflexivity];
    cbv beta iota zeta; rewrite Hd, Hv, Hr; reflexivity.
Qed.

(** The decimal text of an integer that fits [INTEGER] is read by the
    database as that integer. *)
Lemma int4in_pretty (z : Z) : Pg.in_int4 z = true -> Pg.int4in (pretty z) = Some z.
Proof.
  intros Hr. destruct z as [|p|p].
  - vm_compute. reflexivity.
  - rewrite pretty_positive.
    destruct (pretty_N_go_head (N.pos p) "" eq_refl) as (c & rest & Hs & Hc).
    destruct (pg_reads_pretty_N_go (N.pos p) eq_refl) as (k & _ & Hread).
    specialize (Hread "" None). cbn [Pg.digits_then_end default from_option] in Hread.
    rewrite Hs in Hread |- *.
    apply (int4in_digits false c rest (Z.pos p) Hc); [|exact Hr].
    rewrite Hread. f_equal.
  - rewrite pretty_negative.
    destruct (pretty_N_go_head (N.pos p) "" eq_refl) as (c & rest & Hs & Hc).
    destruct (pg_reads_pretty_N_go (N.pos p) eq_refl) as (k & _ & Hread).
    specialize (Hread "" None). cbn [Pg.digits_then_end default from_option] in Hread.
    rewrite Hs in Hread |- *.
    apply (int4in_digits true c rest (Z.pos p) Hc); [|exact Hr].
    rewrite Hread. f_equal.
Qed.

Lemma int4in_digits_any (negative : bool) (c : ascii) (rest : string) (m : Z) :
  49 <= Z.of_nat (nat_of_ascii c) <= 57 ->
  Pg.digits_then_end (String c rest) None = Some m ->
  Pg.int4in (if negative then String "-" (String c rest) else String c rest)
  = if Pg.in_int4 (if negative then - m else m)
    then Some (if negative then - m else m) else None.
Proof.
  intros Hc Hv.
  assert (Hd : Pg.is_digit c = true).
  { unfold Pg.is_digit. apply andb_true_intro. split; apply Z.leb_le; lia. }
  assert (Hs : Pg.is_space c = false).
  { unfold Pg.is_space. cbv zeta.
    destruct (Z.leb_spec 9 (Z.of_nat (nat_of_ascii c))),
      (Z.leb_spec (Z.of_nat (nat_of_ascii c)) 13),
      (Z.eqb_spec (Z.of_nat (nat_of_ascii c)) 32); simpl; try reflexivity; lia. }
  apply digit_code_bool in Hc.
  split_ascii c; try (exfalso; vm_compute in Hc; discriminate Hc);
    destruct negative; unfold Pg.int4in;
    rewrite pg_skip_space_other by first [exact Hs | vm_compute; reflexivity];
    cbv beta iota zeta; rewrite Hd, Hv; reflexivity.
Qed.

(** The decimal text of any integer, as the database reads it: the
    integer where it fits [INTEGER], an error where it does not. *)
Lemma int4in_pretty_any (z : Z) :
  Pg.int4in (pretty z) = if Pg.in_int4 z then Some z else None.
Proof.
  destruct z as [|p|p].
  - vm_compute. reflexivity.
  - rewrite pretty_positive.
    destruct (pretty_N_go_head (N.pos p) "" eq_refl) as (c & rest & Hs & Hc).
    destruct (pg_reads_pretty_N_go (N.pos p) eq_refl) as (k & _ & Hread).
    specialize (Hread "" None). cbn [Pg.digits_then_end default from_option] in Hread.
    rewrite Hs in Hread |- *.
    apply (int4in_digits_any false c rest (Z.pos p) Hc).
    rewrite Hread. f_equal.
  - rewrite pretty_negative.
    destruct (pretty_N_go_head (N.pos p) "" eq_refl) as (c & rest & Hs & Hc).
    destruct (pg_reads_pretty_N_go (N.pos p) eq_refl) as (k & _ & Hread).
    specialize (Hread "" None). cbn [Pg.digits_then_end default from_option] in Hread.
    rewrite Hs in Hread |- *.
    apply (int4in_digits_any true c rest (Z.pos p) Hc).
    rewrite Hread. f_equal.
Qed.

(** X3.  For an id given in decimal, contact details answers 404 exactly
    when the id fits [INTEGER] and no contact has it; an id beyond 32 bits
    is refused by the database and answered 500 by the handler's catch,
    not 404. *)
Theorem contact_details_not_found_or_out_of_range (z : Z) (d : db) :
  (Pg.in_int4 z = true ->
   (get_contact (pretty z) d = NotFound <-> ~ In z (map Contact.id (contacts d))))
  /\ (Pg.in_int4 z = false ->
      exists msg, get_contact (pretty z) d = Failure 500 msg).
Proof.
  pose proof (int4in_pretty_any z) as Hparse. split.
  - intros Hfit. rewrite Hfit in Hparse. split.
    + intros Hnf Hin. unfold get_contact in Hnf. rewrite Hparse in Hnf.
      apply in_map_iff in Hin. destruct Hin as (c & Hid & Hin).
      assert (Hc : In c (List.filter (fun c => Contact.id c =? z) (contacts d)))
        by (apply filter_In; split; [exact Hin | now apply Z.eqb_eq]).
      destruct (List.filter _ (contacts d)); [destruct Hc | discriminate Hnf].
    + now apply get_contact_not_found.
  - intros Hfit. rewrite Hfit in Hparse.
    unfold get_contact. rewrite Hparse. eexists. reflexivity.
Qed.

Lemma round_to_double_exact (m : Z) :
  0 <= m <= 2 ^ 53 ->
  Js.round_to_double m = m /\ (Z.shiftl 1 1024 <=? m) = false.
Proof.
  intros [H0 H1]. split.
  - destruct (Z.eq_dec m (2 ^ 53)) as [->|Hne]; [vm_compute; reflexivity|].
    unfold Js.round_to_double.
    assert (Hbits : (Z.log2 m + 1 <=? 53) = true).
    { apply Z.leb_le. destruct (Z.eq_dec m 0) as [->|Hm0]; [simpl; lia|].
      assert (Z.log2 m < 53) by (apply Z.log2_lt_pow2; lia). lia. }
    now rewrite Hbits.
  - apply Z.leb_gt. rewrite Z.shiftl_1_l.
    assert (2 ^ 53 < 2 ^ 1024) by (apply Z.pow_lt_mono_r; lia). lia.
Qed.

Lemma parseInt_digits (negative : bool) (c : ascii) (rest : string) (m : Z) :
  49 <= Z.of_nat (nat_of_ascii c) <= 57 ->
  Js.digits 10 (String c rest) None = Some m ->
  0 <= m <= 2 ^ 53 ->
  Js.parseInt (if negative then String "-" (String c rest) else String c rest)
  = Js.Fin (if negative then - m else m).
Proof.
  intros Hc Hv Hm.
  destruct (round_to_double_exact m Hm) as [Hround Hfinite].
  assert (Hs : Js.is_space c = false) by (apply js_is_space_digit; exact Hc).
  apply digit_code_bool in Hc.
  split_ascii c; try (exfalso; vm_compute in Hc; discriminate Hc);
    destruct negative; unfold Js.parseInt;
    rewrite js_skip_space_other by first [exact Hs | vm_compute; reflexivity];
    cbv beta iota zeta; rewrite Hv; cbv beta iota zeta; rewrite Hround, Hfinite;
    reflexivity.
Qed.

(** The decimal text of an integer up to 2^53 in absolute value is read
    by [parseInt] as that integer. *)
Lemma parseInt_pretty (z : Z) : Z.abs z <= 2 ^ 53 -> Js.parseInt (pretty z) = Js.Fin z.
Proof.
  intros Hr. destruct z as [|p|p].
  - vm_compute. reflexivity.
  - rewrite pretty_positive.
    destruct (pretty_N_go_head (N.pos p) "" eq_refl) as (c & rest & Hs & Hc).
    destruct (js_reads_pretty_N_go (N.pos p) eq_refl) as (k & _ & Hread).
    specialize (Hread "" None). cbn [Js.digits default from_option] in Hread.
    rewrite Hs in Hread |- *.
    apply (parseInt_digits false c rest (Z.pos p) Hc); [|lia].
    rewrite Hread. f_equal.
  - rewrite pretty_negative.
    destruct (pretty_N_go_head (N.pos p) "" eq_refl) as (c & rest & Hs & Hc).
    destruct (js_reads_pretty_N_go (N.pos p) eq_refl) as (k & _ & Hread).
    specialize (Hread "" None). cbn [Js.digits default from_option] in Hread.
    rewrite Hs in Hread |- *.
    apply (parseInt_digits true c rest (Z.pos p) Hc); [|lia].
    rewrite Hread. f_equal.
Qed.

Lemma to_string_integer (z : Z) :
  Z.abs z <= 2 ^ 53 -> Js.to_string (Js.Num z) = pretty z.
Proof.
  intros H. unfold Js.to_string, Js.text_value.
  assert (E : (Z.abs z <=? 2 ^ 53) = true) by now apply Z.leb_le.
  now rewrite E.
Qed.

Lemma in_int4_safe (z : Z) : Pg.in_int4 z = true -> Z.abs z <= 2 ^ 53.
Proof.
  unfold Pg.in_int4, Pg.INT4_MIN, Pg.INT4_MAX. intros H.
  apply andb_prop in H. destruct H as [H1 H2]. apply Z.leb_le in H1, H2.
  change (2 ^ 53) with 9007199254740992. lia.
Qed.

(** ** The API client *)

(** X13.  For an integer id within [INTEGER], the client's
    [getContactDetails] succeeds with the contact of that id where the
    store has one, and fails with the server's message "Contact not found"
    where it has none: the id written into the path is the id the server
    looks up. *)
Theorem client_finds_a_contact_by_its_id (contactId : Z) (d : db) :
  consistent d ->
  Pg.in_int4 contactId = true ->
  (forall c, In c (contacts d) -> Contact.id c = contactId ->
     exists rows,
       ApiClient.getContactDetails contactId d
       = ApiClient.ApiSuccess (mk_contact_details c rows))
  /\ (~ In contactId (map Contact.id (contacts d)) ->
      ApiClient.getContactDetails contactId d = ApiClient.ApiFailure "Contact not found").
Proof.
  intros Hd Hrange. unfold ApiClient.getContactDetails.
  rewrite (to_string_integer contactId (in_int4_safe contactId Hrange)).
  pose proof (int4in_pretty contactId Hrange) as Hparse. split.
  - intros c Hin Hid. subst contactId. unfold get_contact. rewrite Hparse.
    rewrite (filter_by_id_unique d c (contacts_pkey d Hd) Hin).
    eexists. reflexivity.
  - intros Hmissing.
    rewrite (get_contact_not_found (pretty contactId) contactId d Hparse Hmissing).
    reflexivity.
Qed.

Lemma client_finds_a_contact_by_its_id_witness :
  (forall c, In c (contacts sample_db) -> Contact.id c = 2 ->
     exists rows,
       ApiClient.getContactDetails 2 sample_db
       = ApiClient.ApiSuccess (mk_contact_details c rows))
  /\ (~ In 2 (map Contact.id (contacts sample_db)) ->
      ApiClient.getContactDetails 2 sample_db = ApiClient.ApiFailure "Contact not found").
Proof.
  apply (client_finds_a_contact_by_its_id 2 sample_db).
  - apply consistent_sample_db.
  - vm_compute. reflexivity.
Defined.

Lemma client_recent_answer (limit : Z) (d : db) :
  Z.abs limit <= 2 ^ 53 ->
  ApiClient.getRecentInteractions limit d
  = if limit <? 0
    then ApiClient.ApiFailure "LIMIT must not be negative"
    else ApiClient.ApiSuccess
           (firstn (Z.to_nat (if limit =? 0 then 10 else limit))
              (order_by (fun a b => rr_timestamp b <=? rr_timestamp a) (recent_join d))).
Proof.
  intros Hsafe. unfold ApiClient.getRecentInteractions.
  rewrite (to_string_integer limit Hsafe).
  pose proof (parseInt_pretty limit Hsafe) as Hparse.
  destruct (Z.ltb_spec limit 0) as [Hneg|Hnonneg].
  - unfold get_interactions_recent. rewrite Hparse.
    assert (Htruthy : Js.number_truthy (Js.Fin limit) = true).
    { simpl. apply negb_true_iff, Z.eqb_neq. lia. }
    rewrite Htruthy. unfold limit_count, Js.text_value.
    assert (E : (Z.abs limit <=? 2 ^ 53) = true) by now apply Z.leb_le.
    rewrite E.
    assert (Hrange : ((limit <=? Pg.INT8_MAX) && (- Pg.INT8_MAX - 1 <=? limit)) = true).
    { change (2 ^ 53) with 9007199254740992 in Hsafe.
      apply andb_true_intro. split; apply Z.leb_le; unfold Pg.INT8_MAX; lia. }
    rewrite Hrange.
    assert (Hlt : (limit <? 0) = true) by now apply Z.ltb_lt.
    rewrite Hlt. reflexivity.
  - destruct (Z.eqb_spec limit 0) as [->|Hne].
    + vm_compute Js.to_string. unfold get_interactions_recent. rewrite Hparse.
      reflexivity.
    + rewrite (recent_answer (pretty limit) limit d Hparse); [reflexivity|].
      split; [lia|]. lia.
Qed.

(** X14.  The client's [getRecentInteractions] for an integer limit up to
    2^53 in absolute value: a negative limit fails with the database's
    message; otherwise the call succeeds with as many rows as the limit
    says, 10 for the limit 0, or with all rows where there are fewer,
    latest first. *)
Theorem client_recent_interactions_by_limit (limit : Z) (d : db) :
  Z.abs limit <= 2 ^ 53 ->
  (limit < 0 ->
   ApiClient.getRecentInteractions limit d
   = ApiClient.ApiFailure "LIMIT must not be negative")
  /\ (0 <= limit ->
      exists rows,
        ApiClient.getRecentInteractions limit d = ApiClient.ApiSuccess rows
        /\ length rows = Nat.min (Z.to_nat (if limit =? 0 then 10 else limit))
                                 (length (recent_join d))
        /\ StronglySorted (fun a b => rr_timestamp b <= rr_timestamp a) rows).
Proof.
  intros Hsafe. rewrite (client_recent_answer limit d Hsafe). split.
  - intros Hneg. apply Z.ltb_lt in Hneg. now rewrite Hneg.
  - intros Hnonneg. apply Z.ltb_ge in Hnonneg. rewrite Hnonneg.
    eexists. split; [reflexivity|]. split.
    + now rewrite length_firstn, order_by_length.
    + apply firstn_sorted.
      apply (StronglySorted_weaken
               (fun a b => (rr_timestamp b <=? rr_timestamp a) = true)).
      * intros a b H. now apply Z.leb_le.
      * apply order_by_sorted; [apply desc_total | apply desc_trans].
Qed.

Lemma client_recent_interactions_by_limit_witness :
  (0 < 0 ->
   ApiClient.getRecentInteractions 0 sample_db
   = ApiClient.ApiFailure "LIMIT must not be negative")
  /\ (0 <= 0 ->
      exists rows,
        ApiClient.getRecentInteractions 0 sample_db = ApiClient.ApiSuccess rows
        /\ length rows = Nat.min (Z.to_nat (if 0 =? 0 then 10 else 0))
                                 (length (recent_join sample_db))
        /\ StronglySorted (fun a b => rr_timestamp b <= rr_timestamp a) rows).
Proof.
  apply (client_recent_interactions_by_limit 0 sample_db).
  vm_compute. discriminate.
Defined.

(** X15.  The client's [getOverdueContacts] for an integer number of days
    within [INTEGER] (zero and negative numbers too: the cutoff is then
    the current time or lies after it) succeeds with exactly the overdue
    contacts: the contacts split into those never contacted or last
    contacted before the cutoff and the others, and the answer has one row
    for each of the former and no other row.  A row carries the six
    columns of its contact and the whole days since its last interaction,
    null where there is none; the rows are in ascending order of
    last-interaction timestamp, nulls first. *)
Theorem client_overdue_contacts_by_days (now days : Z) (d : db) :
  Pg.in_int4 days = true ->
  Pg.valid_timestamp (now - days * Pg.USECS_PER_DAY) = true ->
  exists rows selected others,
    ApiClient.getOverdueContacts now days d = ApiClient.ApiSuccess rows
    /\ Permutation (selected ++ others) (contacts d)
    /\ Forall (overdue_at (now - days * Pg.USECS_PER_DAY)) selected
    /\ Forall (fun c => ~ overdue_at (now - days * Pg.USECS_PER_DAY) c) others
    /\ Forall2 (overdue_row_of now) selected rows
    /\ StronglySorted (fun a b => nulls_first_le (od_last a) (od_last b)) rows.
Proof.
  intros Hdays Hcutoff. unfold ApiClient.getOverdueContacts.
  rewrite (to_string_integer days (in_int4_safe days Hdays)).
  rewrite (overdue_answer now (pretty days) days d
             (parseInt_pretty days (in_int4_safe days Hdays)) Hdays Hcutoff).
  destruct (overdue_rows_exact now (now - days * Pg.USECS_PER_DAY) d)
    as (selected & others & Hperm & Hsel & Hoth & Hrows & Hsorted).
  eexists. exists selected, others.
  split; [reflexivity|]. repeat split; assumption.
Qed.

Lemma client_overdue_contacts_by_days_witness :
  exists rows selected others,
    ApiClient.getOverdueContacts (12 * Pg.USECS_PER_DAY) (-1) sample_db
    = ApiClient.ApiSuccess rows
    /\ Permutation (selected ++ others) (contacts sample_db)
    /\ Forall (overdue_at (12 * Pg.USECS_PER_DAY - -1 * Pg.USECS_PER_DAY)) selected
    /\ Forall (fun c => ~ overdue_at (12 * Pg.USECS_PER_DAY - -1 * Pg.USECS_PER_DAY) c)
              others
    /\ Forall2 (overdue_row_of (12 * Pg.USECS_PER_DAY)) selected rows
    /\ StronglySorted (fun a b => nulls_first_le (od_last a) (od_last b)) rows.
Proof.
  apply (client_overdue_contacts_by_days (12 * Pg.USECS_PER_DAY) (-1) sample_db).
  - vm_compute. reflexivity.
  - vm_compute. reflexivity.
Defined.

(** ** A recorded interaction, read back *)

Lemma sorted_head {A} (R : A -> A -> Prop) (l : list A) (x : A) :
  StronglySorted R l -> In x l ->
  (forall y, In y l -> y = x \/ ~ R y x) ->
  exists rest, l = x :: rest.
Proof.
  intros Hs Hin Hmax. destruct l as [|h t]; [contradiction|].
  destruct Hin as [->|Hin]; [now exists t|].
  destruct (Hmax h (or_introl eq_refl)) as [->|Hnot]; [now exists t|].
  exfalso. apply Hnot. apply StronglySorted_inv in Hs. destruct Hs as [_ Hall].
  rewrite List.Forall_forall in Hall. now apply Hall.
Qed.

Lemma Forall2_In_r {A B} (R : A -> B -> Prop) (l : list A) (l' : list B) (y : B) :
  Forall2 R l l' -> In y l' -> exists x, In x l /\ R x y.
Proof.
  induction 1 as [|a b l l' Hab _ IH]; simpl; [contradiction|].
  intros [<-|Hin].
  - exists a. split; [now left | exact Hab].
  - destruct (IH Hin) as (x & Hx & Hr). exists x. split; [now right | exact Hr].
Qed.

Lemma Forall2_one_l {A B} (R : A -> B -> Prop) (a : A) (l' : list B) :
  Forall2 R [a] l' -> exists b, l' = [b] /\ R a b.
Proof.
  intros H. inversion H as [|? b ? rs Hab Hnil]. inversion Hnil. now exists b.
Qed.

Lemma key_unique {A} (key : A -> Z) (l : list A) (a b : A) :
  List.NoDup (map key l) -> In a l -> In b l -> key a = key b -> a = b.
Proof.
  induction l as [|x l IH]; simpl; intros Hnd Ha Hb Hk; [contradiction|].
  inversion Hnd as [|? ? Hx Hnd']. subst.
  destruct Ha as [->|Ha], Hb as [->|Hb].
  - reflexivity.
  - exfalso. apply Hx. rewrite Hk. now apply in_map.
  - exfalso. apply Hx. rewrite <- Hk. now apply in_map.
  - now apply IH.
Qed.

Lemma set_last_interaction_date_name (now cid : Z) (c : Contact.t) :
  Contact.name (set_last_interaction_date now cid c) = Contact.name c.
Proof. unfold set_last_interaction_date. now destruct (Contact.id c =? cid). Qed.

(** The contact a request answered 201 is recorded for has the name of
    the request, where that name is a string of at most 255 characters. *)
Lemma post_interactions_contact_name
    (now : Z) (body : gmap string Js.value) (d : db) (i : Interaction.t)
    (name : string) (c : Contact.t) :
  consistent d ->
  Js.get body "contact_name" = Js.Str name ->
  (String.length name <= 255)%nat ->
  snd (post_interactions now body d) = Success 201 i ->
  In c (contacts (fst (post_interactions now body d))) ->
  Contact.id c = Interaction.contact_id i ->
  Contact.name c = name.
Proof.
  intros Hd Hname Hlen Hok Hin Hid.
  destruct (post_interactions_cases now body d)
    as [[_ (st & msg & Hfail)] |
        (i' & created & Hok' & _ & _ & _ & Hcreated & _ & Hc & _)].
  { rewrite Hok in Hfail. discriminate. }
  rewrite Hok in Hok'. inversion Hok'. subst i'. clear Hok'.
  rewrite Hname in Hcreated. simpl prepareValue in Hcreated.
  rewrite Hc in Hin. apply in_map_iff in Hin. destruct Hin as (c0 & <- & Hin0).
  rewrite set_last_interaction_date_id in Hid.
  rewrite set_last_interaction_date_name.
  destruct Hcreated as [[-> (rest & Hfound)] | (Hnone & name' & Hfit & Hcid & Hfresh & ->)].
  - rewrite app_nil_r in Hin0.
    destruct (List.filter (fun c => option_eqb (Some name) (Contact.name c)) (contacts d))
      as [|c1 found] eqn:Hf; [discriminate|].
    simpl in Hfound. inversion Hfound as [[Hc1 Hrest]].
    assert (Hc1in : In c1 (List.filter (fun c => option_eqb (Some name) (Contact.name c))
                                       (contacts d)))
      by (rewrite Hf; now left).
    apply filter_In in Hc1in. destruct Hc1in as [Hc1in Heq].
    assert (c0 = c1)
      by (apply (key_unique Contact.id (contacts d)); [apply Hd | | | ]; congruence).
    subst c0. simpl in Heq. apply String.eqb_eq in Heq. now symmetry.
  - rewrite varchar_fits in Hfit by exact Hlen. inversion Hfit. subst name'.
    apply in_app_or in Hin0. destruct Hin0 as [Hin0|[<-|[]]]; [|reflexivity].
    exfalso.
    assert (Hmem : mem (Interaction.contact_id i) (map Contact.id (contacts d)) = true)
      by (apply mem_In; rewrite <- Hid; now apply in_map).
    congruence.
Qed.

(** X16.  Where every interaction of the store is older than the current
    time, the feed of limit 1 read after a request answered 201 is the one
    row of the interaction just recorded, with the name of the request's
    contact and of its type. *)
Theorem recorded_interaction_heads_the_feed
    (now : Z) (body : gmap string Js.value) (d : db) (i : Interaction.t) (name : string) :
  consistent d ->
  Forall (fun j => Interaction.timestamp j < now) (interactions d) ->
  Js.get body "contact_name" = Js.Str name ->
  (String.length name <= 255)%nat ->
  snd (post_interactions now body d) = Success 201 i ->
  exists r,
    get_interactions_recent "1" (fst (post_interactions now body d)) = Success 200 [r]
    /\ rr_id r = Interaction.id i
    /\ rr_timestamp r = now
    /\ rr_contact_name r = name
    /\ prepareValue (Js.get body "interaction_type") = Some (rr_type_name r).
Proof.
  intros Hd Hold Hname Hlen Hok.
  pose proof (post_interactions_keeps_consistent now body d Hd) as Hd'.
  destruct (post_interactions_cases now body d)
    as [[_ (st & msg & Hfail)] |
        (i' & created & Hok' & Hts & _ & _ & _ & Htype & _ & Ht & Hi & _)].
  { rewrite Hok in Hfail. discriminate. }
  rewrite Hok in Hok'. inversion Hok'. subst i'. clear Hok'.
  set (d' := fst (post_interactions now body d)) in *.
  pose proof (recent_join_rows d' (interactions d')
                (contacts_pkey d' Hd') (interaction_types_pkey d' Hd')
                (interactions_contact_id_fkey d' Hd')
                (interactions_interaction_type_id_fkey d' Hd')) as Hrows.
  fold (recent_join d') in Hrows. rewrite Hi in Hrows.
  apply List.Forall2_app_inv_l in Hrows.
  destruct Hrows as (older & latest & Holder & Hlatest & Hjoin).
  destruct (Forall2_one_l _ _ _ Hlatest) as (r & -> & Hr).
  destruct Hr as (Hrid & Hrts & _ & _ & _ & (c & Hcin & Hcid & Hcname)
                  & (t & Htin & Htid & Htname)).
  exists r.
  assert (Hhead : exists rest,
             order_by (fun a b => rr_timestamp b <=? rr_timestamp a) (recent_join d')
             = r :: rest).
  { apply (sorted_head (fun a b => rr_timestamp b <= rr_timestamp a)).
    - apply (StronglySorted_weaken
               (fun a b => (rr_timestamp b <=? rr_timestamp a) = true)).
      + intros a b H. now apply Z.leb_le.
      + apply order_by_sorted; [apply desc_total | apply desc_trans].
    - apply order_by_In. rewrite Hjoin. apply in_or_app. right. now left.
    - intros y Hy. apply order_by_In in Hy. rewrite Hjoin in Hy.
      apply in_app_or in Hy. destruct Hy as [Hy|[<-|[]]]; [|now left].
      right. destruct (Forall2_In_r _ _ _ _ Holder Hy) as (j & Hj & (_ & Hyts & _)).
      rewrite List.Forall_forall in Hold. specialize (Hold j Hj). lia. }
  destruct Hhead as (rest & Hhead).
  split; [|split; [exact Hrid|split; [congruence|split]]].
  - rewrite (recent_answer "1" 1 d'); [|vm_compute; reflexivity|lia].
    rewrite Hhead. reflexivity.
  - rewrite Hcname.
    apply (post_interactions_contact_name now body d i name c Hd Hname Hlen Hok Hcin Hcid).
  - destruct Htype as (t0 & Ht0in & Ht0id & Ht0name).
    rewrite Ht0name, Htname. do 2 f_equal.
    apply (key_unique InteractionType.id (interaction_types d')).
    + apply Hd'.
    + rewrite Ht. exact Ht0in.
    + exact Htin.
    + congruence.
Qed.

Lemma recorded_interaction_heads_the_feed_witness :
  exists r,
    get_interactions_recent "1"
      (fst (post_interactions (20 * Pg.USECS_PER_DAY) (call_with "Bob") sample_db))
    = Success 200 [r]
    /\ rr_id r
       = Interaction.id
           (Interaction.mk 4 2 1 (Some "outgoing") (20 * Pg.USECS_PER_DAY) (Some 300)
                           None None (Some (20 * Pg.USECS_PER_DAY)))
    /\ rr_timestamp r = 20 * Pg.USECS_PER_DAY
    /\ rr_contact_name r = "Bob"
    /\ prepareValue (Js.get (call_with "Bob") "interaction_type") = Some (rr_type_name r).
Proof.
  apply (recorded_interaction_heads_the_feed (20 * Pg.USECS_PER_DAY) (call_with "Bob")
           sample_db
           (Interaction.mk 4 2 1 (Some "outgoing") (20 * Pg.USECS_PER_DAY) (Some 300)
                           None None (Some (20 * Pg.USECS_PER_DAY)))
           "Bob").
  - apply consistent_sample_db.
  - apply List.Forall_forall. intros j Hj. vm_compute in Hj.
    destruct Hj as [<-|[<-|[<-|[]]]]; vm_compute; reflexivity.
  - vm_compute. reflexivity.
  - simpl. lia.
  - vm_compute. reflexivity.
Defined.

(** The contact of a request answered 201 is in the store afterwards. *)
Lemma post_interactions_contact_exists
    (now : Z) (body : gmap string Js.value) (d : db) (i : Interaction.t) :
  consistent d ->
  snd (post_interactions now body d) = Success 201 i ->
  In i (interactions (fst (post_interactions now body d)))
  /\ Interaction.timestamp i = now
  /\ exists c, In c (contacts (fst (post_interactions now body d)))
               /\ Contact.id c = Interaction.contact_id i
               /\ Contact.last_interaction_date c = Some now.
Proof.
  intros Hd Hok.
  pose proof (post_interactions_keeps_consistent now body d Hd) as Hd'.
  destruct (post_interactions_cases now body d)
    as [[_ (st & msg & Hfail)] | (i' & created & Hok' & Hts & _ & _ & _ & _ & _ & _ & Hi & _)].
  { rewrite Hok in Hfail. discriminate. }
  rewrite Hok in Hok'. inversion Hok'. subst i'. clear Hok'.
  assert (Hin : In i (interactions (fst (post_interactions now body d))))
    by (rewrite Hi; apply in_or_app; right; now left).
  split; [exact Hin|]. split; [exact Hts|].
  pose proof (interactions_contact_id_fkey _ Hd') as Hfk.
  rewrite List.Forall_forall in Hfk. specialize (Hfk i Hin).
  apply in_map_iff in Hfk. destruct Hfk as (c & Hcid & Hcin).
  exists c. split; [exact Hcin|]. split; [exact Hcid|].
  apply (post_interactions_sets_last now body d i Hok c Hcin Hcid).
Qed.

(** X17.  After a request answered 201, the details of its contact show
    the contact under the name of the request, last contacted at the time
    of the request, and among the interactions the one just recorded, with
    its time and without notes. *)
Theorem recorded_interaction_is_in_the_contact_details
    (now : Z) (body : gmap string Js.value) (d : db) (i : Interaction.t)
    (name id_param : string) :
  consistent d ->
  Js.get body "contact_name" = Js.Str name ->
  (String.length name <= 255)%nat ->
  snd (post_interactions now body d) = Success 201 i ->
  Pg.int4in id_param = Some (Interaction.contact_id i) ->
  exists c rows,
    get_contact id_param (fst (post_interactions now body d))
    = Success 200 (mk_contact_details c rows)
    /\ Contact.name c = name
    /\ Contact.last_interaction_date c = Some now
    /\ exists r, In r rows /\ ir_id r = Interaction.id i /\ ir_timestamp r = now
                 /\ ir_notes r = None.
Proof.
  intros Hd Hname Hlen Hok Hparse.
  pose proof (post_interactions_keeps_consistent now body d Hd) as Hd'.
  destruct (post_interactions_contact_exists now body d i Hd Hok)
    as (Hin & Hts & c & Hcin & Hcid & Hlast).
  destruct (post_interactions_row now body d i Hok)
    as (direction & duration & subject & _ & _ & _ & Hrow).
  set (d' := fst (post_interactions now body d)) in *.
  pose proof (interactions_interaction_type_id_fkey d' Hd') as Hfk.
  rewrite List.Forall_forall in Hfk. specialize (Hfk i Hin).
  destruct (filter_key_unique InteractionType.id (interaction_types d') _
              (interaction_types_pkey d' Hd') Hfk) as (t & Htin & Htid & Hft).
  exists c. eexists. split; [|split; [|split; [exact Hlast|]]].
  - unfold get_contact. rewrite Hparse, <- Hcid.
    rewrite (filter_by_id_unique d' c (contacts_pkey d' Hd') Hcin). reflexivity.
  - apply (post_interactions_contact_name now body d i name c Hd Hname Hlen Hok Hcin Hcid).
  - exists (interaction_columns i t). split; [|split; [reflexivity|split]].
    + apply order_by_In, in_flat_map. exists i. split.
      * apply filter_In. split; [exact Hin|]. rewrite Hcid. apply Z.eqb_refl.
      * unfold types_of. rewrite Hft. now left.
    + exact Hts.
    + simpl. rewrite Hrow. reflexivity.
Qed.

Lemma recorded_interaction_is_in_the_contact_details_witness :
  exists c rows,
    get_contact "2"
      (fst (post_interactions (20 * Pg.USECS_PER_DAY) (call_with "Bob") sample_db))
    = Success 200 (mk_contact_details c rows)
    /\ Contact.name c = "Bob"
    /\ Contact.last_interaction_date c = Some (20 * Pg.USECS_PER_DAY)
    /\ exists r, In r rows
                 /\ ir_id r
                    = Interaction.id
                        (Interaction.mk 4 2 1 (Some "outgoing") (20 * Pg.USECS_PER_DAY)
                                        (Some 300) None None (Some (20 * Pg.USECS_PER_DAY)))
                 /\ ir_timestamp r = 20 * Pg.USECS_PER_DAY
                 /\ ir_notes r = None.
Proof.
  apply (recorded_interaction_is_in_the_contact_details
           (20 * Pg.USECS_PER_DAY) (call_with "Bob") sample_db
           (Interaction.mk 4 2 1 (Some "outgoing") (20 * Pg.USECS_PER_DAY) (Some 300)
                           None None (Some (20 * Pg.USECS_PER_DAY)))
           "Bob" "2").
  - apply consistent_sample_db.
  - vm_compute. reflexivity.
  - simpl. lia.
  - vm_compute. reflexivity.
  - vm_compute. reflexivity.
Defined.

(** X18.  A contact with an interaction recorded at [now] is not in the
    overdue list read at a later time [later] for a threshold of [days]
    days, as long as fewer than [days] days have passed since. *)
Theorem recorded_contact_is_not_overdue
    (now later days : Z) (days_param : string) (body : gmap string Js.value)
    (d : db) (i : Interaction.t) :
  snd (post_interactions now body d) = Success 201 i ->
  Js.parseInt days_param = Js.Fin days ->
  Pg.in_int4 days = true ->
  Pg.valid_timestamp (later - days * Pg.USECS_PER_DAY) = true ->
  later - days * Pg.USECS_PER_DAY <= now ->
  exists rows,
    get_contacts_overdue later days_param (fst (post_interactions now body d))
    = Success 200 rows
    /\ Forall (fun r => cr_id (od_contact r) <> Interaction.contact_id i) rows.
Proof.
  intros Hok Hparse Hdays Hvalid Hrecent.
  rewrite (overdue_answer later days_param days _ Hparse Hdays Hvalid).
  eexists. split; [reflexivity|].
  apply List.Forall_forall. intros r Hr.
  apply order_by_In, in_map_iff in Hr. destruct Hr as (c & <- & Hc).
  apply filter_In in Hc. destruct Hc as [Hcin Hov].
  simpl. intros Hid.
  pose proof (post_interactions_sets_last now body d i Hok c Hcin Hid) as Hlast.
  unfold overdue in Hov. rewrite Hlast in Hov. apply Z.ltb_lt in Hov. lia.
Qed.

Lemma recorded_contact_is_not_overdue_witness :
  exists rows,
    get_contacts_overdue (25 * Pg.USECS_PER_DAY) "7"
      (fst (post_interactions (20 * Pg.USECS_PER_DAY) (call_with "Bob") sample_db))
    = Success 200 rows
    /\ Forall (fun r => cr_id (od_contact r)
                        <> Interaction.contact_id
                             (Interaction.mk 4 2 1 (Some "outgoing") (20 * Pg.USECS_PER_DAY)
                                (Some 300) None None (Some (20 * Pg.USECS_PER_DAY))))
              rows.
Proof.
  apply (recorded_contact_is_not_overdue
           (20 * Pg.USECS_PER_DAY) (25 * Pg.USECS_PER_DAY) 7 "7" (call_with "Bob") sample_db
           (Interaction.mk 4 2 1 (Some "outgoing") (20 * Pg.USECS_PER_DAY) (Some 300)
                           None None (Some (20 * Pg.USECS_PER_DAY)))).
  - vm_compute. reflexivity.
  - vm_compute. reflexivity.
  - vm_compute. reflexivity.
  - vm_compute. reflexivity.
  - vm_compute. discriminate.
Defined.

(** X19.  Where every other contact was last contacted before the current
    time or never, the contact of a request answered 201 is the first row
    of the contact list read afterwards, last contacted at the time of the
    request. *)
Theorem recorded_contact_heads_the_contact_list
    (now : Z) (body : gmap string Js.value) (d : db) (i : Interaction.t) :
  consistent d ->
  Forall (fun c => forall t, Contact.last_interaction_date c = Some t -> t < now)
         (contacts d) ->
  snd (post_interactions now body d) = Success 201 i ->
  exists row rest,
    get_contacts (fst (post_interactions now body d)) = Success 200 (row :: rest)
    /\ cr_id row = Interaction.contact_id i
    /\ cr_last_interaction_date row = Some now.
Proof.
  intros Hd Hold Hok.
  pose proof (post_interactions_keeps_consistent now body d Hd) as Hd'.
  destruct (post_interactions_contact_exists now body d i Hd Hok)
    as (_ & _ & c & Hcin & Hcid & Hlast).
  destruct (post_interactions_cases now body d)
    as [[_ (st & msg & Hfail)] |
        (i' & created & Hok' & _ & _ & _ & Hcreated & _ & Hc & _)].
  { rewrite Hok in Hfail. discriminate. }
  rewrite Hok in Hok'. inversion Hok'. subst i'. clear Hok'.
  set (d' := fst (post_interactions now body d)) in *.
  set (leb := fun a b => desc_nulls_last (cr_last_interaction_date a)
                                         (cr_last_interaction_date b)).
  assert (Hhead : exists rest,
             order_by leb (map contact_columns (contacts d')) = contact_columns c :: rest).
  { apply (sorted_head (fun a b => leb a b = true)).
    - apply order_by_sorted.
      + intros x y. apply desc_nulls_last_total.
      + intros x y z. apply desc_nulls_last_trans.
    - apply order_by_In. now apply in_map.
    - intros y Hy. apply order_by_In, in_map_iff in Hy. destruct Hy as (c2 & <- & Hc2).
      destruct (Z.eq_dec (Contact.id c2) (Interaction.contact_id i)) as [Heq|Hne].
      + left. f_equal.
        apply (key_unique Contact.id (contacts d')); [apply Hd' | | | ]; congruence.
      + right. rewrite Hc in Hc2. apply in_map_iff in Hc2.
        destruct Hc2 as (c0 & <- & Hc0).
        rewrite set_last_interaction_date_id in Hne.
        unfold set_last_interaction_date.
        apply Z.eqb_neq in Hne. rewrite Hne.
        assert (Hc0d : In c0 (contacts d)).
        { apply in_app_or in Hc0. destruct Hc0 as [Hc0|Hc0]; [exact Hc0|].
          exfalso. apply Z.eqb_neq in Hne.
          destruct Hcreated as [[-> _] | (_ & name' & _ & _ & _ & ->)].
          - contradiction.
          - destruct Hc0 as [<-|[]]. now apply Hne. }
        rewrite List.Forall_forall in Hold. specialize (Hold c0 Hc0d).
        unfold leb. simpl. rewrite Hlast.
        destruct (Contact.last_interaction_date c0) as [t|]; simpl; [|discriminate].
        specialize (Hold t eq_refl).
        assert (E : (now <=? t) = false) by (apply Z.leb_gt; lia).
        rewrite E. discriminate. }
  destruct Hhead as (rest & Hhead).
  exists (contact_columns c), rest. split; [|split].
  - unfold get_contacts. fold leb. rewrite Hhead. reflexivity.
  - exact Hcid.
  - exact Hlast.
Qed.

Lemma recorded_contact_heads_the_contact_list_witness :
  exists row rest,
    get_contacts
      (fst (post_interactions (20 * Pg.USECS_PER_DAY) (call_with "Bob") sample_db))
    = Success 200 (row :: rest)
    /\ cr_id row
       = Interaction.contact_id
           (Interaction.mk 4 2 1 (Some "outgoing") (20 * Pg.USECS_PER_DAY) (Some 300)
                           None None (Some (20 * Pg.USECS_PER_DAY)))
    /\ cr_last_interaction_date row = Some (20 * Pg.USECS_PER_DAY).
Proof.
  apply (recorded_contact_heads_the_contact_list
           (20 * Pg.USECS_PER_DAY) (call_with "Bob") sample_db
           (Interaction.mk 4 2 1 (Some "outgoing") (20 * Pg.USECS_PER_DAY) (Some 300)
                           None None (Some (20 * Pg.USECS_PER_DAY)))).
  - apply consistent_sample_db.
  - apply List.Forall_forall. intros c Hc. vm_compute in Hc.
    destruct Hc as [<-|[<-|[]]]; intros t Ht; inversion Ht; vm_compute; reflexivity.
  - vm_compute. reflexivity.
Defined.

(** ** The seed script *)

Lemma varchar_none (n : nat) : varchar n None = inr None.
Proof. reflexivity. Qed.

Lemma varchar_fits_option (n : nat) (o : option string) :
  match o with Some s => (String.length s <=? n)%nat | None => true end = true ->
  varchar n o = inr o.
Proof.
  destruct o as [s|]; [|reflexivity].
  intros H. apply varchar_fits. now apply Nat.leb_le.
Qed.

Lemma seed_contact_fits_columns (c : gmap string Js.value) :
  seed_contact_fits c = true ->
  exists name,
    prepareValue (Js.get c "name") = Some name
    /\ varchar 255 (Some name) = inr (Some name)
    /\ varchar 50 (prepareValue (Js.get c "relationship_type"))
       = inr (prepareValue (Js.get c "relationship_type"))
    /\ varchar 20 (prepareValue (Js.or (Js.get c "phone") Js.Null))
       = inr (prepareValue (Js.or (Js.get c "phone") Js.Null))
    /\ varchar 255 (prepareValue (Js.or (Js.get c "email") Js.Null))
       = inr (prepareValue (Js.or (Js.get c "email") Js.Null)).
Proof.
  unfold seed_contact_fits. intros H.
  apply andb_prop in H. destruct H as [H Hemail].
  apply andb_prop in H. destruct H as [H Hphone].
  apply andb_prop in H. destruct H as [Hname Hrel].
  destruct (prepareValue (Js.get c "name")) as [name|]; [|discriminate].
  exists name. split; [reflexivity|]. split; [|split; [|split]].
  - apply varchar_fits. now apply Nat.leb_le.
  - now apply varchar_fits_option.
  - now apply varchar_fits_option.
  - now apply varchar_fits_option.
Qed.

(** On a table whose keys are below the sequence the insert of the seed
    script always inserts: no key conflicts. *)
Lemma insert_contact_on_conflict_do_nothing_inserts
    (now : Z) (name : string) (rel phone email : option string) (d : db) :
  varchar 255 (Some name) = inr (Some name) ->
  varchar 50 rel = inr rel -> varchar 20 phone = inr phone -> varchar 255 email = inr email ->
  Forall (fun c => Contact.id c <= contacts_id_seq d) (contacts d) ->
  0 <= contacts_id_seq d -> contacts_id_seq d + 1 <= Pg.INT4_MAX ->
  insert_contact_on_conflict_do_nothing now (Some name) rel phone email d
  = (mk_db (contacts d ++ [Contact.mk (contacts_id_seq d + 1) name phone email rel None
                                      (Some now) (Some now)])
           (interaction_types d) (interactions d)
           (contacts_id_seq d + 1) (interaction_types_id_seq d) (interactions_id_seq d),
     inr [contacts_id_seq d + 1]).
Proof.
  intros Hname Hrel Hphone Hemail Hkeys H0 H1.
  unfold insert_contact_on_conflict_do_nothing, bind, check, nextval_contacts, serial,
    not_null, add_contact, ret.
  simpl. rewrite in_int4_next by assumption.
  rewrite Hname, Hphone, Hemail, Hrel. simpl.
  rewrite mem_fresh by assumption. simpl. reflexivity.
Qed.

(** The loop over the contacts appends one contact for each object of the
    list and never looks for an existing one. *)
Lemma insert_contacts_appends (clock : nat -> Z) (cs : list (gmap string Js.value)) :
  Forall (fun c => seed_contact_fits c = true) cs ->
  forall (k : nat) (contactIds : list Z) (d : db),
    Forall (fun c => Contact.id c <= contacts_id_seq d) (contacts d) ->
    0 <= contacts_id_seq d ->
    contacts_id_seq d + Z.of_nat (length cs) <= Pg.INT4_MAX ->
    exists d' new,
      Seed.insert_contacts clock k cs contactIds d
      = (d', inr (contactIds ++ map Contact.id new)%list)
      /\ contacts d' = (contacts d ++ new)%list
      /\ interaction_types d' = interaction_types d
      /\ interactions d' = interactions d
      /\ contacts_id_seq d' = contacts_id_seq d + Z.of_nat (length cs)
      /\ interactions_id_seq d' = interactions_id_seq d
      /\ Forall2 (fun c row =>
                    prepareValue (Js.get c "name") = Some (Contact.name row)
                    /\ Contact.last_interaction_date row = None)
                 cs new
      /\ map Contact.id new
         = map (fun j => contacts_id_seq d + 1 + Z.of_nat j) (seq 0 (length cs)).
Proof.
  induction 1 as [|c cs Hc Hcs IH]; intros k contactIds d Hkeys H0 H1.
  - exists d, []. simpl. unfold ret. rewrite !app_nil_r.
    repeat split; try lia. constructor.
  - destruct (seed_contact_fits_columns c Hc) as (name & Hn & Hname & Hrel & Hphone & Hemail).
    cbn [length] in H1. rewrite Nat2Z.inj_succ in H1.
    cbn [Seed.insert_contacts]. unfold bind at 1. rewrite Hn.
    rewrite (insert_contact_on_conflict_do_nothing_inserts (clock k) name _ _ _ d
               Hname Hrel Hphone Hemail Hkeys H0) by lia.
    set (row := Contact.mk (contacts_id_seq d + 1) name
                  (prepareValue (Js.or (Js.get c "phone") Js.Null))
                  (prepareValue (Js.or (Js.get c "email") Js.Null))
                  (prepareValue (Js.get c "relationship_type")) None
                  (Some (clock k)) (Some (clock k))).
    set (d1 := mk_db (contacts d ++ [row]) (interaction_types d) (interactions d)
                 (contacts_id_seq d + 1) (interaction_types_id_seq d)
                 (interactions_id_seq d)).
    destruct (IH (S k) (contactIds ++ [contacts_id_seq d + 1])%list d1)
      as (d' & new & Hrun & Hcontacts & Htypes & Hints & Hseq & Hiseq & Hnew & Hids).
    + simpl. apply Forall_app. split.
      * eapply List.Forall_impl; [|exact Hkeys]. simpl. intros; lia.
      * constructor; [simpl; lia | constructor].
    + simpl. lia.
    + simpl. lia.
    + exists d', (row :: new). rewrite Hrun. simpl in *.
      rewrite <- !app_assoc in *. simpl in *.
      split; [reflexivity|]. split; [exact Hcontacts|]. split; [exact Htypes|].
      split; [exact Hints|]. split; [lia|]. split; [exact Hiseq|]. split.
      * constructor; [|exact Hnew]. unfold row. simpl. split; [exact Hn | reflexivity].
      * rewrite Hids, <- seq_shift, map_map. f_equal; [lia|].
        apply map_ext. intros j. lia.
Qed.

Lemma typeMap_fold_lookup (rows : list (Z * string)) (m : gmap string Z)
    (name : string) (id : Z) :
  fold_left (fun m row => <[snd row := fst row]> m) rows m !! name = Some id ->
  In (id, name) rows \/ m !! name = Some id.
Proof.
  revert m. induction rows as [|[id' name'] rows IH]; intros m H; simpl in *.
  - now right.
  - destruct (IH _ H) as [Hin|Hm]; [left; now right|].
    apply lookup_insert_Some in Hm. destruct Hm as [[-> ->]|[_ Hm]].
    + left. now left.
    + now right.
Qed.

Lemma typeMap_fold_is_Some (rows : list (Z * string)) (m : gmap string Z) (name : string) :
  (exists id, In (id, name) rows) \/ is_Some (m !! name) ->
  is_Some (fold_left (fun m row => <[snd row := fst row]> m) rows m !! name).
Proof.
  revert m. induction rows as [|[id' name'] rows IH]; intros m H; simpl in *.
  - destruct H as [(id & [])|H]. exact H.
  - apply IH. destruct H as [(id & [Heq|Hin])|H].
    + right. inversion Heq. subst. rewrite lookup_insert_eq. eauto.
    + left. eauto.
    + right. apply lookup_insert_is_Some.
      destruct (decide (name' = name)); [now left | now right].
Qed.

(** [typeMap] has an id of the catalog for every name of the catalog and
    nothing for other names. *)
Lemma typeMap_of_catalog (d : db) (name : string) :
  (forall id,
     Seed.typeMap (map (fun t => (InteractionType.id t, InteractionType.type_name t))
                       (interaction_types d)) !! name = Some id ->
     exists t, In t (interaction_types d) /\ InteractionType.id t = id
               /\ InteractionType.type_name t = name)
  /\ ((exists t, In t (interaction_types d) /\ InteractionType.type_name t = name) ->
      is_Some (Seed.typeMap
                 (map (fun t => (InteractionType.id t, InteractionType.type_name t))
                      (interaction_types d)) !! name)).
Proof.
  unfold Seed.typeMap. split.
  - intros id H. apply typeMap_fold_lookup in H. destruct H as [H|H].
    + apply in_map_iff in H. destruct H as (t & Heq & Hin). inversion Heq. eauto.
    + rewrite lookup_empty in H. discriminate.
  - intros (t & Hin & Hname). apply typeMap_fold_is_Some. left.
    exists (InteractionType.id t). apply in_map_iff. exists t. split; [|exact Hin].
    now rewrite Hname.
Qed.

Lemma seed_timestamp_in_range (today days : Z) :
  Seed.YEAR_1 + 120 * Pg.USECS_PER_DAY <= today < Seed.YEAR_10000 ->
  0 <= days <= 120 ->
  Seed.timestamp_in (Seed.daysAgo today days) = inr (Seed.daysAgo today days).
Proof.
  intros Htoday Hdays. unfold Seed.timestamp_in, Seed.daysAgo.
  unfold Seed.YEAR_1, Seed.YEAR_10000, Pg.USECS_PER_DAY in *.
  assert (E1 : (-63082281600000000 <=? today - days * 86400000000) = true)
    by (apply Z.leb_le; lia).
  assert (E2 : (today - days * 86400000000 <? 252455616000000000) = true)
    by (apply Z.ltb_lt; lia).
  now rewrite E1, E2.
Qed.

(** The loop over the interactions appends one interaction for each row
    of the list. *)
Lemma insert_interactions_appends
    (clock today : nat -> Z) (types : gmap string Z) (contactIds : list Z)
    (rows : list Seed.interaction) :
  Forall (fun row => seed_interaction_fits (length contactIds) row = true) rows ->
  (forall j, Seed.YEAR_1 + 120 * Pg.USECS_PER_DAY <= today j < Seed.YEAR_10000) ->
  forall (k : nat) (d : db),
    Forall (fun row : Seed.interaction =>
              exists tid, types !! snd (fst (fst (fst row))) = Some tid
                          /\ In tid (map InteractionType.id (interaction_types d))) rows ->
    Forall (fun id => In id (map Contact.id (contacts d))) contactIds ->
    Forall (fun i => Interaction.id i <= interactions_id_seq d) (interactions d) ->
    0 <= interactions_id_seq d ->
    interactions_id_seq d + Z.of_nat (length rows) <= Pg.INT4_MAX ->
    exists d' new,
      Seed.insert_interactions clock today k types contactIds rows d = (d', inr tt)
      /\ contacts d' = contacts d
      /\ interaction_types d' = interaction_types d
      /\ interactions d' = (interactions d ++ new)%list
      /\ contacts_id_seq d' = contacts_id_seq d
      /\ Forall2 (fun (row : Seed.interaction) i =>
                    contactIds !! fst (fst (fst (fst row))) = Some (Interaction.contact_id i))
                 rows new.
Proof.
  intros Hfits Hdates. induction Hfits as [|row rows Hrow Hrows IH];
    intros k d Htypes Hids Hkeys H0 H1.
  - exists d, []. simpl. unfold ret. rewrite app_nil_r. repeat split. constructor.
  - destruct row as [[[[ci type] direction] days] duration].
    inversion Htypes as [|? ? (tid & Htid & Htin) Htypes']. subst.
    simpl in Htid.
    unfold seed_interaction_fits in Hrow.
    apply andb_prop in Hrow. destruct Hrow as [Hrow Hdays2].
    apply andb_prop in Hrow. destruct Hrow as [Hrow Hdays1].
    apply andb_prop in Hrow. destruct Hrow as [Hrow Hduration].
    apply andb_prop in Hrow. destruct Hrow as [Hci Hdirection].
    apply Nat.ltb_lt in Hci. apply Nat.leb_le in Hdirection.
    apply Z.leb_le in Hdays1, Hdays2.
    destruct (lookup_lt_is_Some_2 contactIds ci Hci) as [cid Hcid].
    assert (Hcin : In cid (map Contact.id (contacts d))).
    { rewrite List.Forall_forall in Hids. apply Hids.
      apply list_elem_of_In. eapply list_elem_of_lookup_2. exact Hcid. }
    cbn [length] in H1. rewrite Nat2Z.inj_succ in H1.
    cbn [Seed.insert_interactions]. rewrite Hcid, Htid.
    set (now := clock (length Seed.contacts + k)%nat).
    set (ts := Seed.daysAgo (today k) days).
    assert (E : Seed.insert_seed_interaction now (Some cid) (Some tid)
                  (prepareValue (Js.Str direction)) ts
                  (prepareValue (Js.or duration Js.Null)) d
                = insert_interaction now cid tid (Some direction) ts
                    (prepareValue (Js.or duration Js.Null)) None d).
    { unfold Seed.insert_seed_interaction, bind, check.
      unfold ts. rewrite (seed_timestamp_in_range (today k) days (Hdates k)) by lia.
      reflexivity. }
    assert (Hdur : exists v, integer (prepareValue (Js.or duration Js.Null)) = inr v).
    { destruct (integer (prepareValue (Js.or duration Js.Null))) as [|v]; [discriminate|].
      now exists v. }
    destruct (insert_interaction_ok now cid tid ts (Some direction)
                (prepareValue (Js.or duration Js.Null)) None d) as (d1 & i & E1);
      try assumption; try lia.
    { exists (Some direction). now apply varchar_fits. }
    { exists None. reflexivity. }
    pose proof (insert_interaction_cases now cid tid (Some direction) ts
                  (prepareValue (Js.or duration Js.Null)) None d) as Hcases.
    rewrite E1 in Hcases.
    destruct Hcases as (dir' & dur' & subj' & _ & _ & _ & Hi & _ & _ & Hd1).
    rewrite <- E in E1. rewrite (bind_inr _ _ _ _ _ E1).
    destruct (IH (S k) d1) as (d' & new & Hrun & Hc & Ht & Hint & Hseq & Hnew).
    + subst d1. simpl. exact Htypes'.
    + subst d1. simpl. exact Hids.
    + subst d1. simpl. apply Forall_app. split.
      * eapply List.Forall_impl; [|exact Hkeys]. simpl. intros; lia.
      * constructor; [rewrite Hi; simpl; lia | constructor].
    + subst d1. simpl. lia.
    + subst d1. simpl. lia.
    + exists d', (i :: new). rewrite Hrun. subst d1. simpl in *.
      rewrite <- app_assoc in Hint. simpl in Hint.
      repeat split; try assumption.
      constructor; [|exact Hnew]. simpl. rewrite Hcid, Hi. reflexivity.
Qed.

Lemma seed_contacts_fit : Forall (fun c => seed_contact_fits c = true) Seed.contacts.
Proof.
  unfold Seed.contacts.
  repeat (constructor; [vm_compute; reflexivity|]). constructor.
Qed.

Lemma seed_interactions_fit :
  Forall (fun row => seed_interaction_fits 10 row = true) Seed.interactions.
Proof.
  unfold Seed.interactions.
  repeat (constructor; [vm_compute; reflexivity|]). constructor.
Qed.

Lemma map_Some_inj {A} (l l' : list A) : map Some l = map Some l' -> l = l'.
Proof.
  revert l'. induction l as [|a l IH]; intros [|b l'] H; simpl in H;
    try discriminate; [reflexivity|].
  inversion H. f_equal. now apply IH.
Qed.

Lemma seed_names_of_rows (cs : list (gmap string Js.value)) (new : list Contact.t) :
  Forall2 (fun c row =>
             prepareValue (Js.get c "name") = Some (Contact.name row)
             /\ Contact.last_interaction_date row = None) cs new ->
  map (fun c => prepareValue (Js.get c "name")) cs = map Some (map Contact.name new).
Proof.
  induction 1 as [|c row cs new [Hn _] _ IH]; simpl; [reflexivity|].
  now rewrite Hn, IH.
Qed.

(** The contacts part of a run: ten contacts are appended, with the names
    of the script and the next ten keys. *)
Lemma seed_contacts_part (clock : nat -> Z) (d : db) :
  room_for 26 d ->
  exists d1 new,
    Seed.insert_contacts clock 0 Seed.contacts [] d = (d1, inr (map Contact.id new))
    /\ contacts d1 = (contacts d ++ new)%list
    /\ interaction_types d1 = interaction_types d
    /\ interactions d1 = interactions d
    /\ interactions_id_seq d1 = interactions_id_seq d
    /\ map Contact.name new = seed_names
    /\ Forall (fun row => Contact.last_interaction_date row = None) new
    /\ map Contact.id new
       = map (fun j => contacts_id_seq d + 1 + Z.of_nat j) (seq 0 10).
Proof.
  intros (Hck & Hik & Hc0 & Hc1 & Hi0 & Hi1).
  destruct (insert_contacts_appends clock Seed.contacts seed_contacts_fit 0 [] d Hck Hc0)
    as (d1 & new & Hrun & Hc & Ht & Hi & _ & Hiseq & Hnew & Hids).
  { change (Z.of_nat (length Seed.contacts)) with 10. lia. }
  exists d1, new. simpl in Hrun.
  split; [exact Hrun|]. split; [exact Hc|]. split; [exact Ht|]. split; [exact Hi|].
  split; [exact Hiseq|]. split; [|split; [|exact Hids]].
  - apply map_Some_inj. rewrite <- (seed_names_of_rows _ _ Hnew).
    vm_compute. reflexivity.
  - clear - Hnew. induction Hnew as [|c row cs new [_ Hl] _ IH]; constructor; assumption.
Qed.

(** A run of the script that meets no error, statement by statement. *)
Lemma seed_run (clock today : nat -> Z) (d : db) :
  room_for 26 d ->
  seed_types_known d ->
  seed_dates_in_range today ->
  exists d2 newc newi,
    Seed.seed clock today d
    = recompute_last_interaction_date
        (clock (length Seed.contacts + length Seed.interactions)%nat) d2
    /\ contacts d2 = (contacts d ++ newc)%list
    /\ interaction_types d2 = interaction_types d
    /\ interactions d2 = (interactions d ++ newi)%list
    /\ map Contact.name newc = seed_names
    /\ map Contact.id newc
       = map (fun j => contacts_id_seq d + 1 + Z.of_nat j) (seq 0 10)
    /\ Forall2 (fun (row : Seed.interaction) i =>
                  map Contact.id newc !! fst (fst (fst (fst row)))
                  = Some (Interaction.contact_id i))
               Seed.interactions newi.
Proof.
  intros Hroom Hknown Hdates.
  destruct (seed_contacts_part clock d Hroom)
    as (d1 & newc & Hrun1 & Hc1 & Ht1 & Hi1 & Hs1 & Hnames & _ & Hids).
  destruct Hroom as (Hck & Hik & Hc0 & Hc1' & Hi0 & Hi1').
  set (types := Seed.typeMap
                  (map (fun t => (InteractionType.id t, InteractionType.type_name t))
                       (interaction_types d))).
  assert (Hlen : length (map Contact.id newc) = 10%nat)
    by (rewrite Hids, length_map, length_seq; reflexivity).
  destruct (insert_interactions_appends clock today types (map Contact.id newc)
              Seed.interactions) with (k := 0%nat) (d := d1)
    as (d2 & newi & Hrun2 & Hc2 & Ht2 & Hi2 & _ & Hnewi).
  - rewrite Hlen. exact seed_interactions_fit.
  - exact Hdates.
  - apply List.Forall_forall. intros row Hrow.
    destruct (typeMap_of_catalog d (snd (fst (fst (fst row))))) as [Hsome Hknown'].
    destruct (Hknown' (Hknown row Hrow)) as [tid Htid].
    exists tid. split; [exact Htid|].
    destruct (Hsome tid Htid) as (t & Htin & Hid & _).
    rewrite Ht1, <- Hid. now apply in_map.
  - apply List.Forall_forall. intros id Hid. rewrite Hc1, map_app.
    apply in_or_app. now right.
  - now rewrite Hi1, Hs1.
  - now rewrite Hs1.
  - rewrite Hs1. change (Z.of_nat (length Seed.interactions)) with 26. lia.
  - exists d2, newc, newi. split.
    + unfold Seed.seed.
      assert (E0 : Seed.select_types d
                   = (d, inr (map (fun t => (InteractionType.id t,
                                             InteractionType.type_name t))
                                  (interaction_types d)))) by reflexivity.
      rewrite (bind_inr _ _ _ _ _ E0). cbv zeta. fold types.
      rewrite (bind_inr _ _ _ _ _ Hrun1), (bind_inr _ _ _ _ _ Hrun2). reflexivity.
    + rewrite Hc2, Ht2, Hi2, Hc1, Ht1, Hi1. repeat split; assumption.
Qed.

Lemma recompute_names (now : Z) (d : db) :
  map Contact.name (contacts (fst (recompute_last_interaction_date now d)))
  = map Contact.name (contacts d).
Proof. cbn [recompute_last_interaction_date fst contacts]. rewrite map_map. reflexivity. Qed.

Lemma seed_types_known_by_name (d : db) :
  forallb (fun row : Seed.interaction =>
             existsb (fun t => String.eqb (InteractionType.type_name t)
                                          (snd (fst (fst (fst row)))))
                     (interaction_types d))
          Seed.interactions = true ->
  seed_types_known d.
Proof.
  intros H row Hrow. rewrite forallb_forall in H. specialize (H row Hrow).
  apply existsb_exists in H. destruct H as (t & Hin & Heq).
  apply String.eqb_eq in Heq. eauto.
Qed.

Lemma room_for_seeded_db_26 : room_for 26 seeded_db.
Proof.
  unfold room_for. change (contacts seeded_db) with (@nil Contact.t).
  change (interactions seeded_db) with (@nil Interaction.t).
  change (contacts_id_seq seeded_db) with 0.
  change (interactions_id_seq seeded_db) with 0.
  unfold Pg.INT4_MAX. repeat split; try constructor; lia.
Qed.

Lemma seed_dates_in_range_2025 : seed_dates_in_range (fun _ => 9300 * Pg.USECS_PER_DAY).
Proof.
  intros k. unfold Seed.YEAR_1, Seed.YEAR_10000, Pg.USECS_PER_DAY. lia.
Qed.

(** X20.  On a store whose keys are below their sequences and whose
    catalog has the types the script names, a run of the seed script
    meets no error and adds its ten contacts and its 26 interactions, also
    where contacts of these names exist already: the script's branch for
    an existing contact is never taken, so every run adds the ten names
    again.  It ends with every last-interaction timestamp, of old and new
    contacts, recomputed from the interactions. *)
Theorem seed_adds_all_its_rows_on_every_run (clock today : nat -> Z) (d : db) :
  room_for 26 d ->
  seed_types_known d ->
  seed_dates_in_range today ->
  exists d',
    Seed.seed clock today d = (d', inr tt)
    /\ map Contact.name (contacts d') = (map Contact.name (contacts d) ++ seed_names)%list
    /\ length (interactions d') = (length (interactions d) + 26)%nat
    /\ last_interaction_derived d'.
Proof.
  intros Hroom Hknown Hdates.
  destruct (seed_run clock today d Hroom Hknown Hdates)
    as (d2 & newc & newi & Hrun & Hc & _ & Hi & Hnames & _ & Hnewi).
  set (now := clock (length Seed.contacts + length Seed.interactions)%nat) in *.
  exists (fst (recompute_last_interaction_date now d2)).
  split; [rewrite Hrun; reflexivity|]. split; [|split].
  - rewrite recompute_names, Hc, map_app, Hnames. reflexivity.
  - cbn [recompute_last_interaction_date fst interactions].
    rewrite Hi, length_app. apply Forall2_length in Hnewi. rewrite <- Hnewi. reflexivity.
  - apply recompute_establishes_derived.
Qed.

Lemma seed_adds_all_its_rows_witness :
  exists d',
    Seed.seed (fun _ => 9300 * Pg.USECS_PER_DAY) (fun _ => 9300 * Pg.USECS_PER_DAY) seeded_db
    = (d', inr tt)
    /\ map Contact.name (contacts d')
       = (map Contact.name (contacts seeded_db) ++ seed_names)%list
    /\ length (interactions d') = (length (interactions seeded_db) + 26)%nat
    /\ last_interaction_derived d'.
Proof.
  apply (seed_adds_all_its_rows_on_every_run
           (fun _ => 9300 * Pg.USECS_PER_DAY) (fun _ => 9300 * Pg.USECS_PER_DAY) seeded_db).
  - apply room_for_seeded_db_26.
  - apply seed_types_known_by_name. vm_compute. reflexivity.
  - apply seed_dates_in_range_2025.
Defined.

Lemma insert_interactions_first_fails
    (clock today : nat -> Z) (k : nat) (types : gmap string Z) (contactIds : list Z)
    (ci : nat) (type direction : string) (days : Z) (duration : Js.value)
    (rest : list Seed.interaction) (d d1 : db) (msg : string) :
  Seed.insert_seed_interaction (clock (length Seed.contacts + k)%nat)
    (contactIds !! ci) (types !! type) (prepareValue (Js.Str direction))
    (Seed.daysAgo (today k) days) (prepareValue (Js.or duration Js.Null)) d
  = (d1, inl msg) ->
  Seed.insert_interactions clock today k types contactIds
    ((ci, type, direction, days, duration) :: rest) d
  = (d1, inl msg).
Proof.
  intros E. cbn [Seed.insert_interactions]. apply (bind_inl _ _ _ _ _ E).
Qed.

(** X21.  The script runs its statements one by one, not in a
    transaction: where the catalog has no type "phone_call", the run fails
    at its first interaction with the database's not-null error, and the
    ten contacts it has inserted by then stay, without any interaction and
    never contacted. *)
Theorem seed_without_its_types_leaves_the_contacts (clock today : nat -> Z) (d : db) :
  room_for 26 d ->
  (forall t, In t (interaction_types d) -> InteractionType.type_name t <> "phone_call") ->
  seed_dates_in_range today ->
  exists d' msg new,
    Seed.seed clock today d = (d', inl msg)
    /\ contacts d' = (contacts d ++ new)%list
    /\ map Contact.name new = seed_names
    /\ Forall (fun c => Contact.last_interaction_date c = None) new
    /\ interactions d' = interactions d.
Proof.
  intros Hroom Hnone Hdates.
  destruct (seed_contacts_part clock d Hroom)
    as (d1 & newc & Hrun1 & Hc1 & Ht1 & Hi1 & Hs1 & Hnames & Hnever & Hids).
  set (types := Seed.typeMap
                  (map (fun t => (InteractionType.id t, InteractionType.type_name t))
                       (interaction_types d))).
  assert (Htype : types !! "phone_call" = None).
  { destruct (types !! "phone_call") as [tid|] eqn:E; [|reflexivity].
    destruct (typeMap_of_catalog d "phone_call") as [Hsome _].
    destruct (Hsome tid E) as (t & Htin & _ & Hname).
    exfalso. exact (Hnone t Htin Hname). }
  assert (Hcid : map Contact.id newc !! 0%nat = Some (contacts_id_seq d + 1 + Z.of_nat 0))
    by (rewrite Hids; reflexivity).
  set (d1' := mk_db (contacts d1) (interaction_types d1) (interactions d1)
                 (contacts_id_seq d1) (interaction_types_id_seq d1)
                 (interactions_id_seq d1 + 1)).
  exists d1', "null value in column interaction_type_id violates not-null constraint", newc.
  split; [|subst d1'; simpl; repeat split; assumption].
  unfold Seed.seed.
  assert (E0 : Seed.select_types d
               = (d, inr (map (fun t => (InteractionType.id t,
                                         InteractionType.type_name t))
                              (interaction_types d)))) by reflexivity.
  rewrite (bind_inr _ _ _ _ _ E0). cbv zeta. fold types.
  rewrite (bind_inr _ _ _ _ _ Hrun1).
  apply bind_inl. unfold Seed.interactions.
  apply insert_interactions_first_fails.
  rewrite Htype, Hcid.
  unfold Seed.insert_seed_interaction, bind, check.
  rewrite (seed_timestamp_in_range (today 0%nat) 3 (Hdates 0%nat)) by lia.
  reflexivity.
Qed.

Lemma seed_without_its_types_witness :
  exists d' msg new,
    Seed.seed (fun _ => 9300 * Pg.USECS_PER_DAY) (fun _ => 9300 * Pg.USECS_PER_DAY) empty_db
    = (d', inl msg)
    /\ contacts d' = (contacts empty_db ++ new)%list
    /\ map Contact.name new = seed_names
    /\ Forall (fun c => Contact.last_interaction_date c = None) new
    /\ interactions d' = interactions empty_db.
Proof.
  apply (seed_without_its_types_leaves_the_contacts
           (fun _ => 9300 * Pg.USECS_PER_DAY) (fun _ => 9300 * Pg.USECS_PER_DAY) empty_db).
  - unfold room_for, empty_db, Pg.INT4_MAX. simpl. repeat split; try constructor; lia.
  - intros t [].
  - apply seed_dates_in_range_2025.
Defined.

(** X22.  After a run of the seed script that meets no error, on a store
    that keeps its foreign keys, the contact added last, Lisa Tran, has no
    interaction and no last-interaction timestamp: she is the
    never-contacted contact of the seed data. *)
Theorem seed_leaves_lisa_tran_never_contacted (clock today : nat -> Z) (d : db) :
  consistent d ->
  room_for 26 d ->
  seed_types_known d ->
  seed_dates_in_range today ->
  exists d' lisa,
    Seed.seed clock today d = (d', inr tt)
    /\ In lisa (contacts d')
    /\ Contact.name lisa = "Lisa Tran"
    /\ Contact.id lisa = contacts_id_seq d + 10
    /\ interactions_of (Contact.id lisa) d' = []
    /\ Contact.last_interaction_date lisa = None.
Proof.
  intros Hd Hroom Hknown Hdates.
  destruct (seed_run clock today d Hroom Hknown Hdates)
    as (d2 & newc & newi & Hrun & Hc & _ & Hi & Hnames & Hids & Hnewi).
  destruct Hroom as (Hck & _).
  set (now := clock (length Seed.contacts + length Seed.interactions)%nat) in *.
  set (none := Contact.mk 0 "" None None None None None None).
  set (lisa0 := nth 9 newc none).
  assert (Hlen : length newc = 10%nat).
  { rewrite <- (length_map Contact.id), Hids, length_map, length_seq. reflexivity. }
  assert (Hin0 : In lisa0 newc) by (apply nth_In; lia).
  assert (Hname : Contact.name lisa0 = "Lisa Tran").
  { unfold lisa0. change "Lisa Tran" with (nth 9 seed_names (Contact.name none)).
    rewrite <- Hnames. symmetry. apply map_nth. }
  assert (Hid : Contact.id lisa0 = contacts_id_seq d + 10).
  { unfold lisa0.
    transitivity (nth 9 (map Contact.id newc) (Contact.id none));
      [symmetry; apply map_nth|].
    rewrite Hids. simpl. lia. }
  assert (Hnone : interactions_of (Contact.id lisa0) d2 = []).
  { unfold interactions_of. apply filter_none. intros i Hin.
    apply Z.eqb_neq. rewrite Hid. rewrite Hi in Hin.
    apply in_app_or in Hin. destruct Hin as [Hin|Hin].
    - pose proof (interactions_contact_id_fkey d Hd) as Hfk.
      rewrite List.Forall_forall in Hfk. specialize (Hfk i Hin).
      apply in_map_iff in Hfk. destruct Hfk as (c & Hcid & Hcin).
      rewrite List.Forall_forall in Hck. specialize (Hck c Hcin). lia.
    - destruct (Forall2_In_r _ _ _ _ Hnewi Hin) as (row & Hrow & Hlookup).
      rewrite Hids in Hlookup. unfold Seed.interactions in Hrow. simpl in Hrow.
      repeat (destruct Hrow as [<-|Hrow];
              [simpl in Hlookup; inversion Hlookup; lia|]).
      destruct Hrow. }
  exists (fst (recompute_last_interaction_date now d2)).
  exists (Contact.mk (Contact.id lisa0) (Contact.name lisa0) (Contact.phone_number lisa0)
                     (Contact.email lisa0) (Contact.relationship_type lisa0)
                     (max_timestamp (interactions_of (Contact.id lisa0) d2))
                     (Contact.created_at lisa0) (Some now)).
  split; [rewrite Hrun; reflexivity|]. split; [|split; [exact Hname|split; [exact Hid|split]]].
  - cbn [recompute_last_interaction_date fst contacts].
    apply in_map_iff. exists lisa0. split; [reflexivity|].
    rewrite Hc. apply in_or_app. now right.
  - cbn [Contact.id]. exact Hnone.
  - cbn [Contact.last_interaction_date]. rewrite Hnone. reflexivity.
Qed.

Lemma seed_leaves_lisa_tran_witness :
  exists d' lisa,
    Seed.seed (fun _ => 9300 * Pg.USECS_PER_DAY) (fun _ => 9300 * Pg.USECS_PER_DAY) seeded_db
    = (d', inr tt)
    /\ In lisa (contacts d')
    /\ Contact.name lisa = "Lisa Tran"
    /\ Contact.id lisa = contacts_id_seq seeded_db + 10
    /\ interactions_of (Contact.id lisa) d' = []
    /\ Contact.last_interaction_date lisa = None.
Proof.
  apply (seed_leaves_lisa_tran_never_contacted
           (fun _ => 9300 * Pg.USECS_PER_DAY) (fun _ => 9300 * Pg.USECS_PER_DAY) seeded_db).
  - apply consistent_seeded_db.
  - apply room_for_seeded_db_26.
  - apply seed_types_known_by_name. vm_compute. reflexivity.
  - apply seed_dates_in_range_2025.
Defined.
